(** * Attractor particle simulation (script_attractor_particles_vanilla.js)

    A shallow embedding of the numeric core of the vanilla attractor demo:
    [createParticles], [updateParticles] and [resetParticles], together with
    the properties the specification states about them.

    ** Numbers

    The script computes with JavaScript numbers.  They are modelled by the
    type [number]: a real number, one of the two infinities, or NaN, with
    the IEEE-754 / ECMAScript rules for the special values written out
    ([x / 0], [Infinity * 0], [NaN] propagation, comparisons with [NaN], the
    sign-of-the-dividend remainder [%]).  Three things are idealised:
    finite arithmetic is exact (no rounding, neither in the double
    operations nor in the stores into a [Float32Array]), finite results
    never overflow, and there is a single zero, which behaves like [+0]
    (every zero divisor of the script is a sum of squares, its square root,
    or [2 * halfExtent], for which the sign of zero cannot be observed).

    ** Buffers

    A [Float32Array] is a [list number]; reading outside it yields
    [undefined], which is [NaN] in arithmetic, and writing outside it is
    ignored, as stdpp's list insert does. *)

From Stdlib Require Import Reals Lra Lia.
From stdpp Require Import base option list.

(** ** JavaScript numbers *)

Inductive number : Type :=
  | Fin (r : R)
  | PInf
  | NInf
  | NaN.

Module Number.

Local Open Scope R_scope.

(** Unary minus. *)
Definition neg (a : number) : number :=
  match a with
  | Fin r => Fin (- r)
  | PInf => NInf
  | NInf => PInf
  | NaN => NaN
  end.

(** [a + b]. *)
Definition add (a b : number) : number :=
  match a, b with
  | NaN, _ | _, NaN => NaN
  | PInf, NInf | NInf, PInf => NaN
  | PInf, _ | _, PInf => PInf
  | NInf, _ | _, NInf => NInf
  | Fin x, Fin y => Fin (x + y)
  end.

(** [a - b]. *)
Definition sub (a b : number) : number := add a (neg b).

(** The infinity whose sign is the sign of [r], flipped when [positive]
    is [false]; a zero [r] counts as positive. *)
Definition signed_inf (positive : bool) (r : R) : number :=
  if Rlt_dec r 0
  then (if positive then NInf else PInf)
  else (if positive then PInf else NInf).

(** [a * b]. *)
Definition mul (a b : number) : number :=
  match a, b with
  | NaN, _ | _, NaN => NaN
  | Fin x, Fin y => Fin (x * y)
  | PInf, Fin y | Fin y, PInf =>
      if Req_dec_T y 0 then NaN else signed_inf true y
  | NInf, Fin y | Fin y, NInf =>
      if Req_dec_T y 0 then NaN else signed_inf false y
  | PInf, PInf | NInf, NInf => PInf
  | PInf, NInf | NInf, PInf => NInf
  end.

(** [a / b]; a zero divisor is [+0]. *)
Definition div (a b : number) : number :=
  match a, b with
  | NaN, _ | _, NaN => NaN
  | Fin x, Fin y =>
      if Req_dec_T y 0
      then (if Req_dec_T x 0 then NaN else signed_inf true x)
      else Fin (x / y)
  | Fin _, PInf | Fin _, NInf => Fin 0
  | PInf, Fin y => signed_inf true y
  | NInf, Fin y => signed_inf false y
  | PInf, PInf | PInf, NInf | NInf, PInf | NInf, NInf => NaN
  end.

(** [Math.sqrt(a)]. *)
Definition sqrt (a : number) : number :=
  match a with
  | Fin x => if Rlt_dec x 0 then NaN else Fin (R_sqrt.sqrt x)
  | PInf => PInf
  | NInf => NaN
  | NaN => NaN
  end.

(** Rounding toward zero. *)
Definition trunc (x : R) : R :=
  if Rle_dec 0 x then IZR (Int_part x) else - IZR (Int_part (- x)).

(** [a % b]: the remainder has the sign of the dividend. *)
Definition rem (a b : number) : number :=
  match a, b with
  | NaN, _ | _, NaN => NaN
  | PInf, _ | NInf, _ => NaN
  | Fin x, PInf | Fin x, NInf => Fin x
  | Fin x, Fin y =>
      if Req_dec_T y 0 then NaN else Fin (x - y * trunc (x / y))
  end.

(** [a > b]. *)
Definition gt (a b : number) : bool :=
  match a, b with
  | NaN, _ | _, NaN => false
  | _, PInf => false
  | NInf, _ => false
  | PInf, _ => true
  | Fin _, NInf => true
  | Fin x, Fin y => if Rlt_dec y x then true else false
  end.

(** [Math.sin], [Math.cos] and [Math.PI], idealised to the real
    functions and the real constant. *)
Definition sin (a : number) : number :=
  match a with Fin x => Fin (Rtrigo_def.sin x) | _ => NaN end.
Definition cos (a : number) : number :=
  match a with Fin x => Fin (Rtrigo_def.cos x) | _ => NaN end.
Definition PI : number := Fin Rtrigo1.PI.

End Number.

Arguments Number.add : simpl never.
Arguments Number.sub : simpl never.
Arguments Number.mul : simpl never.
Arguments Number.div : simpl never.
Arguments Number.sqrt : simpl never.
Arguments Number.rem : simpl never.
Arguments Number.gt : simpl never.

Declare Scope js_scope.
Delimit Scope js_scope with js.
Bind Scope js_scope with number.
Infix "+" := Number.add : js_scope.
Infix "-" := Number.sub : js_scope.
Infix "*" := Number.mul : js_scope.
Infix "/" := Number.div : js_scope.
Infix "mod" := Number.rem : js_scope.
Infix ">?" := Number.gt : js_scope.

(** A decimal literal of the script. *)
Coercion Fin : R >-> number.

(** ** Data model *)

(** [THREE.Vector3], with finite components. *)
Module Vector3.
Record t : Type := mk { x : R; y : R; z : R }.

(** [v.normalize()]: [v] divided by its length, or by [1] when the
    length is zero. *)
Definition normalize (v : t) : t :=
  let l := R_sqrt.sqrt (x v * x v + y v * y v + z v * z v)%R in
  let l := if Req_dec_T l 0 then 1%R else l in
  mk (x v / l)%R (y v / l)%R (z v / l)%R.
End Vector3.

(** The [uniforms] object: each field is the [value] of the uniform of the
    same name.  The uniforms that only the shaders read ([scale], [colorA],
    [colorB]) are left out. *)
Record Uniforms : Type := {
  attractorMass : R;
  particleGlobalMass : R;
  timeScale : R;
  spinningStrength : R;
  maxSpeed : R;
  gravityConstant : R;
  velocityDamping : R;
  boundHalfExtent : R;
  attractorPositions : list Vector3.t;
  attractorRotationAxes : list Vector3.t
}.

(** [particleGeometry]: the arrays of its three buffer attributes. *)
Record Geometry : Type := {
  position : list number;
  velocity : list number;
  particleMass : list number
}.

(** [a[i]] on a typed array, used as an operand. *)
Definition get (a : list number) (i : nat) : number := default NaN (a !! i).

Notation "a .[ i ]" := (get a i) (at level 1, left associativity, format "a .[ i ]").

(** [for (let i = start; i < start + count; i++) s = body(i, s)]. *)
Fixpoint for_ {St : Type} (start count : nat) (body : nat -> St -> St) (s : St) : St :=
  match count with
  | O => s
  | S k => for_ (S start) k body (body start s)
  end.

Local Open Scope R_scope.
Local Open Scope js_scope.

Section Simulation.

(** The two constants of the script ([1000] and [3] there). *)
Variable PARTICLE_COUNT : nat.
Variable ATTRACTOR_COUNT : nat.

(** The sequence of results of [Math.random()], by call number. *)
Variable random : nat -> R.

(** [Math.random()], threading the number of calls made so far. *)
Definition Math_random (calls : nat) : number * nat :=
  (Fin (random calls), S calls).

(** *** [updateParticles] *)

(** One iteration of the loop over the attractors (lines 196-216).
    Reading a component of an attractor that is not in the array throws,
    which is [None]. *)
Definition attract (u : Uniforms) (positions particleMasses : list number)
    (i j : nat) (f : number * number * number) : option (number * number * number) :=
  let i3 := (i * 3)%nat in
  let '(fx, fy, fz) := f in
  aP ← attractorPositions u !! j;
  let dx := Vector3.x aP - positions.[i3] in
  let dy := Vector3.y aP - positions.[(i3 + 1)%nat] in
  let dz := Vector3.z aP - positions.[(i3 + 2)%nat] in
  let distSq := dx * dx + dy * dy + dz * dz in
  let dist := Number.sqrt distSq in
  (* Gravity *)
  let gravityStrength :=
    attractorMass u * particleMasses.[i] * gravityConstant u / distSq in
  let forceMag := gravityStrength / dist in
  let fx := fx + forceMag * dx in
  let fy := fy + forceMag * dy in
  let fz := fz + forceMag * dz in
  (* Spinning *)
  let spinningStrength := gravityStrength * spinningStrength u in
  aR ← attractorRotationAxes u !! j;
  let spinX := Vector3.y aR * dz - Vector3.z aR * dy in
  let spinY := Vector3.z aR * dx - Vector3.x aR * dz in
  let spinZ := Vector3.x aR * dy - Vector3.y aR * dx in
  let fx := fx + spinningStrength * spinX in
  let fy := fy + spinningStrength * spinY in
  let fz := fz + spinningStrength * spinZ in
  Some (fx, fy, fz).

(** The loop over the attractors (lines 194-217). *)
Definition forces (u : Uniforms) (positions particleMasses : list number)
    (i : nat) : option (number * number * number) :=
  for_ 0 ATTRACTOR_COUNT
    (fun j f => f ≫= attract u positions particleMasses i j)
    (Some (Fin 0, Fin 0, Fin 0)).

(** The body of the loop over the particles is a sequence of blocks, each
    introduced by a comment in the script.  Every block is a function of
    the array it assigns to; [i3] is [i * 3]. *)

(** "Update velocity" (lines 220-222). *)
Definition update_velocity (u : Uniforms) (i3 : nat) (f : number * number * number)
    (velocities : list number) : list number :=
  let '(fx, fy, fz) := f in
  let velocities := <[i3 := velocities.[i3] + fx * timeScale u]> velocities in
  let velocities :=
    <[(i3 + 1)%nat := velocities.[(i3 + 1)%nat] + fy * timeScale u]> velocities in
  <[(i3 + 2)%nat := velocities.[(i3 + 2)%nat] + fz * timeScale u]> velocities.

(** "Apply speed limit" (lines 225-231). *)
Definition apply_speed_limit (u : Uniforms) (i3 : nat)
    (velocities : list number) : list number :=
  let speedSq :=
    velocities.[i3] * velocities.[i3]
    + velocities.[(i3 + 1)%nat] * velocities.[(i3 + 1)%nat]
    + velocities.[(i3 + 2)%nat] * velocities.[(i3 + 2)%nat] in
  if speedSq >? maxSpeed u * maxSpeed u then
    let speedFactor := maxSpeed u / Number.sqrt speedSq in
    let velocities := <[i3 := velocities.[i3] * speedFactor]> velocities in
    let velocities :=
      <[(i3 + 1)%nat := velocities.[(i3 + 1)%nat] * speedFactor]> velocities in
    <[(i3 + 2)%nat := velocities.[(i3 + 2)%nat] * speedFactor]> velocities
  else velocities.

(** "Apply damping" (lines 234-237). *)
Definition apply_damping (u : Uniforms) (i3 : nat)
    (velocities : list number) : list number :=
  let damping := 1 - velocityDamping u in
  let velocities := <[i3 := velocities.[i3] * damping]> velocities in
  let velocities :=
    <[(i3 + 1)%nat := velocities.[(i3 + 1)%nat] * damping]> velocities in
  <[(i3 + 2)%nat := velocities.[(i3 + 2)%nat] * damping]> velocities.

(** "Update position" (lines 240-242). *)
Definition update_position (u : Uniforms) (i3 : nat)
    (velocities positions : list number) : list number :=
  let positions :=
    <[i3 := positions.[i3] + velocities.[i3] * timeScale u]> positions in
  let positions :=
    <[(i3 + 1)%nat :=
        positions.[(i3 + 1)%nat] + velocities.[(i3 + 1)%nat] * timeScale u]>
      positions in
  <[(i3 + 2)%nat :=
      positions.[(i3 + 2)%nat] + velocities.[(i3 + 2)%nat] * timeScale u]>
    positions.

(** "Box loop" (lines 245-248). *)
Definition box_loop (u : Uniforms) (i3 : nat)
    (positions : list number) : list number :=
  let halfExtent := boundHalfExtent u in
  let positions :=
    <[i3 := (positions.[i3] + halfExtent) mod (2 * halfExtent) - halfExtent]>
      positions in
  let positions :=
    <[(i3 + 1)%nat :=
        (positions.[(i3 + 1)%nat] + halfExtent) mod (2 * halfExtent) - halfExtent]>
      positions in
  <[(i3 + 2)%nat :=
      (positions.[(i3 + 2)%nat] + halfExtent) mod (2 * halfExtent) - halfExtent]>
    positions.

(** One iteration of the loop over the particles (lines 191-248). *)
Definition particle (u : Uniforms) (i : nat) (g : Geometry) : option Geometry :=
  let positions := position g in
  let velocities := velocity g in
  let particleMasses := particleMass g in
  let i3 := (i * 3)%nat in
  f ← forces u positions particleMasses i;
  let velocities := update_velocity u i3 f velocities in
  let velocities := apply_speed_limit u i3 velocities in
  let velocities := apply_damping u i3 velocities in
  let positions := update_position u i3 velocities positions in
  let positions := box_loop u i3 positions in
  Some {| position := positions; velocity := velocities;
          particleMass := particleMasses |}.

(** [updateParticles()] (lines 182-253): [None] when it throws. *)
Definition updateParticles (u : Uniforms) (g : Geometry) : option Geometry :=
  for_ 0 PARTICLE_COUNT (fun i g => g ≫= particle u i) (Some g).

(** *** [createParticles] and [resetParticles] *)

(** The body of the loop of [createParticles] (lines 149-161); the state
    is the three arrays and the number of calls of [Math.random]. *)
Definition create_particle (u : Uniforms) (i : nat) (s : Geometry * nat)
    : Geometry * nat :=
  let '(g, calls) := s in
  let positions := position g in
  let velocities := velocity g in
  let particleMasses := particleMass g in
  let i3 := (i * 3)%nat in
  let '(rnd, calls) := Math_random calls in
  let positions := <[i3 := (rnd - 0.5) * 5]> positions in
  let '(rnd, calls) := Math_random calls in
  let positions := <[(i3 + 1)%nat := (rnd - 0.5) * 0.2]> positions in
  let '(rnd, calls) := Math_random calls in
  let positions := <[(i3 + 2)%nat := (rnd - 0.5) * 5]> positions in
  let '(rnd, calls) := Math_random calls in
  let phi := rnd * Number.PI * 2 in
  let '(rnd, calls) := Math_random calls in
  let theta := rnd * Number.PI in
  let r : number := 0.05 in
  let velocities := <[i3 := r * Number.sin phi * Number.sin theta]> velocities in
  let velocities := <[(i3 + 1)%nat := r * Number.cos phi]> velocities in
  let velocities :=
    <[(i3 + 2)%nat := r * Number.sin phi * Number.cos theta]> velocities in
  let '(rnd, calls) := Math_random calls in
  let particleMasses :=
    <[i := (rnd * 0.75 + 0.25) * particleGlobalMass u]> particleMasses in
  ({| position := positions; velocity := velocities;
      particleMass := particleMasses |}, calls).

(** [createParticles()] (lines 143-167): the new [particleGeometry], and
    the number of calls of [Math.random] after it.  A new [Float32Array]
    is filled with zeros. *)
Definition createParticles (u : Uniforms) (calls : nat) : Geometry * nat :=
  let positions := replicate (PARTICLE_COUNT * 3) (Fin 0) in
  let velocities := replicate (PARTICLE_COUNT * 3) (Fin 0) in
  let particleMasses := replicate PARTICLE_COUNT (Fin 0) in
  for_ 0 PARTICLE_COUNT (create_particle u)
    ({| position := positions; velocity := velocities;
        particleMass := particleMasses |}, calls).

(** The body of the loop of [resetParticles] (lines 296-308). *)
Definition reset_particle (u : Uniforms) (i : nat) (s : Geometry * nat)
    : Geometry * nat :=
  let '(g, calls) := s in
  let positions := position g in
  let velocities := velocity g in
  let particleMasses := particleMass g in
  let i3 := (i * 3)%nat in
  let '(rnd, calls) := Math_random calls in
  let positions := <[i3 := (rnd - 0.5) * 5]> positions in
  let '(rnd, calls) := Math_random calls in
  let positions := <[(i3 + 1)%nat := (rnd - 0.5) * 0.2]> positions in
  let '(rnd, calls) := Math_random calls in
  let positions := <[(i3 + 2)%nat := (rnd - 0.5) * 5]> positions in
  let '(rnd, calls) := Math_random calls in
  let phi := rnd * Number.PI * 2 in
  let '(rnd, calls) := Math_random calls in
  let theta := rnd * Number.PI in
  let r : number := 0.05 in
  let velocities := <[i3 := r * Number.sin phi * Number.sin theta]> velocities in
  let velocities := <[(i3 + 1)%nat := r * Number.cos phi]> velocities in
  let velocities :=
    <[(i3 + 2)%nat := r * Number.sin phi * Number.cos theta]> velocities in
  let '(rnd, calls) := Math_random calls in
  let particleMasses :=
    <[i := (rnd * 0.75 + 0.25) * particleGlobalMass u]> particleMasses in
  ({| position := positions; velocity := velocities;
      particleMass := particleMasses |}, calls).

(** [resetParticles()] (lines 290-314), on the arrays of the current
    [particleGeometry]. *)
Definition resetParticles (u : Uniforms) (g : Geometry) (calls : nat)
    : Geometry * nat :=
  for_ 0 PARTICLE_COUNT (reset_particle u) (g, calls).

End Simulation.

(** ** Vectors and the vocabulary of the specification *)

(** A triple of numbers: the three consecutive entries of one particle in
    a buffer, or a force. *)
Definition vec : Type := (number * number * number)%type.

(** The three entries of a buffer that start at [i3], when all exist. *)
Definition lookup3 (a : list number) (i3 : nat) : option vec :=
  x ← a !! i3; y ← a !! (i3 + 1)%nat; z ← a !! (i3 + 2)%nat; Some (x, y, z).

(** The same entries read as operands. *)
Definition read3 (a : list number) (i3 : nat) : vec :=
  (a.[i3], a.[(i3 + 1)%nat], a.[(i3 + 2)%nat]).

(** The three assignments [a[i3] = x; a[i3 + 1] = y; a[i3 + 2] = z]. *)
Definition write3 (i3 : nat) (v : vec) (a : list number) : list number :=
  let '(x, y, z) := v in <[(i3 + 2)%nat := z]> (<[(i3 + 1)%nat := y]> (<[i3 := x]> a)).

(** Vectors of real numbers. *)
Module V3.
Definition t : Type := (R * R * R)%type.
Definition zero : t := (0, 0, 0)%R.
Definition add (a b : t) : t :=
  let '(ax, ay, az) := a in let '(bx, by_, bz) := b in
  (ax + bx, ay + by_, az + bz)%R.
Definition sub (a b : t) : t :=
  let '(ax, ay, az) := a in let '(bx, by_, bz) := b in
  (ax - bx, ay - by_, az - bz)%R.
Definition scale (c : R) (a : t) : t :=
  let '(ax, ay, az) := a in (c * ax, c * ay, c * az)%R.
Definition cross (a b : t) : t :=
  let '(ax, ay, az) := a in let '(bx, by_, bz) := b in
  (ay * bz - az * by_, az * bx - ax * bz, ax * by_ - ay * bx)%R.
Definition normSq (a : t) : R :=
  let '(ax, ay, az) := a in (ax * ax + ay * ay + az * az)%R.
Definition norm (a : t) : R := R_sqrt.sqrt (normSq a).
Definition of_Vector3 (a : Vector3.t) : t :=
  (Vector3.x a, Vector3.y a, Vector3.z a).
End V3.

(** A real vector as a triple of finite numbers. *)
Definition fin3 (v : V3.t) : vec :=
  let '(x, y, z) := v in (Fin x, Fin y, Fin z).

(** Particle [i] of [g] has the finite position [p], velocity [v] and
    mass [m]. *)
Definition particle_is (g : Geometry) (i : nat) (p v : V3.t) (m : R) : Prop :=
  lookup3 (position g) (i * 3) = Some (fin3 p)
  /\ lookup3 (velocity g) (i * 3) = Some (fin3 v)
  /\ particleMass g !! i = Some (Fin m).

(** Both attractor arrays hold the [n] attractors the loop reads. *)
Definition attractors_loaded (n : nat) (u : Uniforms) : Prop :=
  (n <= length (attractorPositions u))%nat
  /\ (n <= length (attractorRotationAxes u))%nat.

(** The point [p] is the position of none of the first [n] attractors. *)
Definition apart (n : nat) (u : Uniforms) (p : V3.t) : Prop :=
  forall j a, (j < n)%nat -> attractorPositions u !! j = Some a ->
    V3.of_Vector3 a <> p.

(** The gravity term of the specification for one attractor at [a], on a
    particle of mass [m] at [p]:
    [g = attractorMass * m * gravityConstant / distSq] and the force
    [(g / dist) * (a - p)]. *)
Definition gravity_strength (u : Uniforms) (m : R) (a p : V3.t) : R :=
  (attractorMass u * m * gravityConstant u / V3.normSq (V3.sub a p))%R.

Definition gravity_term (u : Uniforms) (m : R) (a p : V3.t) : V3.t :=
  V3.scale (gravity_strength u m a p / V3.norm (V3.sub a p))%R (V3.sub a p).

(** The spin term of the specification:
    [(g * spinningStrength) * (rotationAxis x (a - p))]. *)
Definition spin_term (u : Uniforms) (m : R) (a axis p : V3.t) : V3.t :=
  V3.scale (gravity_strength u m a p * spinningStrength u)%R
    (V3.cross axis (V3.sub a p)).

(** The net force of the specification: the sum of both terms over the
    attractors [start], ..., [start + count - 1]. *)
Fixpoint net_force_from (u : Uniforms) (m : R) (p : V3.t) (start count : nat) : V3.t :=
  match count with
  | O => V3.zero
  | S k =>
      match attractorPositions u !! start, attractorRotationAxes u !! start with
      | Some a, Some axis =>
          V3.add
            (V3.add (gravity_term u m (V3.of_Vector3 a) p)
                    (spin_term u m (V3.of_Vector3 a) (V3.of_Vector3 axis) p))
            (net_force_from u m p (S start) k)
      | _, _ => net_force_from u m p (S start) k
      end
  end.

Definition net_force (n : nat) (u : Uniforms) (m : R) (p : V3.t) : V3.t :=
  net_force_from u m p 0 n.

(** The steps of the specification on number triples. *)
Module Step.

Definition add (a b : vec) : vec :=
  let '(ax, ay, az) := a in let '(bx, by_, bz) := b in
  (ax + bx, ay + by_, az + bz).

Definition scale (a : vec) (c : number) : vec :=
  let '(ax, ay, az) := a in (ax * c, ay * c, az * c).

Definition norm (a : vec) : number :=
  let '(ax, ay, az) := a in Number.sqrt (ax * ax + ay * ay + az * az).

(** Step 2: [velocity += force * dt_scale]. *)
Definition integrate_velocity (dt : R) (f v : vec) : vec :=
  add v (scale f dt).


(** Step 4: [velocity *= 1 - velocityDamping]. *)
Definition damp (velocityDamping : R) (v : vec) : vec :=
  scale v (1 - velocityDamping).

(** Step 5: [position += velocity * dt_scale]. *)
Definition integrate_position (dt : R) (v p : vec) : vec :=
  add p (scale v dt).

(** Step 6 on one axis:
    [((position + halfExtent) mod (2 * halfExtent)) - halfExtent], where
    [mod] is the remainder [%] of the script. *)
Definition wrap1 (halfExtent : R) (x : number) : number :=
  (x + halfExtent) mod (2 * halfExtent) - halfExtent.

Definition wrap (halfExtent : R) (p : vec) : vec :=
  let '(x, y, z) := p in
  (wrap1 halfExtent x, wrap1 halfExtent y, wrap1 halfExtent z).

(** Steps 5 and 6 on a particle whose new velocity is [v']. *)
Definition position (u : Uniforms) (v' p : vec) : vec :=
  wrap (boundHalfExtent u) (integrate_position (timeScale u) v' p).

End Step.

(** The speed limit as the script tests it, on the squared speed. *)
Definition speed_limit (maxSpeed : R) (v : vec) : vec :=
  let '(vx, vy, vz) := v in
  let speedSq := vx * vx + vy * vy + vz * vz in
  if speedSq >? maxSpeed * maxSpeed
  then Step.scale v (maxSpeed / Number.sqrt speedSq)
  else v.

(** The velocity the loop body leaves for a particle of velocity [v] under
    the force [f]: the blocks "Update velocity", "Apply speed limit" and
    "Apply damping" on one triple. *)
Definition new_velocity (u : Uniforms) (f v : vec) : vec :=
  Step.damp (velocityDamping u)
    (speed_limit (maxSpeed u) (Step.integrate_velocity (timeScale u) f v)).

(** What one iteration of the loop over the particles leaves alone: the
    masses, the sizes of the buffers and the entries of the other
    particles. *)
Definition same_outside (i : nat) (g g' : Geometry) : Prop :=
  particleMass g' = particleMass g
  /\ length (position g') = length (position g)
  /\ length (velocity g') = length (velocity g)
  /\ forall j, (j < i * 3 \/ i * 3 + 2 < j)%nat ->
       position g' !! j = position g !! j /\ velocity g' !! j = velocity g !! j.


(** Every coordinate of the position of particle [i] is finite and lies in
    [[-h, h)]. *)
Definition inside_box (g : Geometry) (i : nat) (h : R) : Prop :=
  exists x y z : R,
    lookup3 (position g) (i * 3) = Some (Fin x, Fin y, Fin z)
    /\ (- h <= x < h)%R /\ (- h <= y < h)%R /\ (- h <= z < h)%R.


(** The values that one iteration of the loop of [createParticles] assigns
    when [calls] calls of [Math.random] have been made before it. *)
Definition sampled_position (random : nat -> R) (calls : nat) : vec :=
  ((random calls - 0.5) * 5,
   (random (S calls) - 0.5) * 0.2,
   (random (S (S calls)) - 0.5) * 5).

Definition sampled_velocity (random : nat -> R) (calls : nat) : vec :=
  let phi := random (3 + calls)%nat * Number.PI * 2 in
  let theta := random (4 + calls)%nat * Number.PI in
  let r : number := 0.05 in
  (r * Number.sin phi * Number.sin theta,
   r * Number.cos phi,
   r * Number.sin phi * Number.cos theta).

Definition sampled_mass (random : nat -> R) (u : Uniforms) (calls : nat) : number :=
  (random (5 + calls)%nat * 0.75 + 0.25) * particleGlobalMass u.

(** ** The constants of the script and the inputs of the scenarios *)

(** The arrays [attractorPositions] and [attractorRotationAxes]
    (lines 109-118). *)
Definition script_attractorPositions : list Vector3.t :=
  [ Vector3.mk (-0.5) 0.5 0; Vector3.mk 0.5 0 (-0.5); Vector3.mk 0 (-0.5) 0.5 ].

Definition script_attractorRotationAxes : list Vector3.t :=
  [ Vector3.mk 0 1 0; Vector3.mk 0 1 0; Vector3.normalize (Vector3.mk 1 0 (-0.5)) ].


(** The initial [uniforms] (lines 55-69), after [setupAttractors]. *)
Definition script_uniforms : Uniforms := {|
  attractorMass := 1e7;
  particleGlobalMass := 1e4;
  timeScale := 0.01;
  spinningStrength := 4;
  maxSpeed := 2;
  gravityConstant := 6.67e-11;
  velocityDamping := 0.7;
  boundHalfExtent := 8;
  attractorPositions := script_attractorPositions;
  attractorRotationAxes := script_attractorRotationAxes
|}.




Definition set_boundHalfExtent (h : R) (u : Uniforms) : Uniforms := {|
  attractorMass := attractorMass u;
  particleGlobalMass := particleGlobalMass u;
  timeScale := timeScale u;
  spinningStrength := spinningStrength u;
  maxSpeed := maxSpeed u;
  gravityConstant := gravityConstant u;
  velocityDamping := velocityDamping u;
  boundHalfExtent := h;
  attractorPositions := attractorPositions u;
  attractorRotationAxes := attractorRotationAxes u
|}.


(** Draws of [Math.random] that put the first particle of
    [createParticles] on the second attractor of the script: [0.6], [0.5]
    and [0.4] for its position, and [0.5] ever after. *)
Definition draws_onto_attractor (k : nat) : R :=
  match k with
  | 0%nat => 0.6
  | 1%nat => 0.5
  | 2%nat => 0.4
  | _ => 0.5
  end.

(** The geometry that [createParticles] makes of these draws. *)
Definition created_on_attractor (u : Uniforms) : Geometry :=
  (createParticles 1000 draws_onto_attractor u 0).1.

(** A geometry of [n + 1] particles: particle [0] has position [p],
    velocity [v] and mass [m]; the others rest at the origin with the
    same mass. *)
Definition geometry_of (n : nat) (p v : V3.t) (m : R) : Geometry :=
  let '(px, py, pz) := p in
  let '(vx, vy, vz) := v in
  {| position := Fin px :: Fin py :: Fin pz :: replicate (n * 3) (Fin 0);
     velocity := Fin vx :: Fin vy :: Fin vz :: replicate (n * 3) (Fin 0);
     particleMass := Fin m :: replicate n (Fin m) |}.


(** ** The callers: the frames, the GUI and the fragment shader *)

(** [animate] (lines 326-331) over consecutive frames, each with the
    uniforms that are in force during it (the GUI may change them between
    two frames): every frame calls [updateParticles] once;
    [controls.update()] and [renderer.render] do not assign to the arrays.
    [None] when a frame throws; what later frames then do to the partly
    updated arrays is not modelled. *)
Fixpoint animate (PARTICLE_COUNT ATTRACTOR_COUNT : nat) (frames : list Uniforms)
    (g : Geometry) : option Geometry :=
  match frames with
  | [] => Some g
  | u :: frames =>
      g' ← updateParticles PARTICLE_COUNT ATTRACTOR_COUNT u g;
      animate PARTICLE_COUNT ATTRACTOR_COUNT frames g'
  end.

(** A number that is zero or [NaN]. *)
Definition zero_or_NaN (a : number) : Prop := a = Fin 0 \/ a = NaN.

(** One of the three numbers is [NaN]. *)
Definition has_NaN (v : vec) : Prop :=
  let '(x, y, z) := v in x = NaN \/ y = NaN \/ z = NaN.

(** The [onChange] callback of the slider [particleGlobalMassExponent]
    (line 261), for a finite [value]: [Math.pow(10, value)] is the real
    power. *)
Definition onChange_particleGlobalMassExponent (value : R) (u : Uniforms) : Uniforms := {|
  attractorMass := attractorMass u;
  particleGlobalMass := Rpower 10 value;
  timeScale := timeScale u;
  spinningStrength := spinningStrength u;
  maxSpeed := maxSpeed u;
  gravityConstant := gravityConstant u;
  velocityDamping := velocityDamping u;
  boundHalfExtent := boundHalfExtent u;
  attractorPositions := attractorPositions u;
  attractorRotationAxes := attractorRotationAxes u
|}.

(** The fragment shader (lines 39-53) on real numbers, with the GLSL
    built-in functions [clamp], [smoothstep], [mix] and [length]. *)
Module FragmentShader.

Definition clamp (x lo hi : R) : R := Rmin (Rmax x lo) hi.

Definition smoothstep (edge0 edge1 x : R) : R :=
  let t := clamp ((x - edge0) / (edge1 - edge0)) 0 1 in
  (t * t * (3 - 2 * t))%R.

Definition mix (a b t : R) : R := (a * (1 - t) + b * t)%R.

(** [colorMix] for the varying [vVelocity] and the uniform [maxSpeed]. *)
Definition colorMix (maxSpeed : R) (vVelocity : V3.t) : R :=
  let speed := V3.norm vVelocity in
  smoothstep 0 0.125 (speed / maxSpeed).

(** The three channels of [gl_FragColor]. *)
Definition color (colorA colorB : V3.t) (maxSpeed : R) (vVelocity : V3.t) : V3.t :=
  let '(ar, ag, ab) := colorA in
  let '(br, bg, bb) := colorB in
  let m := colorMix maxSpeed vVelocity in
  (mix ar br m, mix ag bg m, mix ab bb m).

End FragmentShader.

(** ** IEEE 754 arithmetic

    The definitions above compute with exact real numbers.  What follows is
    the arithmetic of the script as JavaScript performs it: every operation
    on numbers yields the [binary64] number nearest to its exact result, and
    every store into a [Float32Array] converts the number to the nearest
    [binary32] number ([Math.fround]); results too large for the format are
    infinite.  A single zero is kept: the sign of a zero is not observable
    in the script (see above). *)
Module IEEE.

Local Open Scope R_scope.

(** The binary exponent of [x <> 0]: [2 ^ mag x <= |x| < 2 ^ (mag x + 1)]. *)
Definition mag (x : R) : Z := Int_part (ln (Rabs x) / ln 2).

(** The integer nearest to [t]; of two nearest integers, the even one. *)
Definition nearest_even (t : R) : Z :=
  let n := Int_part t in
  let f := t - IZR n in
  if Rlt_dec f (1 / 2) then n
  else if Rlt_dec (1 / 2) f then (n + 1)%Z
  else if Z.even n then n else (n + 1)%Z.

(** A binary format: [precision] bits of significand, [2 ^ emin] the
    least normal number, [2 ^ emax] the overflow threshold. *)
Section Format.

Variables precision emin emax : Z.

(** The distance between the numbers of the format around [x]. *)
Definition ulp (x : R) : R :=
  powerRZ 2 (Z.max (mag x) emin - precision + 1).

(** Rounding to nearest, ties to even. *)
Definition round (x : R) : number :=
  if Req_dec_T x 0 then Fin 0
  else
    let y := IZR (nearest_even (x / ulp x)) * ulp x in
    if Rle_dec (powerRZ 2 emax) (Rabs y)
    then (if Rlt_dec 0 x then PInf else NInf)
    else Fin y.

Definition rounded (a : number) : number :=
  match a with
  | Fin x => round x
  | _ => a
  end.

End Format.

(** A JavaScript number, and [Math.fround]. *)
Definition binary64 : number -> number := rounded 53 (-1022) 1024.
Definition binary32 : number -> number := rounded 24 (-126) 128.

(** The operations of JavaScript on numbers. *)
Definition add (a b : number) : number := binary64 (Number.add a b).
Definition sub (a b : number) : number := binary64 (Number.sub a b).
Definition mul (a b : number) : number := binary64 (Number.mul a b).
Definition div (a b : number) : number := binary64 (Number.div a b).
Definition sqrt (a : number) : number := binary64 (Number.sqrt a).
Definition rem (a b : number) : number := binary64 (Number.rem a b).

Definition gt (a b : number) : bool := Number.gt a b.

(** A decimal literal of the script: the number nearest to it. *)
Definition literal (x : R) : number := binary64 (Fin x).

End IEEE.

Declare Scope ieee_scope.
Delimit Scope ieee_scope with ieee.
Arguments IEEE.binary64 a%_ieee : simpl never.
Arguments IEEE.binary32 a%_ieee : simpl never.
Arguments IEEE.add (a b)%_ieee : simpl never.
Arguments IEEE.sub (a b)%_ieee : simpl never.
Arguments IEEE.mul (a b)%_ieee : simpl never.
Arguments IEEE.div (a b)%_ieee : simpl never.
Arguments IEEE.sqrt a%_ieee : simpl never.
Arguments IEEE.rem (a b)%_ieee : simpl never.
Arguments IEEE.gt (a b)%_ieee : simpl never.

Infix "+" := IEEE.add : ieee_scope.
Infix "-" := IEEE.sub : ieee_scope.
Infix "*" := IEEE.mul : ieee_scope.
Infix "/" := IEEE.div : ieee_scope.
Infix "mod" := IEEE.rem : ieee_scope.
Infix ">?" := IEEE.gt : ieee_scope.

(** ** The script in IEEE 754 arithmetic

    The functions of the script once more, block by block as above, with
    the arithmetic of JavaScript: the operators are those of [IEEE], and
    every assignment to an element of a [Float32Array] stores
    [IEEE.binary32] of the assigned number.  Reading an element yields the
    stored number unchanged.  The values of the uniforms, the coordinates
    of the attractors and the results of [Math.random] are JavaScript
    numbers; the definitions accept any real number in their place.  The
    literals [0.5], [5], [0.75], [0.25], [2] and [1] are numbers of the
    format; [0.2], [0.05] and [Math.PI] are rounded. *)
Module Script.

Local Open Scope R_scope.
Local Open Scope ieee_scope.

Section Simulation.

Variable PARTICLE_COUNT : nat.
Variable ATTRACTOR_COUNT : nat.

(** The results of [Math.random()], by call number, and the results of
    [Math.sin] and [Math.cos] on finite arguments: the language leaves
    their precision to the implementation. *)
Variable random : nat -> R.
Variable sin_result : R -> R.
Variable cos_result : R -> R.

Definition Math_random (calls : nat) : number * nat :=
  (Fin (random calls), S calls).

Definition Math_sin (a : number) : number :=
  match a with Fin x => Fin (sin_result x) | _ => NaN end.

Definition Math_cos (a : number) : number :=
  match a with Fin x => Fin (cos_result x) | _ => NaN end.

Definition Math_PI : number := IEEE.literal PI.

(** *** [updateParticles] *)

(** One iteration of the loop over the attractors (lines 196-216). *)
Definition attract (u : Uniforms) (positions particleMasses : list number)
    (i j : nat) (f : number * number * number) : option (number * number * number) :=
  let i3 := (i * 3)%nat in
  let '(fx, fy, fz) := f in
  aP ← attractorPositions u !! j;
  let dx := Vector3.x aP - positions.[i3] in
  let dy := Vector3.y aP - positions.[(i3 + 1)%nat] in
  let dz := Vector3.z aP - positions.[(i3 + 2)%nat] in
  let distSq := dx * dx + dy * dy + dz * dz in
  let dist := IEEE.sqrt distSq in
  (* Gravity *)
  let gravityStrength :=
    attractorMass u * particleMasses.[i] * gravityConstant u / distSq in
  let forceMag := gravityStrength / dist in
  let fx := fx + forceMag * dx in
  let fy := fy + forceMag * dy in
  let fz := fz + forceMag * dz in
  (* Spinning *)
  let spinningStrength := gravityStrength * spinningStrength u in
  aR ← attractorRotationAxes u !! j;
  let spinX := Vector3.y aR * dz - Vector3.z aR * dy in
  let spinY := Vector3.z aR * dx - Vector3.x aR * dz in
  let spinZ := Vector3.x aR * dy - Vector3.y aR * dx in
  let fx := fx + spinningStrength * spinX in
  let fy := fy + spinningStrength * spinY in
  let fz := fz + spinningStrength * spinZ in
  Some (fx, fy, fz).

(** The loop over the attractors (lines 194-217). *)
Definition forces (u : Uniforms) (positions particleMasses : list number)
    (i : nat) : option (number * number * number) :=
  for_ 0 ATTRACTOR_COUNT
    (fun j f => f ≫= attract u positions particleMasses i j)
    (Some (Fin 0, Fin 0, Fin 0)).

(** "Update velocity" (lines 220-222). *)
Definition update_velocity (u : Uniforms) (i3 : nat) (f : number * number * number)
    (velocities : list number) : list number :=
  let '(fx, fy, fz) := f in
  let velocities :=
    <[i3 := IEEE.binary32 (velocities.[i3] + fx * timeScale u)]> velocities in
  let velocities :=
    <[(i3 + 1)%nat :=
        IEEE.binary32 (velocities.[(i3 + 1)%nat] + fy * timeScale u)]> velocities in
  <[(i3 + 2)%nat :=
      IEEE.binary32 (velocities.[(i3 + 2)%nat] + fz * timeScale u)]> velocities.

(** "Apply speed limit" (lines 225-231). *)
Definition apply_speed_limit (u : Uniforms) (i3 : nat)
    (velocities : list number) : list number :=
  let speedSq :=
    velocities.[i3] * velocities.[i3]
    + velocities.[(i3 + 1)%nat] * velocities.[(i3 + 1)%nat]
    + velocities.[(i3 + 2)%nat] * velocities.[(i3 + 2)%nat] in
  if speedSq >? maxSpeed u * maxSpeed u then
    let speedFactor := maxSpeed u / IEEE.sqrt speedSq in
    let velocities :=
      <[i3 := IEEE.binary32 (velocities.[i3] * speedFactor)]> velocities in
    let velocities :=
      <[(i3 + 1)%nat := IEEE.binary32 (velocities.[(i3 + 1)%nat] * speedFactor)]>
        velocities in
    <[(i3 + 2)%nat := IEEE.binary32 (velocities.[(i3 + 2)%nat] * speedFactor)]>
      velocities
  else velocities.

(** "Apply damping" (lines 234-237). *)
Definition apply_damping (u : Uniforms) (i3 : nat)
    (velocities : list number) : list number :=
  let damping := 1 - velocityDamping u in
  let velocities :=
    <[i3 := IEEE.binary32 (velocities.[i3] * damping)]> velocities in
  let velocities :=
    <[(i3 + 1)%nat := IEEE.binary32 (velocities.[(i3 + 1)%nat] * damping)]>
      velocities in
  <[(i3 + 2)%nat := IEEE.binary32 (velocities.[(i3 + 2)%nat] * damping)]>
    velocities.

(** "Update position" (lines 240-242). *)
Definition update_position (u : Uniforms) (i3 : nat)
    (velocities positions : list number) : list number :=
  let positions :=
    <[i3 := IEEE.binary32 (positions.[i3] + velocities.[i3] * timeScale u)]>
      positions in
  let positions :=
    <[(i3 + 1)%nat :=
        IEEE.binary32
          (positions.[(i3 + 1)%nat] + velocities.[(i3 + 1)%nat] * timeScale u)]>
      positions in
  <[(i3 + 2)%nat :=
      IEEE.binary32
        (positions.[(i3 + 2)%nat] + velocities.[(i3 + 2)%nat] * timeScale u)]>
    positions.

(** "Box loop" (lines 245-248). *)
Definition box_loop (u : Uniforms) (i3 : nat)
    (positions : list number) : list number :=
  let halfExtent := boundHalfExtent u in
  let positions :=
    <[i3 :=
        IEEE.binary32
          ((positions.[i3] + halfExtent) mod (2 * halfExtent) - halfExtent)]>
      positions in
  let positions :=
    <[(i3 + 1)%nat :=
        IEEE.binary32
          ((positions.[(i3 + 1)%nat] + halfExtent) mod (2 * halfExtent)
           - halfExtent)]>
      positions in
  <[(i3 + 2)%nat :=
      IEEE.binary32
        ((positions.[(i3 + 2)%nat] + halfExtent) mod (2 * halfExtent)
         - halfExtent)]>
    positions.

(** One iteration of the loop over the particles (lines 191-248). *)
Definition particle (u : Uniforms) (i : nat) (g : Geometry) : option Geometry :=
  let positions := position g in
  let velocities := velocity g in
  let particleMasses := particleMass g in
  let i3 := (i * 3)%nat in
  f ← forces u positions particleMasses i;
  let velocities := update_velocity u i3 f velocities in
  let velocities := apply_speed_limit u i3 velocities in
  let velocities := apply_damping u i3 velocities in
  let positions := update_position u i3 velocities positions in
  let positions := box_loop u i3 positions in
  Some {| position := positions; velocity := velocities;
          particleMass := particleMasses |}.

(** [updateParticles()] (lines 182-253): [None] when it throws. *)
Definition updateParticles (u : Uniforms) (g : Geometry) : option Geometry :=
  for_ 0 PARTICLE_COUNT (fun i g => g ≫= particle u i) (Some g).

(** *** [createParticles] and [resetParticles] *)

(** The body of the loop of [createParticles] (lines 149-161). *)
Definition create_particle (u : Uniforms) (i : nat) (s : Geometry * nat)
    : Geometry * nat :=
  let '(g, calls) := s in
  let positions := position g in
  let velocities := velocity g in
  let particleMasses := particleMass g in
  let i3 := (i * 3)%nat in
  let '(rnd, calls) := Math_random calls in
  let positions := <[i3 := IEEE.binary32 ((rnd - 0.5) * 5)]> positions in
  let '(rnd, calls) := Math_random calls in
  let positions :=
    <[(i3 + 1)%nat := IEEE.binary32 ((rnd - 0.5) * IEEE.literal 0.2)]> positions in
  let '(rnd, calls) := Math_random calls in
  let positions := <[(i3 + 2)%nat := IEEE.binary32 ((rnd - 0.5) * 5)]> positions in
  let '(rnd, calls) := Math_random calls in
  let phi := rnd * Math_PI * 2 in
  let '(rnd, calls) := Math_random calls in
  let theta := rnd * Math_PI in
  let r := IEEE.literal 0.05 in
  let velocities :=
    <[i3 := IEEE.binary32 (r * Math_sin phi * Math_sin theta)]> velocities in
  let velocities :=
    <[(i3 + 1)%nat := IEEE.binary32 (r * Math_cos phi)]> velocities in
  let velocities :=
    <[(i3 + 2)%nat := IEEE.binary32 (r * Math_sin phi * Math_cos theta)]>
      velocities in
  let '(rnd, calls) := Math_random calls in
  let particleMasses :=
    <[i := IEEE.binary32 ((rnd * 0.75 + 0.25) * particleGlobalMass u)]>
      particleMasses in
  ({| position := positions; velocity := velocities;
      particleMass := particleMasses |}, calls).

(** [createParticles()] (lines 143-167). *)
Definition createParticles (u : Uniforms) (calls : nat) : Geometry * nat :=
  let positions := replicate (PARTICLE_COUNT * 3) (Fin 0) in
  let velocities := replicate (PARTICLE_COUNT * 3) (Fin 0) in
  let particleMasses := replicate PARTICLE_COUNT (Fin 0) in
  for_ 0 PARTICLE_COUNT (create_particle u)
    ({| position := positions; velocity := velocities;
        particleMass := particleMasses |}, calls).

(** The body of the loop of [resetParticles] (lines 296-308). *)
Definition reset_particle (u : Uniforms) (i : nat) (s : Geometry * nat)
    : Geometry * nat :=
  let '(g, calls) := s in
  let positions := position g in
  let velocities := velocity g in
  let particleMasses := particleMass g in
  let i3 := (i * 3)%nat in
  let '(rnd, calls) := Math_random calls in
  let positions := <[i3 := IEEE.binary32 ((rnd - 0.5) * 5)]> positions in
  let '(rnd, calls) := Math_random calls in
  let positions :=
    <[(i3 + 1)%nat := IEEE.binary32 ((rnd - 0.5) * IEEE.literal 0.2)]> positions in
  let '(rnd, calls) := Math_random calls in
  let positions := <[(i3 + 2)%nat := IEEE.binary32 ((rnd - 0.5) * 5)]> positions in
  let '(rnd, calls) := Math_random calls in
  let phi := rnd * Math_PI * 2 in
  let '(rnd, calls) := Math_random calls in
  let theta := rnd * Math_PI in
  let r := IEEE.literal 0.05 in
  let velocities :=
    <[i3 := IEEE.binary32 (r * Math_sin phi * Math_sin theta)]> velocities in
  let velocities :=
    <[(i3 + 1)%nat := IEEE.binary32 (r * Math_cos phi)]> velocities in
  let velocities :=
    <[(i3 + 2)%nat := IEEE.binary32 (r * Math_sin phi * Math_cos theta)]>
      velocities in
  let '(rnd, calls) := Math_random calls in
  let particleMasses :=
    <[i := IEEE.binary32 ((rnd * 0.75 + 0.25) * particleGlobalMass u)]>
      particleMasses in
  ({| position := positions; velocity := velocities;
      particleMass := particleMasses |}, calls).

(** [resetParticles()] (lines 290-314). *)
Definition resetParticles (u : Uniforms) (g : Geometry) (calls : nat)
    : Geometry * nat :=
  for_ 0 PARTICLE_COUNT (reset_particle u) (g, calls).

End Simulation.

(** The blocks of the loop body on the three entries of one particle. *)
Module Step.

(** "Update velocity" *)
Definition integrate_velocity (dt : R) (f v : vec) : vec :=
  let '(fx, fy, fz) := f in
  let '(vx, vy, vz) := v in
  (IEEE.binary32 (vx + fx * dt),
   IEEE.binary32 (vy + fy * dt),
   IEEE.binary32 (vz + fz * dt)).

(** "Apply speed limit" *)
Definition speed_limit (maxSpeed : R) (v : vec) : vec :=
  let '(vx, vy, vz) := v in
  let speedSq := vx * vx + vy * vy + vz * vz in
  if speedSq >? maxSpeed * maxSpeed then
    let speedFactor := maxSpeed / IEEE.sqrt speedSq in
    (IEEE.binary32 (vx * speedFactor),
     IEEE.binary32 (vy * speedFactor),
     IEEE.binary32 (vz * speedFactor))
  else v.

(** "Apply damping" *)
Definition damp (velocityDamping : R) (v : vec) : vec :=
  let '(vx, vy, vz) := v in
  let damping := 1 - velocityDamping in
  (IEEE.binary32 (vx * damping),
   IEEE.binary32 (vy * damping),
   IEEE.binary32 (vz * damping)).

(** "Update position" *)
Definition integrate_position (dt : R) (v p : vec) : vec :=
  let '(vx, vy, vz) := v in
  let '(px, py, pz) := p in
  (IEEE.binary32 (px + vx * dt),
   IEEE.binary32 (py + vy * dt),
   IEEE.binary32 (pz + vz * dt)).

(** "Box loop" *)
Definition wrap1 (halfExtent : R) (x : number) : number :=
  IEEE.binary32 ((x + halfExtent) mod (2 * halfExtent) - halfExtent).

Definition wrap (halfExtent : R) (p : vec) : vec :=
  let '(x, y, z) := p in
  (wrap1 halfExtent x, wrap1 halfExtent y, wrap1 halfExtent z).

(** The velocity and the position that the loop body leaves for a
    particle of velocity [v] and position [p] under the force [f]. *)
Definition velocity (u : Uniforms) (f v : vec) : vec :=
  damp (velocityDamping u)
    (speed_limit (maxSpeed u) (integrate_velocity (timeScale u) f v)).

Definition position (u : Uniforms) (v' p : vec) : vec :=
  wrap (boundHalfExtent u) (integrate_position (timeScale u) v' p).

End Step.

(** The values that one iteration of the loop of [createParticles]
    assigns when [calls] calls of [Math.random] have been made before
    it. *)
Section Sampling.

Variable random : nat -> R.
Variable sin_result : R -> R.
Variable cos_result : R -> R.

Definition sampled_position (calls : nat) : vec :=
  (IEEE.binary32 ((random calls - 0.5) * 5),
   IEEE.binary32 ((random (S calls) - 0.5) * IEEE.literal 0.2),
   IEEE.binary32 ((random (S (S calls)) - 0.5) * 5)).

Definition sampled_phi (calls : nat) : number :=
  random (3 + calls)%nat * Math_PI * 2.

Definition sampled_theta (calls : nat) : number :=
  random (4 + calls)%nat * Math_PI.

Definition sampled_velocity (calls : nat) : vec :=
  let phi := sampled_phi calls in
  let theta := sampled_theta calls in
  let r := IEEE.literal 0.05 in
  (IEEE.binary32 (r * Math_sin sin_result phi * Math_sin sin_result theta),
   IEEE.binary32 (r * Math_cos cos_result phi),
   IEEE.binary32 (r * Math_sin sin_result phi * Math_cos cos_result theta)).

Definition sampled_mass (u : Uniforms) (calls : nat) : number :=
  IEEE.binary32 ((random (5 + calls)%nat * 0.75 + 0.25) * particleGlobalMass u).

End Sampling.

End Script.

(** * Properties *)

(** ** Arithmetic of [number] *)

Module NumberFacts.
Import Number.

Lemma add_Fin (a b : R) : Fin a + Fin b = Fin (a + b)%R.
Proof. reflexivity. Qed.

Lemma sub_Fin (a b : R) : Fin a - Fin b = Fin (a - b)%R.
Proof. reflexivity. Qed.

Lemma mul_Fin (a b : R) : Fin a * Fin b = Fin (a * b)%R.
Proof. reflexivity. Qed.

Lemma div_Fin (a b : R) : b <> 0%R -> Fin a / Fin b = Fin (a / b)%R.
Proof. intros Hb. unfold div. destruct (Req_dec_T b 0); [contradiction | reflexivity]. Qed.

Lemma sqrt_Fin (a : R) : (0 <= a)%R -> sqrt (Fin a) = Fin (R_sqrt.sqrt a).
Proof. intros Ha. unfold sqrt. destruct (Rlt_dec a 0); [lra | reflexivity]. Qed.


Lemma gt_Fin_false (a b : R) : (a <= b)%R -> (Fin a >? Fin b) = false.
Proof. intros H. unfold gt. destruct (Rlt_dec b a); [lra | reflexivity]. Qed.

Lemma rem_Fin (a b : R) :
  b <> 0%R -> Fin a mod Fin b = Fin (a - b * trunc (a / b))%R.
Proof. intros Hb. unfold rem. destruct (Req_dec_T b 0); [contradiction | reflexivity]. Qed.

(** [NaN] is absorbing. *)
Lemma add_NaN_r (a : number) : a + NaN = NaN.
Proof. destruct a; reflexivity. Qed.
Lemma mul_NaN_l (a : number) : NaN * a = NaN.
Proof. reflexivity. Qed.

(** The integer part toward zero. *)
Lemma trunc_nonneg (x : R) : (0 <= x)%R -> (trunc x <= x < trunc x + 1)%R.
Proof.
  intros Hx. unfold trunc. destruct (Rle_dec 0 x); [| contradiction].
  destruct (base_Int_part x). lra.
Qed.

Lemma trunc_neg (x : R) : (x < 0)%R -> (x <= trunc x < x + 1)%R.
Proof.
  intros Hx. unfold trunc. destruct (Rle_dec 0 x); [lra |].
  destruct (base_Int_part (- x)). lra.
Qed.

Lemma trunc_IZR (x : R) : exists k : Z, trunc x = IZR k.
Proof.
  unfold trunc. destruct (Rle_dec 0 x).
  - eexists; reflexivity.
  - exists (- Int_part (- x))%Z. now rewrite opp_IZR.
Qed.

(** A real number strictly between [-1] and [1] truncates to [0]. *)
Lemma trunc_small (x : R) : (-1 < x < 1)%R -> trunc x = 0%R.
Proof.
  intros Hx. destruct (trunc_IZR x) as [k Hk].
  assert (Hb : (-1 < IZR k < 1)%R).
  { rewrite <- Hk. destruct (Rle_dec 0 x) as [H0 | H0].
    - pose proof (trunc_nonneg x H0). lra.
    - pose proof (trunc_neg x ltac:(lra)). lra. }
  rewrite Hk. destruct Hb as [Hb1 Hb2].
  apply lt_IZR in Hb1. apply lt_IZR in Hb2.
  assert (k = 0%Z) by lia. subst k. reflexivity.
Qed.



End NumberFacts.

(** ** Buffers *)

Section Buffers.

Implicit Types (a : list number) (i j : nat) (x y z : number) (v : vec).

Lemma get_lookup a i x : a !! i = Some x -> a.[i] = x.
Proof. unfold get. now intros ->. Qed.

Lemma get_insert_eq a i x : (i < length a)%nat -> (<[i := x]> a).[i] = x.
Proof. intros Hi. apply get_lookup. now apply list_lookup_insert_eq. Qed.

Lemma get_insert_ne a i j x : i <> j -> (<[i := x]> a).[j] = a.[j].
Proof. intros Hij. unfold get. now rewrite list_lookup_insert_ne. Qed.

Lemma lookup3_Some a (i3 : nat) x y z :
  lookup3 a i3 = Some (x, y, z) <->
  a !! i3 = Some x /\ a !! (i3 + 1)%nat = Some y /\ a !! (i3 + 2)%nat = Some z.
Proof.
  unfold lookup3. split.
  - destruct (a !! i3) as [x' |]; simpl; [| discriminate].
    destruct (a !! (i3 + 1)%nat) as [y' |]; simpl; [| discriminate].
    destruct (a !! (i3 + 2)%nat) as [z' |]; simpl; [| discriminate].
    intros [= -> -> ->]. auto.
  - intros (-> & -> & ->). reflexivity.
Qed.

Lemma lookup3_length a (i3 : nat) v : lookup3 a i3 = Some v -> (i3 + 2 < length a)%nat.
Proof.
  destruct v as [[x y] z]. intros H. apply lookup3_Some in H as (_ & _ & H).
  now apply lookup_lt_Some in H.
Qed.

Lemma lookup3_read3 a (i3 : nat) v : lookup3 a i3 = Some v -> read3 a i3 = v.
Proof.
  destruct v as [[x y] z]. intros H. apply lookup3_Some in H as (H1 & H2 & H3).
  unfold read3. now rewrite (get_lookup _ _ _ H1), (get_lookup _ _ _ H2), (get_lookup _ _ _ H3).
Qed.

Lemma read3_lookup3 a (i3 : nat) : (i3 + 2 < length a)%nat -> lookup3 a i3 = Some (read3 a i3).
Proof.
  intros Hi. unfold read3, get.
  destruct (lookup_lt_is_Some_2 a i3 ltac:(lia)) as [x Hx].
  destruct (lookup_lt_is_Some_2 a (i3 + 1) ltac:(lia)) as [y Hy].
  destruct (lookup_lt_is_Some_2 a (i3 + 2) ltac:(lia)) as [z Hz].
  rewrite Hx, Hy, Hz. simpl. apply lookup3_Some. auto.
Qed.

Lemma length_write3 (i3 : nat) v a : length (write3 i3 v a) = length a.
Proof. destruct v as [[x y] z]. unfold write3. now rewrite !length_insert. Qed.

Lemma lookup_write3_ne (i3 : nat) v a j :
  j <> i3 -> j <> (i3 + 1)%nat -> j <> (i3 + 2)%nat -> write3 i3 v a !! j = a !! j.
Proof.
  intros H0 H1 H2. destruct v as [[x y] z]. unfold write3.
  rewrite !list_lookup_insert_ne by auto. reflexivity.
Qed.

Lemma lookup3_write3 (i3 : nat) v a :
  (i3 + 2 < length a)%nat -> lookup3 (write3 i3 v a) i3 = Some v.
Proof.
  intros Hi. destruct v as [[x y] z]. unfold write3. apply lookup3_Some.
  repeat split.
  - rewrite !list_lookup_insert_ne by lia. apply list_lookup_insert_eq. lia.
  - rewrite list_lookup_insert_ne by lia. apply list_lookup_insert_eq.
    rewrite length_insert. lia.
  - apply list_lookup_insert_eq. rewrite !length_insert. lia.
Qed.

Lemma read3_write3 (i3 : nat) v a : (i3 + 2 < length a)%nat -> read3 (write3 i3 v a) i3 = v.
Proof. intros Hi. apply lookup3_read3. now apply lookup3_write3. Qed.

Lemma write3_write3 (i3 : nat) v v' a : write3 i3 v' (write3 i3 v a) = write3 i3 v' a.
Proof.
  destruct v as [[x y] z], v' as [[x' y'] z']. unfold write3.
  apply list_eq. intros k.
  rewrite !list_lookup_insert, !length_insert.
  repeat case_decide; try reflexivity; lia.
Qed.

Lemma lookup_get a i : (i < length a)%nat -> a !! i = Some a.[i].
Proof.
  intros Hi. destruct (lookup_lt_is_Some_2 a i Hi) as [w Hw].
  now rewrite (get_lookup _ _ _ Hw).
Qed.

(** Writing back what was read changes nothing. *)
Lemma write3_read3 (i3 : nat) a : write3 i3 (read3 a i3) a = a.
Proof.
  unfold write3, read3.
  rewrite (list_insert_id' a i3) by apply lookup_get.
  rewrite (list_insert_id' a (i3 + 1)) by apply lookup_get.
  apply list_insert_id', lookup_get.
Qed.

End Buffers.

Lemma fin_triple (a b c a' b' c' : R) :
  a = a' -> b = b' -> c = c' -> (Fin a, Fin b, Fin c) = (Fin a', Fin b', Fin c').
Proof. now intros -> -> ->. Qed.

Ltac fin3_eq := simpl; try apply (f_equal Some); apply fin_triple.

(** ** The blocks of the loop body as assignments of a triple *)

Ltac read_back :=
  repeat first
    [ rewrite get_insert_eq by (rewrite ?length_insert; lia)
    | rewrite get_insert_ne by lia ].

Section Blocks.

Variable u : Uniforms.
Implicit Types (a velocities positions : list number) (f : vec).

Lemma update_velocity_write3 (i3 : nat) f velocities :
  (i3 + 2 < length velocities)%nat ->
  update_velocity u i3 f velocities
  = write3 i3 (Step.integrate_velocity (timeScale u) f (read3 velocities i3)) velocities.
Proof.
  intros Hi. destruct f as [[fx fy] fz].
  unfold update_velocity, Step.integrate_velocity, read3, write3; simpl.
  read_back. reflexivity.
Qed.

Lemma apply_speed_limit_write3 (i3 : nat) velocities :
  (i3 + 2 < length velocities)%nat ->
  apply_speed_limit u i3 velocities
  = write3 i3 (speed_limit (maxSpeed u) (read3 velocities i3)) velocities.
Proof.
  intros Hi. unfold apply_speed_limit, speed_limit, read3.
  destruct (_ >? _).
  - unfold write3; simpl. read_back. reflexivity.
  - symmetry. apply write3_read3.
Qed.

Lemma apply_damping_write3 (i3 : nat) velocities :
  (i3 + 2 < length velocities)%nat ->
  apply_damping u i3 velocities
  = write3 i3 (Step.damp (velocityDamping u) (read3 velocities i3)) velocities.
Proof.
  intros Hi. unfold apply_damping, Step.damp, read3, write3; simpl.
  read_back. reflexivity.
Qed.

Lemma update_position_write3 (i3 : nat) velocities positions :
  (i3 + 2 < length positions)%nat ->
  update_position u i3 velocities positions
  = write3 i3
      (Step.integrate_position (timeScale u) (read3 velocities i3) (read3 positions i3))
      positions.
Proof.
  intros Hi. unfold update_position, Step.integrate_position, read3, write3; simpl.
  read_back. reflexivity.
Qed.

Lemma box_loop_write3 (i3 : nat) positions :
  (i3 + 2 < length positions)%nat ->
  box_loop u i3 positions
  = write3 i3 (Step.wrap (boundHalfExtent u) (read3 positions i3)) positions.
Proof.
  intros Hi. unfold box_loop, Step.wrap, Step.wrap1, read3, write3; simpl.
  read_back. reflexivity.
Qed.

End Blocks.

(** ** The loops *)

Section Loops.

Variable PARTICLE_COUNT ATTRACTOR_COUNT : nat.
Variable u : Uniforms.

Lemma for_ext {St : Type} (body body' : nat -> St -> St) count :
  forall start s,
    (forall i s, (start <= i < start + count)%nat -> body i s = body' i s) ->
    for_ start count body s = for_ start count body' s.
Proof.
  induction count as [| k IH]; intros start s Hb; simpl; [reflexivity |].
  rewrite Hb by lia. apply IH. intros i s' Hi. apply Hb. lia.
Qed.

(** The force on particle [i] depends on the buffers only through the
    entries of that particle. *)
Lemma attract_ext positions positions' masses masses' (i j : nat) f :
  read3 positions (i * 3) = read3 positions' (i * 3) ->
  masses.[i] = masses'.[i] ->
  attract u positions masses i j f = attract u positions' masses' i j f.
Proof.
  unfold read3. intros [= H0 H1 H2] Hm. unfold attract.
  rewrite H0, H1, H2, Hm. reflexivity.
Qed.

Lemma forces_ext positions positions' masses masses' (i : nat) :
  read3 positions (i * 3) = read3 positions' (i * 3) ->
  masses.[i] = masses'.[i] ->
  forces ATTRACTOR_COUNT u positions masses i
  = forces ATTRACTOR_COUNT u positions' masses' i.
Proof.
  intros Hp Hm. unfold forces. apply for_ext. intros j f _.
  destruct f as [f |]; simpl; [| reflexivity]. now apply attract_ext.
Qed.

(** With the attractors in place no iteration throws. *)
Lemma attract_is_Some positions masses (i j : nat) f :
  attractors_loaded ATTRACTOR_COUNT u -> (j < ATTRACTOR_COUNT)%nat ->
  is_Some (attract u positions masses i j f).
Proof.
  intros [Hp Ha] Hj. unfold attract. destruct f as [[fx fy] fz].
  destruct (lookup_lt_is_Some_2 (attractorPositions u) j ltac:(lia)) as [aP ->].
  destruct (lookup_lt_is_Some_2 (attractorRotationAxes u) j ltac:(lia)) as [aR ->].
  simpl. eauto.
Qed.

Lemma forces_is_Some positions masses (i : nat) :
  attractors_loaded ATTRACTOR_COUNT u ->
  is_Some (forces ATTRACTOR_COUNT u positions masses i).
Proof.
  intros Hu. unfold forces.
  assert (H : forall count start f, (start + count <= ATTRACTOR_COUNT)%nat ->
    is_Some (for_ start count
               (fun j f => f ≫= attract u positions masses i j) (Some f))).
  { induction count as [| k IH]; intros start f Hk; simpl; [eauto |].
    destruct (attract_is_Some positions masses i start f Hu ltac:(lia)) as [f' ->].
    apply IH. lia. }
  apply H. lia.
Qed.

(** *** Frame of one iteration *)

Ltac frame := intros; repeat (rewrite list_lookup_insert_ne by lia); reflexivity.

Lemma update_velocity_frame (i3 j : nat) f a :
  (j < i3 \/ i3 + 2 < j)%nat -> update_velocity u i3 f a !! j = a !! j.
Proof. destruct f as [[fx fy] fz]. unfold update_velocity. frame. Qed.

Lemma apply_speed_limit_frame (i3 j : nat) a :
  (j < i3 \/ i3 + 2 < j)%nat -> apply_speed_limit u i3 a !! j = a !! j.
Proof. unfold apply_speed_limit. destruct (_ >? _); frame. Qed.

Lemma apply_damping_frame (i3 j : nat) a :
  (j < i3 \/ i3 + 2 < j)%nat -> apply_damping u i3 a !! j = a !! j.
Proof. unfold apply_damping. frame. Qed.

Lemma update_position_frame (i3 j : nat) v a :
  (j < i3 \/ i3 + 2 < j)%nat -> update_position u i3 v a !! j = a !! j.
Proof. unfold update_position. frame. Qed.

Lemma box_loop_frame (i3 j : nat) a :
  (j < i3 \/ i3 + 2 < j)%nat -> box_loop u i3 a !! j = a !! j.
Proof. unfold box_loop. frame. Qed.

Lemma length_update_velocity (i3 : nat) f a :
  length (update_velocity u i3 f a) = length a.
Proof. destruct f as [[fx fy] fz]. unfold update_velocity. now rewrite !length_insert. Qed.

Lemma length_apply_speed_limit (i3 : nat) a :
  length (apply_speed_limit u i3 a) = length a.
Proof. unfold apply_speed_limit. destruct (_ >? _); now rewrite ?length_insert. Qed.

Lemma length_apply_damping (i3 : nat) a : length (apply_damping u i3 a) = length a.
Proof. unfold apply_damping. now rewrite !length_insert. Qed.

Lemma length_update_position (i3 : nat) v a :
  length (update_position u i3 v a) = length a.
Proof. unfold update_position. now rewrite !length_insert. Qed.

Lemma length_box_loop (i3 : nat) a : length (box_loop u i3 a) = length a.
Proof. unfold box_loop. now rewrite !length_insert. Qed.

Lemma particle_frame (i : nat) g g' :
  particle ATTRACTOR_COUNT u i g = Some g' -> same_outside i g g'.
Proof.
  unfold particle. destruct (forces _ _ _ _ _) as [f |]; simpl; [| discriminate].
  intros [= <-]. unfold same_outside; simpl. repeat split.
  - now rewrite length_box_loop, length_update_position.
  - now rewrite length_apply_damping, length_apply_speed_limit, length_update_velocity.
  - now rewrite box_loop_frame, update_position_frame.
  - now rewrite apply_damping_frame, apply_speed_limit_frame, update_velocity_frame.
Qed.

(** One iteration on a particle whose entries exist. *)
Lemma particle_write3 (i : nat) g :
  (i * 3 + 2 < length (position g))%nat ->
  (i * 3 + 2 < length (velocity g))%nat ->
  particle ATTRACTOR_COUNT u i g
  = f ← forces ATTRACTOR_COUNT u (position g) (particleMass g) i;
    let v' := new_velocity u f (read3 (velocity g) (i * 3)) in
    Some {| position :=
              write3 (i * 3) (Step.position u v' (read3 (position g) (i * 3)))
                (position g);
            velocity := write3 (i * 3) v' (velocity g);
            particleMass := particleMass g |}.
Proof.
  intros Hp Hv. unfold particle.
  destruct (forces _ _ _ _ _) as [f |]; simpl; [| reflexivity].
  rewrite update_velocity_write3 by assumption.
  rewrite apply_speed_limit_write3 by (rewrite length_write3; assumption).
  rewrite apply_damping_write3 by (rewrite !length_write3; assumption).
  rewrite update_position_write3 by assumption.
  rewrite box_loop_write3 by (rewrite length_write3; assumption).
  rewrite !read3_write3 by (rewrite ?length_write3; assumption).
  rewrite !write3_write3. reflexivity.
Qed.

(** *** The whole loop *)

Lemma read3_lookup_eq a a' (i3 : nat) :
  (forall j, (i3 <= j <= i3 + 2)%nat -> a' !! j = a !! j) ->
  read3 a' i3 = read3 a i3 /\ lookup3 a' i3 = lookup3 a i3.
Proof.
  intros H. unfold read3, lookup3, get.
  rewrite (H i3), (H (i3 + 1)%nat), (H (i3 + 2)%nat) by lia. auto.
Qed.

(** The loop over the particles [start], ..., [start + count - 1] does not
    throw; it leaves the masses and the other particles alone, and each
    particle in range gets the velocity and the position that its own
    iteration computes from the initial buffers. *)
Lemma particles_loop count :
  attractors_loaded ATTRACTOR_COUNT u ->
  forall start g,
  exists g',
    for_ start count (fun i g => g ≫= particle ATTRACTOR_COUNT u i) (Some g) = Some g'
    /\ particleMass g' = particleMass g
    /\ length (position g') = length (position g)
    /\ length (velocity g') = length (velocity g)
    /\ (forall j, (j < start * 3 \/ (start + count) * 3 <= j)%nat ->
          position g' !! j = position g !! j /\ velocity g' !! j = velocity g !! j)
    /\ (forall i f, (start <= i < start + count)%nat ->
          (i * 3 + 2 < length (position g))%nat ->
          (i * 3 + 2 < length (velocity g))%nat ->
          forces ATTRACTOR_COUNT u (position g) (particleMass g) i = Some f ->
          let v' := new_velocity u f (read3 (velocity g) (i * 3)) in
          lookup3 (velocity g') (i * 3) = Some v'
          /\ lookup3 (position g') (i * 3)
             = Some (Step.position u v' (read3 (position g) (i * 3)))).
Proof.
  intros Hu. induction count as [| k IH]; intros start g; simpl.
  { exists g. split_and!; try reflexivity.
    - intros j _. split; reflexivity.
    - intros i f Hi. lia. }
  destruct (forces_is_Some (position g) (particleMass g) start Hu) as [f0 Hf0].
  assert (H1 : exists g1, particle ATTRACTOR_COUNT u start g = Some g1).
  { unfold particle. rewrite Hf0. simpl. eauto. }
  destruct H1 as [g1 Hg1]. rewrite Hg1.
  destruct (particle_frame _ _ _ Hg1) as (Hm1 & Hlp1 & Hlv1 & Hout1).
  destruct (IH (S start) g1) as (g' & Hg' & Hm & Hlp & Hlv & Hout & Hin).
  exists g'. split; [exact Hg' |].
  split; [congruence |]. split; [congruence |]. split; [congruence |]. split.
  - intros j Hj.
    destruct (Hout j ltac:(lia)) as [-> ->]. apply Hout1. lia.
  - intros i f Hi Hp Hv Hf.
    destruct (decide (i = start)) as [-> | Hne].
    + rewrite particle_write3 in Hg1 by assumption.
      rewrite Hf in Hg1. simpl in Hg1. injection Hg1 as <-. simpl in *.
      set (v' := new_velocity u f (read3 (velocity g) (start * 3))).
      destruct (read3_lookup_eq (write3 (start * 3) v' (velocity g)) (velocity g')
                  (start * 3)) as [_ ->].
      { intros j Hj. apply Hout. lia. }
      destruct (read3_lookup_eq
                  (write3 (start * 3)
                     (Step.position u v' (read3 (position g) (start * 3))) (position g))
                  (position g') (start * 3)) as [_ ->].
      { intros j Hj. apply Hout. lia. }
      split; apply lookup3_write3; assumption.
    + destruct (read3_lookup_eq (position g) (position g1) (i * 3)) as [Hrp _].
      { intros j Hj. apply Hout1. lia. }
      destruct (read3_lookup_eq (velocity g) (velocity g1) (i * 3)) as [Hrv _].
      { intros j Hj. apply Hout1. lia. }
      destruct (Hin i f ltac:(lia) ltac:(lia) ltac:(lia)) as [H1 H2].
      { rewrite <- Hf. apply forces_ext; [exact Hrp | now rewrite Hm1]. }
      rewrite Hrv in H1, H2. rewrite Hrp in H2. auto.
Qed.

(** [updateParticles] on a particle whose entries exist. *)
Lemma updateParticles_particle (i : nat) g p v f :
  attractors_loaded ATTRACTOR_COUNT u ->
  (i < PARTICLE_COUNT)%nat ->
  lookup3 (position g) (i * 3) = Some p ->
  lookup3 (velocity g) (i * 3) = Some v ->
  forces ATTRACTOR_COUNT u (position g) (particleMass g) i = Some f ->
  exists g',
    updateParticles PARTICLE_COUNT ATTRACTOR_COUNT u g = Some g'
    /\ particleMass g' = particleMass g
    /\ lookup3 (velocity g') (i * 3) = Some (new_velocity u f v)
    /\ lookup3 (position g') (i * 3) = Some (Step.position u (new_velocity u f v) p).
Proof.
  intros Hu Hi Hp Hv Hf.
  destruct (particles_loop PARTICLE_COUNT Hu 0 g) as (g' & Hg' & Hm & _ & _ & _ & Hin).
  exists g'. split; [exact Hg' |]. split; [exact Hm |].
  destruct (Hin i f ltac:(lia) (lookup3_length _ _ _ Hp) (lookup3_length _ _ _ Hv) Hf)
    as [H1 H2].
  rewrite (lookup3_read3 _ _ _ Hv) in H1, H2.
  rewrite (lookup3_read3 _ _ _ Hp) in H2. auto.
Qed.

(** ** The force on a finite particle away from the attractors *)

Lemma normSq_sub_pos (a p : V3.t) : a <> p -> (0 < V3.normSq (V3.sub a p))%R.
Proof.
  destruct a as [[ax ay] az], p as [[px py] pz]. intros Hne. simpl.
  destruct (Rle_lt_dec
              ((ax - px) * (ax - px) + (ay - py) * (ay - py) + (az - pz) * (az - pz)) 0)
    as [Hle | Hlt]; [| exact Hlt].
  exfalso. apply Hne.
  pose proof (Rle_0_sqr (ax - px)) as Hx.
  pose proof (Rle_0_sqr (ay - py)) as Hy.
  pose proof (Rle_0_sqr (az - pz)) as Hz.
  unfold Rsqr in Hx, Hy, Hz.
  assert (ax - px = 0)%R by (apply Rsqr_0_uniq; unfold Rsqr; lra).
  assert (ay - py = 0)%R by (apply Rsqr_0_uniq; unfold Rsqr; lra).
  assert (az - pz = 0)%R by (apply Rsqr_0_uniq; unfold Rsqr; lra).
  f_equal; [f_equal |]; lra.
Qed.

(** One attractor adds its gravity term and its spin term. *)
Lemma attract_finite positions masses (i j : nat) aP aR (p acc : V3.t) (m : R) :
  attractorPositions u !! j = Some aP ->
  attractorRotationAxes u !! j = Some aR ->
  read3 positions (i * 3) = fin3 p ->
  masses.[i] = Fin m ->
  V3.of_Vector3 aP <> p ->
  attract u positions masses i j (fin3 acc)
  = Some (fin3 (V3.add acc
                  (V3.add (gravity_term u m (V3.of_Vector3 aP) p)
                          (spin_term u m (V3.of_Vector3 aP) (V3.of_Vector3 aR) p)))).
Proof.
  intros HaP HaR Hp Hm Hne.
  pose proof (normSq_sub_pos _ _ Hne) as Hpos.
  destruct p as [[px py] pz], acc as [[fx fy] fz].
  unfold read3 in Hp. injection Hp as Hx Hy Hz.
  unfold attract; simpl. rewrite HaP, HaR; simpl. rewrite Hx, Hy, Hz, Hm.
  unfold V3.of_Vector3 in *. simpl in Hpos.
  rewrite !NumberFacts.sub_Fin, !NumberFacts.mul_Fin, !NumberFacts.add_Fin.
  rewrite NumberFacts.sqrt_Fin by lra.
  rewrite NumberFacts.div_Fin by lra.
  assert (Hs : (0 < R_sqrt.sqrt
                   ((Vector3.x aP - px) * (Vector3.x aP - px)
                    + (Vector3.y aP - py) * (Vector3.y aP - py)
                    + (Vector3.z aP - pz) * (Vector3.z aP - pz)))%R)
    by (apply sqrt_lt_R0; lra).
  rewrite NumberFacts.div_Fin by lra.
  rewrite ?NumberFacts.sub_Fin, ?NumberFacts.mul_Fin, ?NumberFacts.add_Fin.
  unfold gravity_term, spin_term, gravity_strength, V3.norm; simpl.
  fin3_eq; ring.
Qed.

Lemma forces_from_finite positions masses (i : nat) (p : V3.t) (m : R) :
  attractors_loaded ATTRACTOR_COUNT u ->
  read3 positions (i * 3) = fin3 p ->
  masses.[i] = Fin m ->
  apart ATTRACTOR_COUNT u p ->
  forall count start acc,
    (start + count <= ATTRACTOR_COUNT)%nat ->
    for_ start count (fun j f => f ≫= attract u positions masses i j) (Some (fin3 acc))
    = Some (fin3 (V3.add acc (net_force_from u m p start count))).
Proof.
  intros [Hlp Hla] Hp Hm Hapart.
  induction count as [| k IH]; intros start acc Hk; simpl.
  { destruct acc as [[fx fy] fz]; simpl. fin3_eq; ring. }
  destruct (lookup_lt_is_Some_2 (attractorPositions u) start ltac:(lia)) as [aP HaP].
  destruct (lookup_lt_is_Some_2 (attractorRotationAxes u) start ltac:(lia)) as [aR HaR].
  rewrite (attract_finite positions masses i start aP aR p acc m HaP HaR Hp Hm)
    by (apply (Hapart start); [lia | exact HaP]).
  rewrite IH by lia. rewrite HaP, HaR.
  destruct acc as [[fx fy] fz].
  destruct (gravity_term _ _ _ _) as [[gx gy] gz].
  destruct (spin_term _ _ _ _ _) as [[sx sy] sz].
  destruct (net_force_from _ _ _ _ _) as [[nx ny] nz]; simpl.
  fin3_eq; ring.
Qed.

Lemma forces_finite positions masses (i : nat) (p : V3.t) (m : R) :
  attractors_loaded ATTRACTOR_COUNT u ->
  read3 positions (i * 3) = fin3 p ->
  masses.[i] = Fin m ->
  apart ATTRACTOR_COUNT u p ->
  forces ATTRACTOR_COUNT u positions masses i
  = Some (fin3 (net_force ATTRACTOR_COUNT u m p)).
Proof.
  intros Hu Hp Hm Hapart. unfold forces, net_force.
  change (Some (Fin 0, Fin 0, Fin 0)) with (Some (fin3 V3.zero)).
  rewrite (forces_from_finite positions masses i p m Hu Hp Hm Hapart) by lia.
  destruct (net_force_from _ _ _ _ _) as [[nx ny] nz]; simpl.
  fin3_eq; ring.
Qed.

(** ** The speed limit and the damping on a finite velocity *)







Lemma integrate_velocity_finite (dt : R) (f v : V3.t) :
  Step.integrate_velocity dt (fin3 f) (fin3 v) = fin3 (V3.add v (V3.scale dt f)).
Proof.
  destruct f as [[fx fy] fz], v as [[vx vy] vz].
  unfold Step.integrate_velocity. fin3_eq; ring.
Qed.

Lemma integrate_position_finite (dt : R) (v p : V3.t) :
  Step.integrate_position dt (fin3 v) (fin3 p) = fin3 (V3.add p (V3.scale dt v)).
Proof.
  destruct v as [[vx vy] vz], p as [[px py] pz].
  unfold Step.integrate_position. fin3_eq; ring.
Qed.

Lemma damp_finite (d : R) (w : V3.t) :
  Step.damp d (fin3 w) = fin3 (V3.scale (1 - d) w).
Proof. destruct w as [[x y] z]. unfold Step.damp. fin3_eq; ring. Qed.

(** A velocity within the limit is kept. *)
Lemma speed_limit_within (M : R) (w : V3.t) :
  (V3.normSq w <= M * M)%R -> speed_limit M (fin3 w) = fin3 w.
Proof.
  intros Hw. destruct w as [[x y] z]. unfold speed_limit; simpl in *.
  rewrite !NumberFacts.mul_Fin, !NumberFacts.add_Fin.
  rewrite NumberFacts.gt_Fin_false by exact Hw. reflexivity.
Qed.



(** ** The box loop on a finite coordinate *)

Lemma wrap1_finite (h x : R) :
  h <> 0%R ->
  Step.wrap1 h (Fin x)
  = Fin ((x + h) - (2 * h) * Number.trunc ((x + h) / (2 * h)) - h)%R.
Proof.
  intros Hh. unfold Step.wrap1.
  rewrite NumberFacts.add_Fin, NumberFacts.mul_Fin.
  rewrite NumberFacts.rem_Fin by lra. now rewrite NumberFacts.sub_Fin.
Qed.



(** A coordinate that has just left through the negative face is not
    moved at all. *)
Lemma wrap1_just_below (h x : R) :
  (0 < h)%R -> (- 3 * h < x < - h)%R -> Step.wrap1 h (Fin x) = Fin x.
Proof.
  intros Hh Hx. rewrite wrap1_finite by lra. f_equal.
  rewrite NumberFacts.trunc_small; [ring |].
  assert (H2 : (0 < / (2 * h))%R) by (apply Rinv_0_lt_compat; lra).
  assert (H3 : ((2 * h) * / (2 * h) = 1)%R) by (apply Rinv_r; lra).
  unfold Rdiv. split; nra.
Qed.

(** A coordinate inside the box is kept. *)
Lemma wrap1_in_box (h x : R) :
  (0 < h)%R -> (- h <= x < h)%R -> Step.wrap1 h (Fin x) = Fin x.
Proof.
  intros Hh Hx. rewrite wrap1_finite by lra. f_equal.
  rewrite NumberFacts.trunc_small; [ring |].
  assert (H2 : (0 < / (2 * h))%R) by (apply Rinv_0_lt_compat; lra).
  assert (H3 : ((2 * h) * / (2 * h) = 1)%R) by (apply Rinv_r; lra).
  unfold Rdiv. split; nra.
Qed.

(** ** A particle at the position of an attractor *)

Lemma div_zero_not_finite (a : number) :
  a / Fin 0 = PInf \/ a / Fin 0 = NInf \/ a / Fin 0 = NaN.
Proof.
  destruct a as [r | | |]; unfold Number.div, Number.signed_inf;
    repeat destruct (Req_dec_T _ _); repeat destruct (Rlt_dec _ _);
    auto; try lra.
Qed.

Lemma div_zero_twice_mul_zero (a : number) : a / Fin 0 / Fin 0 * Fin 0 = NaN.
Proof.
  destruct (div_zero_not_finite a) as [-> | [-> | ->]];
    unfold Number.div, Number.mul, Number.signed_inf;
    repeat destruct (Rlt_dec _ _); repeat destruct (Req_dec_T _ _);
    try reflexivity; try lra.
Qed.

(** The iteration for an attractor at the position of the particle turns
    the three accumulators into [NaN], whatever they were. *)
Lemma attract_coincident positions masses (i j : nat) aP aR (p : V3.t) f :
  attractorPositions u !! j = Some aP ->
  attractorRotationAxes u !! j = Some aR ->
  read3 positions (i * 3) = fin3 p ->
  V3.of_Vector3 aP = p ->
  attract u positions masses i j f = Some (NaN, NaN, NaN).
Proof.
  intros HaP HaR Hp Heq. destruct p as [[px py] pz], f as [[fx fy] fz].
  unfold read3 in Hp. injection Hp as Hx Hy Hz.
  unfold V3.of_Vector3 in Heq. injection Heq as Hax Hay Haz.
  unfold attract; simpl. rewrite HaP, HaR; simpl.
  rewrite Hx, Hy, Hz, Hax, Hay, Haz.
  rewrite !NumberFacts.sub_Fin, !NumberFacts.mul_Fin, !NumberFacts.add_Fin.
  replace ((px - px) * (px - px) + (py - py) * (py - py) + (pz - pz) * (pz - pz))%R
    with 0%R by ring.
  replace (px - px)%R with 0%R by ring.
  replace (py - py)%R with 0%R by ring.
  replace (pz - pz)%R with 0%R by ring.
  rewrite NumberFacts.sqrt_Fin by lra. rewrite sqrt_0.
  rewrite !div_zero_twice_mul_zero.
  rewrite !NumberFacts.add_NaN_r. reflexivity.
Qed.

#[local] Arguments attract : simpl never.

(** Later iterations keep them [NaN]. *)
Lemma attract_NaN positions masses (i j : nat) :
  attractors_loaded ATTRACTOR_COUNT u -> (j < ATTRACTOR_COUNT)%nat ->
  attract u positions masses i j (NaN, NaN, NaN) = Some (NaN, NaN, NaN).
Proof.
  intros [Hp Ha] Hj. unfold attract.
  destruct (lookup_lt_is_Some_2 (attractorPositions u) j ltac:(lia)) as [aP ->].
  destruct (lookup_lt_is_Some_2 (attractorRotationAxes u) j ltac:(lia)) as [aR ->].
  reflexivity.
Qed.

Lemma forces_coincident positions masses (i j : nat) aP (p : V3.t) :
  attractors_loaded ATTRACTOR_COUNT u ->
  (j < ATTRACTOR_COUNT)%nat ->
  attractorPositions u !! j = Some aP ->
  V3.of_Vector3 aP = p ->
  read3 positions (i * 3) = fin3 p ->
  forces ATTRACTOR_COUNT u positions masses i = Some (NaN, NaN, NaN).
Proof.
  intros Hu Hj HaP Heq Hp. unfold forces.
  assert (Hnan : forall count start, (start + count <= ATTRACTOR_COUNT)%nat ->
    for_ start count (fun j f => f ≫= attract u positions masses i j)
      (Some (NaN, NaN, NaN)) = Some (NaN, NaN, NaN)).
  { induction count as [| k IH]; intros start Hk; simpl; [reflexivity |].
    rewrite attract_NaN by (assumption || lia). apply IH. lia. }
  assert (H : forall count start f,
    (start <= j < start + count)%nat -> (start + count <= ATTRACTOR_COUNT)%nat ->
    for_ start count (fun j f => f ≫= attract u positions masses i j) (Some f)
    = Some (NaN, NaN, NaN)).
  { induction count as [| k IH]; intros start f Hin Hk; simpl; [lia |].
    destruct (decide (start = j)) as [-> | Hne].
    - destruct Hu as [Hlp Hla].
      destruct (lookup_lt_is_Some_2 (attractorRotationAxes u) j ltac:(lia)) as [aR HaR].
      rewrite (attract_coincident positions masses i j aP aR p f HaP HaR Hp Heq).
      apply Hnan. lia.
    - destruct (attract_is_Some positions masses i start f Hu ltac:(lia)) as [f' ->].
      apply IH; lia. }
  apply H; lia.
Qed.

(** A [NaN] force makes the velocity and the position [NaN]. *)
Lemma new_velocity_NaN (v : vec) : new_velocity u (NaN, NaN, NaN) v = (NaN, NaN, NaN).
Proof.
  destruct v as [[vx vy] vz].
  unfold new_velocity, Step.integrate_velocity, Step.scale, Step.add.
  rewrite !NumberFacts.mul_NaN_l, !NumberFacts.add_NaN_r.
  reflexivity.
Qed.

Lemma position_NaN (p : vec) : Step.position u (NaN, NaN, NaN) p = (NaN, NaN, NaN).
Proof.
  destruct p as [[px py] pz].
  unfold Step.position, Step.integrate_position, Step.scale, Step.add, Step.wrap.
  rewrite !NumberFacts.mul_NaN_l, !NumberFacts.add_NaN_r.
  reflexivity.
Qed.

(** ** No gravity *)


(** ** The step on one particle *)

Lemma particle_is_reads g (i : nat) (p v : V3.t) (m : R) :
  particle_is g i p v m ->
  read3 (position g) (i * 3) = fin3 p /\ (particleMass g).[i] = Fin m.
Proof.
  intros (Hp & _ & Hm). split; [now apply lookup3_read3 | now apply get_lookup].
Qed.

(** The step on a finite particle that is at the position of no
    attractor: it does not throw, and the particle gets the velocity and
    the position of the loop body under the net force of the
    specification. *)
Lemma updateParticles_finite g (i : nat) (p v : V3.t) (m : R) :
  attractors_loaded ATTRACTOR_COUNT u ->
  (i < PARTICLE_COUNT)%nat ->
  particle_is g i p v m ->
  apart ATTRACTOR_COUNT u p ->
  let v' := new_velocity u (fin3 (net_force ATTRACTOR_COUNT u m p)) (fin3 v) in
  exists g',
    updateParticles PARTICLE_COUNT ATTRACTOR_COUNT u g = Some g'
    /\ lookup3 (velocity g') (i * 3) = Some v'
    /\ lookup3 (position g') (i * 3) = Some (Step.position u v' (fin3 p)).
Proof.
  intros Hu Hi Hg Hapart v'.
  destruct (particle_is_reads _ _ _ _ _ Hg) as [Hrp Hrm].
  destruct Hg as (Hp & Hv & Hm).
  destruct (updateParticles_particle i g (fin3 p) (fin3 v)
              (fin3 (net_force ATTRACTOR_COUNT u m p)) Hu Hi Hp Hv)
    as (g' & Hg' & _ & H1 & H2).
  { now apply forces_finite. }
  exists g'. auto.
Qed.


(** ** The claims *)



(** C4: for a particle with a finite state whose position differs from
    the position of every attractor, the force accumulated by the loop
    over the attractors is the sum over the attractors of the gravity
    term [(g / dist) * (attractorPos - particlePos)] and of the spin term
    [(g * spinningStrength) * (rotationAxis x (attractorPos -
    particlePos))], with [g = attractorMass * particleMass *
    gravityConstant / distSq]; it is the force the step integrates. *)
Theorem net_force_formula g (i : nat) (p v : V3.t) (m : R) :
  attractors_loaded ATTRACTOR_COUNT u ->
  (i < PARTICLE_COUNT)%nat ->
  particle_is g i p v m ->
  apart ATTRACTOR_COUNT u p ->
  forces ATTRACTOR_COUNT u (position g) (particleMass g) i
  = Some (fin3 (net_force ATTRACTOR_COUNT u m p))
  /\ exists g',
       updateParticles PARTICLE_COUNT ATTRACTOR_COUNT u g = Some g'
       /\ lookup3 (velocity g') (i * 3)
          = Some (new_velocity u (fin3 (net_force ATTRACTOR_COUNT u m p)) (fin3 v)).
Proof.
  intros Hu Hi Hg Hapart. split.
  - destruct (particle_is_reads _ _ _ _ _ Hg) as [Hrp Hrm]. now apply forces_finite.
  - destruct (updateParticles_finite g i p v m Hu Hi Hg Hapart) as (g' & Hg' & Hv' & _).
    exists g'. auto.
Qed.



(** C2, as amended: if the position of a particle is the position of an
    attractor, the step raises no error, and it writes [NaN] into the
    three velocity components and the three position components of that
    particle. *)
Theorem coincident_particle_becomes_NaN g (i j : nat) aP (v : vec) :
  attractors_loaded ATTRACTOR_COUNT u ->
  (i < PARTICLE_COUNT)%nat ->
  (j < ATTRACTOR_COUNT)%nat ->
  attractorPositions u !! j = Some aP ->
  lookup3 (position g) (i * 3) = Some (fin3 (V3.of_Vector3 aP)) ->
  lookup3 (velocity g) (i * 3) = Some v ->
  exists g',
    updateParticles PARTICLE_COUNT ATTRACTOR_COUNT u g = Some g'
    /\ lookup3 (velocity g') (i * 3) = Some (NaN, NaN, NaN)
    /\ lookup3 (position g') (i * 3) = Some (NaN, NaN, NaN).
Proof.
  intros Hu Hi Hj HaP Hp Hv.
  assert (Hf : forces ATTRACTOR_COUNT u (position g) (particleMass g) i
               = Some (NaN, NaN, NaN)).
  { apply (forces_coincident _ _ i j aP (V3.of_Vector3 aP)); auto.
    now apply lookup3_read3. }
  destruct (updateParticles_particle i g _ v _ Hu Hi Hp Hv Hf)
    as (g' & Hg' & _ & H1 & H2).
  rewrite new_velocity_NaN in H1, H2. rewrite position_NaN in H2.
  exists g'. auto.
Qed.

(** C9: the step leaves the mass buffer unchanged. *)
Theorem masses_unchanged g :
  attractors_loaded ATTRACTOR_COUNT u ->
  exists g',
    updateParticles PARTICLE_COUNT ATTRACTOR_COUNT u g = Some g'
    /\ particleMass g' = particleMass g.
Proof.
  intros Hu.
  destruct (particles_loop PARTICLE_COUNT Hu 0 g) as (g' & Hg' & Hm & _).
  exists g'. split; [exact Hg' | exact Hm].
Qed.

End Loops.

(** ** The script's constants and the scenarios *)

Ltac apart_tac :=
  let j := fresh "j" in
  let a := fresh "a" in
  let Hj := fresh "Hj" in
  let Ha := fresh "Ha" in
  intros j a Hj Ha;
  repeat (destruct j as [| j];
          [ simpl in Ha; injection Ha as <-; unfold V3.of_Vector3; simpl;
            intros [=]; lra | ]);
  simpl in Hj; lia.

Lemma script_attractors_loaded : attractors_loaded 3 script_uniforms.
Proof. split; simpl; lia. Qed.


(** ** A bound on the force far from the attractors *)

Lemma product_bound (a b A B : R) :
  (- A <= a <= A)%R -> (- B <= b <= B)%R -> (- (A * B) <= a * b <= A * B)%R.
Proof. intros Ha Hb. split; nra. Qed.

(** The two terms of one attractor, for a particle at a distance of at
    least [D0] whose displacement has components of at most [D1], and a
    rotation axis with components of at most [1]. *)
Lemma attractor_terms_bound (u : Uniforms) (m : R) (a axis p : V3.t) (D0 D1 : R) :
  (0 < D0)%R ->
  (D0 * D0 <= V3.normSq (V3.sub a p))%R ->
  (let '(dx, dy, dz) := V3.sub a p in
   (- D1 <= dx <= D1)%R /\ (- D1 <= dy <= D1)%R /\ (- D1 <= dz <= D1)%R) ->
  (let '(rx, ry, rz) := axis in
   (- 1 <= rx <= 1)%R /\ (- 1 <= ry <= 1)%R /\ (- 1 <= rz <= 1)%R) ->
  (0 <= attractorMass u * m * gravityConstant u)%R ->
  (0 <= spinningStrength u)%R ->
  let B := (attractorMass u * m * gravityConstant u / (D0 * D0)
            * (1 + 2 * spinningStrength u * D1))%R in
  let '(tx, ty, tz) := V3.add (gravity_term u m a p) (spin_term u m a axis p) in
  (- B <= tx <= B)%R /\ (- B <= ty <= B)%R /\ (- B <= tz <= B)%R.
Proof.
  intros HD0 Hs Hd Hr HK Hspin B.
  unfold gravity_term, spin_term, gravity_strength, V3.norm in *.
  destruct (V3.sub a p) as [[dx dy] dz], axis as [[rx ry] rz].
  destruct Hd as (Hdx & Hdy & Hdz), Hr as (Hrx & Hry & Hrz).
  simpl in Hs. simpl.
  set (s := (dx * dx + dy * dy + dz * dz)%R) in *.
  set (K := (attractorMass u * m * gravityConstant u)%R) in *.
  assert (Hspos : (0 < s)%R) by nra.
  assert (Hdist : (0 < R_sqrt.sqrt s)%R) by (apply sqrt_lt_R0; exact Hspos).
  assert (Hdd : (R_sqrt.sqrt s * R_sqrt.sqrt s = s)%R) by (apply sqrt_sqrt; lra).
  set (dist := R_sqrt.sqrt s) in *.
  assert (HD1 : (0 <= D1)%R) by lra.
  set (g := (K / s)%R).
  assert (Hg0 : (0 <= g)%R).
  { unfold g. apply Rmult_le_pos; [exact HK |]. left. now apply Rinv_0_lt_compat. }
  assert (Hg1 : (g <= K / (D0 * D0))%R).
  { unfold g, Rdiv. apply Rmult_le_compat_l; [exact HK |].
    apply Rinv_le_contravar; nra. }
  set (q := (g / dist)%R).
  assert (Hq0 : (0 <= q)%R).
  { unfold q. apply Rmult_le_pos; [exact Hg0 |]. left. now apply Rinv_0_lt_compat. }
  assert (Hqd : (q * dist = g)%R) by (unfold q; field; lra).
  assert (Hbx : (- dist <= dx <= dist)%R) by (unfold s in Hdd; split; nra).
  assert (Hby : (- dist <= dy <= dist)%R) by (unfold s in Hdd; split; nra).
  assert (Hbz : (- dist <= dz <= dist)%R) by (unfold s in Hdd; split; nra).
  assert (Hgx : (- g <= q * dx <= g)%R) by (rewrite <- Hqd; split; nra).
  assert (Hgy : (- g <= q * dy <= g)%R) by (rewrite <- Hqd; split; nra).
  assert (Hgz : (- g <= q * dz <= g)%R) by (rewrite <- Hqd; split; nra).
  pose proof (product_bound ry dz 1 D1 Hry Hdz) as P1.
  pose proof (product_bound rz dy 1 D1 Hrz Hdy) as P2.
  pose proof (product_bound rz dx 1 D1 Hrz Hdx) as P3.
  pose proof (product_bound rx dz 1 D1 Hrx Hdz) as P4.
  pose proof (product_bound rx dy 1 D1 Hrx Hdy) as P5.
  pose proof (product_bound ry dx 1 D1 Hry Hdx) as P6.
  set (c := (g * spinningStrength u)%R).
  assert (Hc0 : (0 <= c)%R) by (unfold c; nra).
  assert (Hsx : (- (c * (2 * D1)) <= c * (ry * dz - rz * dy) <= c * (2 * D1))%R)
    by (split; nra).
  assert (Hsy : (- (c * (2 * D1)) <= c * (rz * dx - rx * dz) <= c * (2 * D1))%R)
    by (split; nra).
  assert (Hsz : (- (c * (2 * D1)) <= c * (rx * dy - ry * dx) <= c * (2 * D1))%R)
    by (split; nra).
  assert (HB : (g + c * (2 * D1) <= B)%R).
  { unfold B, c. fold K.
    replace (g + g * spinningStrength u * (2 * D1))%R
      with (g * (1 + 2 * spinningStrength u * D1))%R by ring.
    apply Rmult_le_compat_r; [nra | exact Hg1]. }
  repeat split; lra.
Qed.

(** The components of the third rotation axis of the script are at most
    [1] in magnitude. *)
Lemma script_third_axis_bound :
  let '(rx, ry, rz) := V3.of_Vector3 (Vector3.normalize (Vector3.mk 1 0 (-0.5))) in
  (- 1 <= rx <= 1)%R /\ (- 1 <= ry <= 1)%R /\ (- 1 <= rz <= 1)%R.
Proof.
  unfold V3.of_Vector3, Vector3.normalize; simpl.
  set (l := R_sqrt.sqrt (1 * 1 + 0 * 0 + -0.5 * -0.5)).
  assert (Hl : (1 <= l)%R).
  { unfold l. rewrite <- sqrt_1 at 1. apply sqrt_le_1_alt. lra. }
  destruct (Req_dec_T l 0) as [H0 | _]; [lra |].
  assert (Hi : (0 < / l <= 1)%R).
  { split; [apply Rinv_0_lt_compat; lra |].
    apply Rle_trans with (/ 1)%R; [apply Rinv_le_contravar; lra | rewrite Rinv_1; lra]. }
  unfold Rdiv. repeat split; nra.
Qed.

(** The net force of the three attractors of the script, term by term. *)
Lemma script_net_force_unfold (m : R) (p : V3.t) :
  net_force 3 script_uniforms m p
  = V3.add
      (V3.add (gravity_term script_uniforms m (-0.5, 0.5, 0)%R p)
              (spin_term script_uniforms m (-0.5, 0.5, 0)%R (0, 1, 0)%R p))
      (V3.add
         (V3.add (gravity_term script_uniforms m (0.5, 0, -0.5)%R p)
                 (spin_term script_uniforms m (0.5, 0, -0.5)%R (0, 1, 0)%R p))
         (V3.add
            (V3.add (gravity_term script_uniforms m (0, -0.5, 0.5)%R p)
                    (spin_term script_uniforms m (0, -0.5, 0.5)%R
                       (V3.of_Vector3 (Vector3.normalize (Vector3.mk 1 0 (-0.5)))) p))
            V3.zero)).
Proof. reflexivity. Qed.

(** With the script's uniforms, the force on a particle of mass [2500] at
    [(-7.999, 0, 0)], more than [7] away from every attractor, has
    components of at most [8]. *)
Lemma script_net_force_bound :
  let '(fx, fy, fz) := net_force 3 script_uniforms 2500 (-7.999, 0, 0)%R in
  (- 8 <= fx <= 8)%R /\ (- 8 <= fy <= 8)%R /\ (- 8 <= fz <= 8)%R.
Proof.
  rewrite script_net_force_unfold.
  pose proof (attractor_terms_bound script_uniforms 2500 (-0.5, 0.5, 0)%R (0, 1, 0)%R
                (-7.999, 0, 0)%R 7 9) as T0.
  pose proof (attractor_terms_bound script_uniforms 2500 (0.5, 0, -0.5)%R (0, 1, 0)%R
                (-7.999, 0, 0)%R 7 9) as T1.
  pose proof (attractor_terms_bound script_uniforms 2500 (0, -0.5, 0.5)%R
                (V3.of_Vector3 (Vector3.normalize (Vector3.mk 1 0 (-0.5))))
                (-7.999, 0, 0)%R 7 9) as T2.
  pose proof script_third_axis_bound as Haxis.
  destruct (V3.of_Vector3 (Vector3.normalize (Vector3.mk 1 0 (-0.5)))) as [[rx ry] rz].
  specialize (T0 ltac:(lra) ltac:(simpl; lra) ltac:(simpl; lra) ltac:(simpl; lra)
                 ltac:(simpl; lra) ltac:(simpl; lra)).
  specialize (T1 ltac:(lra) ltac:(simpl; lra) ltac:(simpl; lra) ltac:(simpl; lra)
                 ltac:(simpl; lra) ltac:(simpl; lra)).
  specialize (T2 ltac:(lra) ltac:(simpl; lra) ltac:(simpl; lra) Haxis
                 ltac:(simpl; lra) ltac:(simpl; lra)).
  cbn zeta in T0, T1, T2.
  destruct (V3.add (gravity_term _ _ (-0.5, 0.5, 0)%R _) _) as [[x0 y0] z0].
  destruct (V3.add (gravity_term _ _ (0.5, 0, -0.5)%R _) _) as [[x1 y1] z1].
  destruct (V3.add (gravity_term _ _ (0, -0.5, 0.5)%R _) _) as [[x2 y2] z2].
  simpl in *. lra.
Qed.

(** ** [createParticles] and [resetParticles] *)

Section Sampling.

Variable PARTICLE_COUNT : nat.
Variable random : nat -> R.
Variable u : Uniforms.

Lemma create_particle_eq (i : nat) g (calls : nat) :
  create_particle random u i (g, calls)
  = ({| position := write3 (i * 3) (sampled_position random calls) (position g);
        velocity := write3 (i * 3) (sampled_velocity random calls) (velocity g);
        particleMass := <[i := sampled_mass random u calls]> (particleMass g) |},
     (6 + calls)%nat).
Proof. reflexivity. Qed.

Lemma reset_particle_eq (i : nat) (s : Geometry * nat) :
  reset_particle random u i s = create_particle random u i s.
Proof. reflexivity. Qed.

(** The loop of [createParticles] over the particles [start], ...,
    [start + count - 1], from any arrays. *)
Lemma create_loop count :
  forall start g calls,
  exists g',
    for_ start count (create_particle random u) (g, calls)
    = (g', (6 * count + calls)%nat)
    /\ length (position g') = length (position g)
    /\ length (velocity g') = length (velocity g)
    /\ length (particleMass g') = length (particleMass g)
    /\ (forall j, (j < start * 3 \/ (start + count) * 3 <= j)%nat ->
          position g' !! j = position g !! j /\ velocity g' !! j = velocity g !! j)
    /\ (forall k, (k < start \/ start + count <= k)%nat ->
          particleMass g' !! k = particleMass g !! k)
    /\ (forall i, (start <= i < start + count)%nat ->
          (i * 3 + 2 < length (position g))%nat ->
          (i * 3 + 2 < length (velocity g))%nat ->
          (i < length (particleMass g))%nat ->
          let c := (6 * (i - start) + calls)%nat in
          lookup3 (position g') (i * 3) = Some (sampled_position random c)
          /\ lookup3 (velocity g') (i * 3) = Some (sampled_velocity random c)
          /\ particleMass g' !! i = Some (sampled_mass random u c)).
Proof.
  induction count as [| k IH]; intros start g calls.
  { exists g. split_and!; try reflexivity.
    - intros j _. split; reflexivity.
    - intros i Hi. lia. }
  cbn [for_]. rewrite create_particle_eq.
  set (g1 := {| position := _; velocity := _; particleMass := _ |}).
  destruct (IH (S start) g1 (6 + calls)%nat)
    as (g' & Hg' & Hlp & Hlv & Hlm & Hout & Houtm & Hin).
  exists g'. split.
  { rewrite Hg'. f_equal. lia. }
  split; [rewrite Hlp; apply length_write3 |].
  split; [rewrite Hlv; apply length_write3 |].
  split; [rewrite Hlm; apply length_insert |].
  split.
  { intros j Hj. destruct (Hout j ltac:(lia)) as [-> ->].
    unfold g1; cbn [position velocity particleMass]. rewrite !lookup_write3_ne by lia. auto. }
  split.
  { intros k' Hk'. rewrite (Houtm k') by lia.
    unfold g1; cbn [position velocity particleMass]. apply list_lookup_insert_ne. lia. }
  intros i Hi Hp Hv Hm.
  destruct (decide (i = start)) as [-> | Hne].
  - replace (6 * (start - start) + calls)%nat with calls by lia.
    destruct (read3_lookup_eq (position g1) (position g') (start * 3)) as [_ ->].
    { intros j Hj. apply Hout. lia. }
    destruct (read3_lookup_eq (velocity g1) (velocity g') (start * 3)) as [_ ->].
    { intros j Hj. apply Hout. lia. }
    rewrite (Houtm start) by lia.
    unfold g1; cbn [position velocity particleMass]. split_and!.
    + now apply lookup3_write3.
    + now apply lookup3_write3.
    + now apply list_lookup_insert_eq.
  - replace (6 * (i - start) + calls)%nat
      with (6 * (i - S start) + (6 + calls))%nat by lia.
    apply Hin; unfold g1; cbn [position velocity particleMass]; rewrite ?length_write3, ?length_insert; lia.
Qed.

(** Two arrays of [n * 3] numbers that agree on the three entries of
    each of [n] particles are equal. *)
Lemma buffers_eq (n : nat) (a b : list number) :
  length a = (n * 3)%nat -> length b = (n * 3)%nat ->
  (forall i, (i < n)%nat -> lookup3 a (i * 3) = lookup3 b (i * 3)) ->
  a = b.
Proof.
  intros Ha Hb H. apply list_eq. intros j.
  destruct (decide (j < n * 3)%nat) as [Hj | Hj].
  2: { rewrite !lookup_ge_None_2 by lia. reflexivity. }
  assert (Hqr : exists q r, (q < n)%nat /\ (r < 3)%nat /\ j = (q * 3 + r)%nat).
  { exists (j / 3)%nat, (j mod 3)%nat.
    pose proof (Nat.div_mod_eq j 3) as Hdm.
    pose proof (Nat.mod_upper_bound j 3 ltac:(lia)) as Hmod.
    split; [apply Nat.Div0.div_lt_upper_bound; lia | lia]. }
  destruct Hqr as (q & r & Hq & Hr & ->).
  specialize (H q Hq).
  pose proof (read3_lookup3 a (q * 3) ltac:(lia)) as Ha3.
  destruct (read3 a (q * 3)) as [[x y] z].
  pose proof Ha3 as Hb3. rewrite H in Hb3.
  apply lookup3_Some in Ha3 as (A0 & A1 & A2).
  apply lookup3_Some in Hb3 as (B0 & B1 & B2).
  destruct r as [| [| [| r]]]; rewrite ?Nat.add_0_r; [congruence .. | lia].
Qed.



End Sampling.

(** With the draws [draws_onto_attractor], [createParticles] puts the first
    particle at [(0.5, 0, -0.5)], the position of the second attractor of
    the script. *)
Lemma created_on_attractor_particle (u : Uniforms) :
  let phi := (0.5 * PI * 2)%R in
  let theta := (0.5 * PI)%R in
  particle_is (created_on_attractor u) 0 (0.5, 0, -0.5)%R
    (0.05 * sin phi * sin theta, 0.05 * cos phi, 0.05 * sin phi * cos theta)%R
    ((0.5 * 0.75 + 0.25) * particleGlobalMass u)%R.
Proof.
  intros phi theta. unfold created_on_attractor, createParticles.
  destruct (create_loop draws_onto_attractor u 1000 0
              {| position := replicate (1000 * 3) (Fin 0);
                 velocity := replicate (1000 * 3) (Fin 0);
                 particleMass := replicate 1000 (Fin 0) |} 0)
    as (g' & -> & _ & _ & _ & _ & _ & Hin).
  destruct (Hin 0%nat ltac:(lia)) as (Hp & Hv & Hm);
    cbn [position velocity particleMass]; rewrite ?length_replicate; try lia.
  cbn [fst]. split; [| split].
  - rewrite Hp. unfold sampled_position.
    rewrite !NumberFacts.sub_Fin, !NumberFacts.mul_Fin. fin3_eq; simpl; lra.
  - rewrite Hv. reflexivity.
  - rewrite Hm. reflexivity.
Qed.

Lemma draws_onto_attractor_range (k : nat) : (0 <= draws_onto_attractor k < 1)%R.
Proof. destruct k as [| [| [| k]]]; simpl; lra. Qed.

(** ** The aligned scenario *)





(** ** The box loop at the negative faces *)

(** C1 fails on the code: with the script's constants, attractors and
    uniforms, a particle of mass [2500] at [(-7.999, 0, 0)] that moves with
    the velocity [(-0.6, 0, 0)] leaves the box through the face [x = -8],
    and the box loop leaves it outside, below [-boundHalfExtent]: the
    remainder [%] of a negative dividend is negative, so that nothing is
    added back. *)
Theorem box_loop_leaves_box (g : Geometry) :
  particle_is g 0 (-7.999, 0, 0)%R (-0.6, 0, 0)%R 2500 ->
  (0 < boundHalfExtent script_uniforms)%R
  /\ exists g' (x y z : R),
       updateParticles 1000 3 script_uniforms g = Some g'
       /\ lookup3 (position g') 0 = Some (Fin x, Fin y, Fin z)
       /\ (x < - boundHalfExtent script_uniforms)%R
       /\ ~ inside_box g' 0 (boundHalfExtent script_uniforms).
Proof.
  intros Hg. split; [simpl; lra |].
  assert (Hapart : apart 3 script_uniforms (-7.999, 0, 0)%R) by apart_tac.
  destruct (updateParticles_finite 1000 3 script_uniforms g 0 _ _ _
              script_attractors_loaded ltac:(lia) Hg Hapart) as (g' & Hg' & _ & Hp').
  change (0 * 3)%nat with 0%nat in Hp'.
  pose proof script_net_force_bound as HF.
  destruct (net_force 3 script_uniforms 2500 (-7.999, 0, 0)%R) as [[fx fy] fz].
  destruct HF as (Hfx & Hfy & Hfz).
  unfold new_velocity, Step.position in Hp'.
  cbn [maxSpeed velocityDamping timeScale boundHalfExtent script_uniforms] in Hp'.
  rewrite integrate_velocity_finite in Hp'.
  rewrite speed_limit_within in Hp' by (simpl; nra).
  rewrite damp_finite, integrate_position_finite in Hp'. simpl in Hp'.
  rewrite (wrap1_just_below 8) in Hp' by lra.
  rewrite !(wrap1_in_box 8) in Hp' by lra.
  eexists g', _, _, _. split; [exact Hg' |]. split; [exact Hp' |].
  simpl. split; [lra |].
  intros (x & y & z & Hl & Hx & _).
  change (0 * 3)%nat with 0%nat in Hl. rewrite Hp' in Hl.
  injection Hl as <- _ _. lra.
Qed.

Lemma box_loop_leaves_box_witness :
  let g := geometry_of 999 (-7.999, 0, 0)%R (-0.6, 0, 0)%R 2500 in
  particle_is g 0 (-7.999, 0, 0)%R (-0.6, 0, 0)%R 2500
  /\ (0 < boundHalfExtent script_uniforms)%R
  /\ exists g' (x y z : R),
       updateParticles 1000 3 script_uniforms g = Some g'
       /\ lookup3 (position g') 0 = Some (Fin x, Fin y, Fin z)
       /\ (x < - boundHalfExtent script_uniforms)%R
       /\ ~ inside_box g' 0 (boundHalfExtent script_uniforms).
Proof.
  intros g.
  assert (H : particle_is g 0 (-7.999, 0, 0)%R (-0.6, 0, 0)%R 2500)
    by (repeat split; reflexivity).
  split; [exact H |]. exact (box_loop_leaves_box g H).
Defined.

(** ** A particle on an attractor *)

(** The step that follows [createParticles] when the draws put the first
    particle on the second attractor of the script. *)
Lemma step_on_attractor (u : Uniforms) :
  attractorPositions u = script_attractorPositions ->
  attractorRotationAxes u = script_attractorRotationAxes ->
  exists g',
    updateParticles 1000 3 u (created_on_attractor u) = Some g'
    /\ lookup3 (velocity g') 0 = Some (NaN, NaN, NaN)
    /\ lookup3 (position g') 0 = Some (NaN, NaN, NaN).
Proof.
  intros HaP HaR.
  destruct (created_on_attractor_particle u) as (Hp & Hv & _).
  assert (Hu : attractors_loaded 3 u) by (split; rewrite ?HaP, ?HaR; simpl; lia).
  assert (Hf : forces 3 u (position (created_on_attractor u))
                 (particleMass (created_on_attractor u)) 0 = Some (NaN, NaN, NaN)).
  { apply (forces_coincident 3 u _ _ 0 1 (Vector3.mk 0.5 0 (-0.5)) (0.5, 0, -0.5)%R).
    - exact Hu.
    - lia.
    - rewrite HaP. reflexivity.
    - reflexivity.
    - now apply lookup3_read3. }
  destruct (updateParticles_particle 1000 3 u 0 _ _ _ _ Hu ltac:(lia) Hp Hv Hf)
    as (g' & Hg' & _ & H1 & H2).
  rewrite new_velocity_NaN in H1, H2. rewrite position_NaN in H2.
  exists g'. auto.
Qed.

(** C2 fails as stated: with the script's constants, attractors and
    uniforms, and draws in [[0, 1)] that make [createParticles] put the
    first particle on the second attractor, the first step does not add a
    zero force for that attractor: it writes [NaN] into the three velocity
    components and the three position components of the particle. *)
Lemma coincident_particle_gets_NaN :
  (forall k, (0 <= draws_onto_attractor k < 1)%R)
  /\ exists g',
       updateParticles 1000 3 script_uniforms (created_on_attractor script_uniforms)
       = Some g'
       /\ lookup3 (velocity g') 0 = Some (NaN, NaN, NaN)
       /\ lookup3 (position g') 0 = Some (NaN, NaN, NaN).
Proof.
  split; [exact draws_onto_attractor_range |].
  now apply step_on_attractor.
Qed.





(** ** The theorems at concrete inputs *)



Lemma net_force_formula_witness :
  let g := geometry_of 999 (1, 0.05, -2)%R (0.05, 0, 0)%R 1e4 in
  let f := fin3 (net_force 3 script_uniforms 1e4 (1, 0.05, -2)%R) in
  attractors_loaded 3 script_uniforms
  /\ (0 < 1000)%nat
  /\ particle_is g 0 (1, 0.05, -2)%R (0.05, 0, 0)%R 1e4
  /\ apart 3 script_uniforms (1, 0.05, -2)%R
  /\ forces 3 script_uniforms (position g) (particleMass g) 0 = Some f
  /\ exists g',
       updateParticles 1000 3 script_uniforms g = Some g'
       /\ lookup3 (velocity g') (0 * 3)
          = Some (new_velocity script_uniforms f (fin3 (0.05, 0, 0)%R)).
Proof.
  intros g f.
  assert (H1 : attractors_loaded 3 script_uniforms) by (split; simpl; lia).
  assert (H2 : (0 < 1000)%nat) by lia.
  assert (H3 : particle_is g 0 (1, 0.05, -2)%R (0.05, 0, 0)%R 1e4)
    by (repeat split; reflexivity).
  assert (H4 : apart 3 script_uniforms (1, 0.05, -2)%R) by apart_tac.
  repeat (split; [assumption |]).
  exact (net_force_formula 1000 3 script_uniforms g 0 _ _ _ H1 H2 H3 H4).
Defined.



(** A particle at rest on the second attractor of the script. *)
Lemma coincident_particle_becomes_NaN_witness :
  let g := geometry_of 999 (0.5, 0, -0.5)%R (0, 0, 0)%R 1e4 in
  let aP := Vector3.mk 0.5 0 (-0.5) in
  attractors_loaded 3 script_uniforms
  /\ (0 < 1000)%nat
  /\ (1 < 3)%nat
  /\ attractorPositions script_uniforms !! 1%nat = Some aP
  /\ lookup3 (position g) (0 * 3) = Some (fin3 (V3.of_Vector3 aP))
  /\ lookup3 (velocity g) (0 * 3) = Some (fin3 (0, 0, 0)%R)
  /\ exists g',
       updateParticles 1000 3 script_uniforms g = Some g'
       /\ lookup3 (velocity g') (0 * 3) = Some (NaN, NaN, NaN)
       /\ lookup3 (position g') (0 * 3) = Some (NaN, NaN, NaN).
Proof.
  intros g aP.
  assert (H1 : attractors_loaded 3 script_uniforms) by (split; simpl; lia).
  assert (H2 : (0 < 1000)%nat) by lia.
  assert (H3 : (1 < 3)%nat) by lia.
  assert (H4 : attractorPositions script_uniforms !! 1%nat = Some aP) by reflexivity.
  assert (H5 : lookup3 (position g) (0 * 3) = Some (fin3 (V3.of_Vector3 aP)))
    by reflexivity.
  assert (H6 : lookup3 (velocity g) (0 * 3) = Some (fin3 (0, 0, 0)%R)) by reflexivity.
  repeat (split; [assumption |]).
  exact (coincident_particle_becomes_NaN 1000 3 script_uniforms g 0 1 aP _
           H1 H2 H3 H4 H5 H6).
Defined.

Lemma masses_unchanged_witness :
  let g := geometry_of 999 (1, 0.05, -2)%R (0.05, 0, 0)%R 1e4 in
  attractors_loaded 3 script_uniforms
  /\ exists g',
       updateParticles 1000 3 script_uniforms g = Some g'
       /\ particleMass g' = particleMass g.
Proof.
  intros g.
  assert (H1 : attractors_loaded 3 script_uniforms) by (split; simpl; lia).
  split; [assumption |].
  exact (masses_unchanged 1000 3 script_uniforms g H1).
Defined.



(** * Further properties of the script *)

(** ** When [updateParticles] throws *)

Lemma for_thrown {St : Type} (body : nat -> St -> option St) count :
  forall start, for_ start count (fun i s => s ≫= body i) None = None.
Proof. induction count as [| k IH]; intros start; simpl; [reflexivity | apply IH]. Qed.

Lemma attract_None (u : Uniforms) positions masses (i j : nat) f :
  attractorPositions u !! j = None \/ attractorRotationAxes u !! j = None ->
  attract u positions masses i j f = None.
Proof.
  intros H. unfold attract. destruct f as [[fx fy] fz].
  destruct (attractorPositions u !! j) as [aP |]; simpl; [| reflexivity].
  destruct (attractorRotationAxes u !! j) as [aR |]; simpl; [| reflexivity].
  destruct H as [H | H]; discriminate.
Qed.

Lemma forces_None (n : nat) (u : Uniforms) positions masses (i : nat) :
  ~ attractors_loaded n u -> forces n u positions masses i = None.
Proof.
  intros Hu. unfold forces.
  assert (Hj : exists j, (j < n)%nat
            /\ (attractorPositions u !! j = None \/ attractorRotationAxes u !! j = None)).
  { destruct (le_lt_dec n (length (attractorPositions u))) as [Hp | Hp].
    - destruct (le_lt_dec n (length (attractorRotationAxes u))) as [Ha | Ha].
      + exfalso. apply Hu. split; assumption.
      + exists (length (attractorRotationAxes u)). split; [lia |].
        right. apply lookup_ge_None_2. lia.
    - exists (length (attractorPositions u)). split; [lia |].
      left. apply lookup_ge_None_2. lia. }
  destruct Hj as (j & Hj & Hnone).
  assert (H : forall count start f, (start <= j < start + count)%nat ->
            for_ start count (fun j f => f ≫= attract u positions masses i j) (Some f)
            = None).
  { induction count as [| k IH]; intros start f Hin; simpl; [lia |].
    destruct (decide (start = j)) as [-> | Hne].
    - rewrite attract_None by exact Hnone. apply for_thrown.
    - destruct (attract u positions masses i start f) as [f' |]; simpl.
      + apply IH. lia.
      + apply for_thrown. }
  apply H. lia.
Qed.

Lemma updateParticles_thrown (N n : nat) (u : Uniforms) (g : Geometry) :
  (0 < N)%nat -> ~ attractors_loaded n u -> updateParticles N n u g = None.
Proof.
  intros HN Hu. unfold updateParticles.
  destruct N as [| k]; [lia |]. simpl.
  unfold particle at 2. rewrite forces_None by exact Hu. simpl.
  apply for_thrown.
Qed.

(** A step that returns had its attractors. *)
Lemma updateParticles_Some_loaded (N n : nat) (u : Uniforms) (g g' : Geometry) :
  (0 < N)%nat -> updateParticles N n u g = Some g' -> attractors_loaded n u.
Proof.
  intros HN Hg'.
  destruct (le_lt_dec n (length (attractorPositions u))) as [Hp | Hp];
    [destruct (le_lt_dec n (length (attractorRotationAxes u))) as [Ha | Ha] |].
  - split; assumption.
  - rewrite updateParticles_thrown in Hg'; [discriminate | exact HN |].
    intros [_ H]. lia.
  - rewrite updateParticles_thrown in Hg'; [discriminate | exact HN |].
    intros [H _]. lia.
Qed.

(** X1: [updateParticles] throws exactly when there is a particle to update
    and one of the two attractor arrays holds fewer than [ATTRACTOR_COUNT]
    entries; no arithmetic makes it throw. *)
Theorem updateParticles_throws_iff (PARTICLE_COUNT ATTRACTOR_COUNT : nat)
    (u : Uniforms) (g : Geometry) :
  updateParticles PARTICLE_COUNT ATTRACTOR_COUNT u g = None
  <-> (0 < PARTICLE_COUNT)%nat /\ ~ attractors_loaded ATTRACTOR_COUNT u.
Proof.
  split.
  - intros Hnone. split.
    + destruct PARTICLE_COUNT as [| k]; [discriminate | lia].
    + intros Hu.
      destruct (particles_loop ATTRACTOR_COUNT u PARTICLE_COUNT Hu 0 g) as (g' & Hg' & _).
      unfold updateParticles in Hnone. congruence.
  - intros [HN Hu]. now apply updateParticles_thrown.
Qed.

(** ** What a step leaves alone, and what a particle depends on *)

Lemma updateParticles_loop_facts (N n : nat) (u : Uniforms) (g g' : Geometry) :
  updateParticles N n u g = Some g' ->
  particleMass g' = particleMass g
  /\ length (position g') = length (position g)
  /\ length (velocity g') = length (velocity g)
  /\ (forall j, (N * 3 <= j)%nat ->
        position g' !! j = position g !! j /\ velocity g' !! j = velocity g !! j).
Proof.
  intros Hg'. destruct N as [| k].
  - injection Hg' as <-. auto.
  - pose proof (updateParticles_Some_loaded (S k) n u g g' ltac:(lia) Hg') as Hu.
    destruct (particles_loop n u (S k) Hu 0 g) as (g'' & Hg'' & Hm & Hlp & Hlv & Hout & _).
    unfold updateParticles in Hg'. rewrite Hg'' in Hg'. injection Hg' as <-.
    split; [exact Hm |]. split; [exact Hlp |]. split; [exact Hlv |].
    intros j Hj. apply Hout. lia.
Qed.

(** X2: a step that returns never resizes an array and never assigns beyond
    the entries of the [PARTICLE_COUNT] particles. *)
Theorem step_keeps_buffers (PARTICLE_COUNT ATTRACTOR_COUNT : nat) (u : Uniforms)
    (g g' : Geometry) :
  updateParticles PARTICLE_COUNT ATTRACTOR_COUNT u g = Some g' ->
  length (position g') = length (position g)
  /\ length (velocity g') = length (velocity g)
  /\ length (particleMass g') = length (particleMass g)
  /\ (forall j, (PARTICLE_COUNT * 3 <= j)%nat ->
        position g' !! j = position g !! j /\ velocity g' !! j = velocity g !! j).
Proof.
  intros Hg'.
  destruct (updateParticles_loop_facts _ _ _ _ _ Hg') as (Hm & Hlp & Hlv & Hout).
  split; [exact Hlp |]. split; [exact Hlv |]. split; [now rewrite Hm | exact Hout].
Qed.

Lemma step_keeps_buffers_witness :
  let g := geometry_of 999 (1, 0.05, -2)%R (0.05, 0, 0)%R 1e4 in
  exists g',
    updateParticles 1000 3 script_uniforms g = Some g'
    /\ length (position g') = length (position g)
    /\ length (velocity g') = length (velocity g)
    /\ length (particleMass g') = length (particleMass g)
    /\ (forall j, (1000 * 3 <= j)%nat ->
          position g' !! j = position g !! j /\ velocity g' !! j = velocity g !! j).
Proof.
  intros g.
  destruct (particles_loop 3 script_uniforms 1000 script_attractors_loaded 0 g)
    as (g' & Hg' & _).
  exists g'. split; [exact Hg' |].
  exact (step_keeps_buffers 1000 3 script_uniforms g g' Hg').
Defined.

(** The step on a particle whose entries exist, when it returns. *)
Lemma updateParticles_Some_particle (N n : nat) (u : Uniforms) (g g' : Geometry)
    (i : nat) (p v : vec) :
  (i < N)%nat ->
  lookup3 (position g) (i * 3) = Some p ->
  lookup3 (velocity g) (i * 3) = Some v ->
  updateParticles N n u g = Some g' ->
  exists f,
    forces n u (position g) (particleMass g) i = Some f
    /\ lookup3 (velocity g') (i * 3) = Some (new_velocity u f v)
    /\ lookup3 (position g') (i * 3) = Some (Step.position u (new_velocity u f v) p).
Proof.
  intros Hi Hp Hv Hg'.
  pose proof (updateParticles_Some_loaded N n u g g' ltac:(lia) Hg') as Hu.
  destruct (forces_is_Some n u (position g) (particleMass g) i Hu) as [f Hf].
  destruct (updateParticles_particle N n u i g p v f Hu Hi Hp Hv Hf)
    as (g'' & Hg'' & _ & H1 & H2).
  rewrite Hg'' in Hg'. injection Hg' as <-. exists f. auto.
Qed.

(** X3: the particles do not interact.  The velocity and the position that
    a step gives a particle depend on the arrays only through the entries
    of that particle: two geometries that agree on them get the same. *)
Theorem particles_are_independent (PARTICLE_COUNT ATTRACTOR_COUNT : nat)
    (u : Uniforms) (g1 g2 g1' g2' : Geometry) (i : nat) (p v : vec) :
  (i < PARTICLE_COUNT)%nat ->
  lookup3 (position g1) (i * 3) = Some p ->
  lookup3 (position g2) (i * 3) = Some p ->
  lookup3 (velocity g1) (i * 3) = Some v ->
  lookup3 (velocity g2) (i * 3) = Some v ->
  particleMass g1 !! i = particleMass g2 !! i ->
  updateParticles PARTICLE_COUNT ATTRACTOR_COUNT u g1 = Some g1' ->
  updateParticles PARTICLE_COUNT ATTRACTOR_COUNT u g2 = Some g2' ->
  lookup3 (velocity g1') (i * 3) = lookup3 (velocity g2') (i * 3)
  /\ lookup3 (position g1') (i * 3) = lookup3 (position g2') (i * 3).
Proof.
  intros Hi Hp1 Hp2 Hv1 Hv2 Hm H1 H2.
  destruct (updateParticles_Some_particle _ _ _ _ _ i p v Hi Hp1 Hv1 H1)
    as (f1 & Hf1 & Hv1' & Hp1').
  destruct (updateParticles_Some_particle _ _ _ _ _ i p v Hi Hp2 Hv2 H2)
    as (f2 & Hf2 & Hv2' & Hp2').
  assert (Hf : f1 = f2).
  { assert (Heq : forces ATTRACTOR_COUNT u (position g1) (particleMass g1) i
                  = forces ATTRACTOR_COUNT u (position g2) (particleMass g2) i).
    { apply forces_ext.
      - now rewrite (lookup3_read3 _ _ _ Hp1), (lookup3_read3 _ _ _ Hp2).
      - unfold get. now rewrite Hm. }
    congruence. }
  subst f2. split; congruence.
Qed.

(** Two geometries of the script's size that share their first particle
    and differ in all the others. *)
Lemma particles_are_independent_witness :
  let g1 := geometry_of 999 (1, 0.05, -2)%R (0.05, 0, 0)%R 1e4 in
  let g2 := {| position := Fin 1 :: Fin 0.05 :: Fin (-2) :: replicate (999 * 3) (Fin 1);
               velocity := Fin 0.05 :: Fin 0 :: Fin 0 :: replicate (999 * 3) (Fin 1);
               particleMass := Fin 1e4 :: replicate 999 (Fin 2500) |} in
  exists g1' g2',
    updateParticles 1000 3 script_uniforms g1 = Some g1'
    /\ updateParticles 1000 3 script_uniforms g2 = Some g2'
    /\ lookup3 (velocity g1') (0 * 3) = lookup3 (velocity g2') (0 * 3)
    /\ lookup3 (position g1') (0 * 3) = lookup3 (position g2') (0 * 3).
Proof.
  intros g1 g2.
  destruct (particles_loop 3 script_uniforms 1000 script_attractors_loaded 0 g1)
    as (g1' & Hg1' & _).
  destruct (particles_loop 3 script_uniforms 1000 script_attractors_loaded 0 g2)
    as (g2' & Hg2' & _).
  exists g1', g2'. split; [exact Hg1' |]. split; [exact Hg2' |].
  exact (particles_are_independent 1000 3 script_uniforms g1 g2 g1' g2' 0
           (fin3 (1, 0.05, -2)%R) (fin3 (0.05, 0, 0)%R)
           ltac:(lia) eq_refl eq_refl eq_refl eq_refl eq_refl Hg1' Hg2').
Defined.

(** ** Finite results *)

Lemma fin3_inj (a b : V3.t) : fin3 a = fin3 b -> a = b.
Proof.
  destruct a as [[ax ay] az], b as [[bx by_] bz]. simpl. now intros [= -> -> ->].
Qed.

(** A product is finite only if both factors are. *)
Lemma mul_Fin_inv (a b : number) (y : R) :
  a * b = Fin y -> exists x c : R, a = Fin x /\ b = Fin c.
Proof.
  destruct a as [x | | |], b as [c | | |]; unfold Number.mul, Number.signed_inf;
    try discriminate;
    repeat destruct (Req_dec_T _ _); repeat destruct (Rlt_dec _ _);
    try discriminate.
  intros _. eauto.
Qed.

Lemma add_Fin_inv (a b : number) (y : R) :
  a + b = Fin y -> exists x c : R, a = Fin x /\ b = Fin c.
Proof.
  destruct a as [x | | |], b as [c | | |]; unfold Number.add; try discriminate.
  intros _. eauto.
Qed.









(** ** The box loop *)













(** ** [NaN] in the buffers *)

Lemma sub_NaN_r (a : number) : a - NaN = NaN.
Proof. destruct a; reflexivity. Qed.

Lemma mul_NaN_r (a : number) : a * NaN = NaN.
Proof. destruct a; reflexivity. Qed.

Lemma add_NaN_l (a : number) : NaN + a = NaN.
Proof. reflexivity. Qed.

Lemma div_NaN_l (a : number) : NaN / a = NaN.
Proof. reflexivity. Qed.

Lemma div_NaN_r (a : number) : a / NaN = NaN.
Proof. destruct a; reflexivity. Qed.

Ltac nan_absorb :=
  repeat first
    [ rewrite sub_NaN_r | rewrite mul_NaN_r | rewrite NumberFacts.mul_NaN_l
    | rewrite add_NaN_l | rewrite NumberFacts.add_NaN_r
    | rewrite div_NaN_l | rewrite div_NaN_r ].

(** An iteration of the loop over the attractors for a particle with a
    [NaN] coordinate turns the three accumulators into [NaN]. *)
Lemma attract_position_NaN (u : Uniforms) positions masses (i j : nat) aP aR f :
  attractorPositions u !! j = Some aP ->
  attractorRotationAxes u !! j = Some aR ->
  has_NaN (read3 positions (i * 3)) ->
  attract u positions masses i j f = Some (NaN, NaN, NaN).
Proof.
  intros HaP HaR Hnan. destruct f as [[fx fy] fz].
  unfold attract. rewrite HaP, HaR. cbn [mbind option_bind].
  unfold has_NaN, read3 in Hnan.
  destruct Hnan as [H | [H | H]]; rewrite H; nan_absorb; reflexivity.
Qed.

Lemma forces_position_NaN (n : nat) (u : Uniforms) positions masses (i : nat) :
  attractors_loaded n u -> (0 < n)%nat ->
  has_NaN (read3 positions (i * 3)) ->
  forces n u positions masses i = Some (NaN, NaN, NaN).
Proof.
  intros Hu Hn Hnan. unfold forces.
  assert (H : forall count start f, (start + S count <= n)%nat ->
    for_ start (S count) (fun j f => f ≫= attract u positions masses i j) (Some f)
    = Some (NaN, NaN, NaN)).
  { induction count as [| k IH]; intros start f Hk.
    - destruct Hu as [Hlp Hla].
      destruct (lookup_lt_is_Some_2 (attractorPositions u) start ltac:(lia)) as [aP HaP].
      destruct (lookup_lt_is_Some_2 (attractorRotationAxes u) start ltac:(lia)) as [aR HaR].
      simpl. now apply (attract_position_NaN u positions masses i start aP aR).
    - pose proof Hu as [Hlp Hla].
      destruct (lookup_lt_is_Some_2 (attractorPositions u) start ltac:(lia)) as [aP HaP].
      destruct (lookup_lt_is_Some_2 (attractorRotationAxes u) start ltac:(lia)) as [aR HaR].
      change (for_ start (S (S k)) ?b ?s) with (for_ (S start) (S k) b (b start s)).
      cbn [mbind option_bind].
      rewrite (attract_position_NaN u positions masses i start aP aR f HaP HaR Hnan).
      apply IH. lia. }
  destruct n as [| k]; [lia |]. apply H. lia.
Qed.

(** X9: a [NaN] coordinate spreads.  When one coordinate of the position of
    a particle is [NaN] and there is at least one attractor, a step leaves
    all the six entries of the particle [NaN], whatever its velocity was and
    whatever the uniforms are. *)
Theorem NaN_coordinate_spreads (PARTICLE_COUNT ATTRACTOR_COUNT : nat)
    (u : Uniforms) (g g' : Geometry) (i : nat) (p v : vec) :
  (i < PARTICLE_COUNT)%nat ->
  (0 < ATTRACTOR_COUNT)%nat ->
  lookup3 (position g) (i * 3) = Some p ->
  lookup3 (velocity g) (i * 3) = Some v ->
  has_NaN p ->
  updateParticles PARTICLE_COUNT ATTRACTOR_COUNT u g = Some g' ->
  lookup3 (velocity g') (i * 3) = Some (NaN, NaN, NaN)
  /\ lookup3 (position g') (i * 3) = Some (NaN, NaN, NaN).
Proof.
  intros Hi Hn Hp Hv Hnan Hg'.
  assert (Hu : attractors_loaded ATTRACTOR_COUNT u)
    by (apply (updateParticles_Some_loaded PARTICLE_COUNT ATTRACTOR_COUNT u g g');
        [lia | exact Hg']).
  destruct (updateParticles_Some_particle _ _ _ _ _ i p v Hi Hp Hv Hg')
    as (f & Hf & Hv' & Hp').
  rewrite forces_position_NaN in Hf;
    [| assumption | assumption | now rewrite (lookup3_read3 _ _ _ Hp)].
  injection Hf as <-.
  rewrite new_velocity_NaN in Hv', Hp'. rewrite position_NaN in Hp'. auto.
Qed.

Lemma NaN_coordinate_spreads_witness :
  let g := {| position := Fin 1 :: NaN :: Fin (-2) :: replicate (999 * 3) (Fin 0);
              velocity := Fin 0.05 :: Fin 0 :: Fin 0 :: replicate (999 * 3) (Fin 0);
              particleMass := replicate 1000 (Fin 1e4) |} in
  exists g',
    (0 < 1000)%nat
    /\ (0 < 3)%nat
    /\ lookup3 (position g) (0 * 3) = Some (Fin 1, NaN, Fin (-2))
    /\ lookup3 (velocity g) (0 * 3) = Some (Fin 0.05, Fin 0, Fin 0)
    /\ has_NaN (Fin 1, NaN, Fin (-2))
    /\ updateParticles 1000 3 script_uniforms g = Some g'
    /\ lookup3 (velocity g') (0 * 3) = Some (NaN, NaN, NaN)
    /\ lookup3 (position g') (0 * 3) = Some (NaN, NaN, NaN).
Proof.
  intros g.
  assert (H1 : (0 < 1000)%nat) by lia.
  assert (H2 : (0 < 3)%nat) by lia.
  assert (H3 : lookup3 (position g) (0 * 3) = Some (Fin 1, NaN, Fin (-2))) by reflexivity.
  assert (H4 : lookup3 (velocity g) (0 * 3) = Some (Fin 0.05, Fin 0, Fin 0)) by reflexivity.
  assert (H5 : has_NaN (Fin 1, NaN, Fin (-2))) by (right; left; reflexivity).
  destruct (particles_loop 3 script_uniforms 1000 script_attractors_loaded 0 g)
    as (g' & Hg' & _).
  exists g'. repeat (split; [assumption |]).
  exact (NaN_coordinate_spreads 1000 3 script_uniforms g g' 0 _ _ H1 H2 H3 H4 H5 Hg').
Defined.

(** ** The frames *)

Lemma updateParticles_None_inv (N n : nat) (u : Uniforms) (g : Geometry) :
  updateParticles N n u g = None -> (0 < N)%nat /\ ~ attractors_loaded n u.
Proof.
  intros Hnone. split.
  - destruct N as [| k]; [discriminate | lia].
  - intros Hu. destruct (particles_loop n u N Hu 0 g) as (g' & Hg' & _).
    unfold updateParticles in Hnone. congruence.
Qed.

(** X10: a sequence of frames throws exactly when there is a particle to
    update and, during one of the frames, an attractor array holds fewer
    than [ATTRACTOR_COUNT] entries. *)
Theorem animate_throws_iff (PARTICLE_COUNT ATTRACTOR_COUNT : nat)
    (frames : list Uniforms) (g : Geometry) :
  animate PARTICLE_COUNT ATTRACTOR_COUNT frames g = None
  <-> (0 < PARTICLE_COUNT)%nat
      /\ Exists (fun u => ~ attractors_loaded ATTRACTOR_COUNT u) frames.
Proof.
  split.
  - revert g. induction frames as [| u frames IH]; intros g; simpl; [discriminate |].
    destruct (updateParticles _ _ u g) as [g1 |] eqn:Hg1; simpl.
    + intros H. destruct (IH g1 H) as [HN Hex]. split; [exact HN |].
      now apply Exists_cons_tl.
    + intros _. destruct (updateParticles_None_inv _ _ _ _ Hg1) as [HN Hu].
      split; [exact HN |]. now apply Exists_cons_hd.
  - intros [HN Hex]. revert g.
    induction Hex as [u frames Hu | u frames Hex IH]; intros g; simpl.
    + now rewrite updateParticles_thrown.
    + destruct (updateParticles _ _ u g) as [g1 |]; simpl; [apply IH | reflexivity].
Qed.

(** X11: the frames never change the masses, the sizes of the three
    buffers, or the entries of the position and velocity buffers beyond the
    first [PARTICLE_COUNT] particles. *)
Theorem animate_keeps_buffers (PARTICLE_COUNT ATTRACTOR_COUNT : nat)
    (frames : list Uniforms) (g g' : Geometry) :
  animate PARTICLE_COUNT ATTRACTOR_COUNT frames g = Some g' ->
  particleMass g' = particleMass g
  /\ length (position g') = length (position g)
  /\ length (velocity g') = length (velocity g)
  /\ (forall j, (PARTICLE_COUNT * 3 <= j)%nat ->
        position g' !! j = position g !! j /\ velocity g' !! j = velocity g !! j).
Proof.
  revert g. induction frames as [| u frames IH]; intros g; simpl.
  - intros [= <-]. auto.
  - destruct (updateParticles _ _ u g) as [g1 |] eqn:Hg1; simpl; [| discriminate].
    intros H. destruct (IH g1 H) as (Hm & Hlp & Hlv & Hout).
    destruct (updateParticles_loop_facts _ _ _ _ _ Hg1) as (Hm1 & Hlp1 & Hlv1 & Hout1).
    split; [congruence |]. split; [congruence |]. split; [congruence |].
    intros j Hj. destruct (Hout j Hj) as [-> ->]. now apply Hout1.
Qed.

(** Frames whose uniforms hold the attractors do not throw. *)
Lemma loaded_frames (N n k : nat) (u : Uniforms) (g : Geometry) :
  attractors_loaded n u ->
  exists g', animate N n (replicate k u) g = Some g'.
Proof.
  intros Hu. revert g. induction k as [| k IH]; intros g; simpl; [eauto |].
  destruct (particles_loop n u N Hu 0 g) as (g1 & Hg1 & _).
  fold (updateParticles N n u g) in Hg1. rewrite Hg1. simpl.
  apply IH.
Qed.

Lemma animate_keeps_buffers_witness :
  let g := geometry_of 999 (1, 0.05, -2)%R (0.05, 0, 0)%R 1e4 in
  exists g',
    animate 1000 3 (replicate 5 script_uniforms) g = Some g'
    /\ particleMass g' = particleMass g
    /\ length (position g') = length (position g)
    /\ length (velocity g') = length (velocity g)
    /\ (forall j, (1000 * 3 <= j)%nat ->
          position g' !! j = position g !! j /\ velocity g' !! j = velocity g !! j).
Proof.
  intros g. destruct (loaded_frames 1000 3 5 script_uniforms g script_attractors_loaded)
    as (g' & Hg').
  exists g'. split; [exact Hg' |].
  exact (animate_keeps_buffers 1000 3 (replicate 5 script_uniforms) g g' Hg').
Defined.

(** X12: a particle with a [NaN] coordinate is lost for good.  After any
    non-empty sequence of frames all its six entries are [NaN]: only
    [resetParticles] assigns other values to them. *)
Theorem lost_particle_stays_lost (PARTICLE_COUNT ATTRACTOR_COUNT : nat)
    (frames : list Uniforms) (g g' : Geometry) (i : nat) (p v : vec) :
  (i < PARTICLE_COUNT)%nat ->
  (0 < ATTRACTOR_COUNT)%nat ->
  frames <> [] ->
  lookup3 (position g) (i * 3) = Some p ->
  lookup3 (velocity g) (i * 3) = Some v ->
  has_NaN p ->
  animate PARTICLE_COUNT ATTRACTOR_COUNT frames g = Some g' ->
  lookup3 (velocity g') (i * 3) = Some (NaN, NaN, NaN)
  /\ lookup3 (position g') (i * 3) = Some (NaN, NaN, NaN).
Proof.
  intros Hi Hn. revert g p v.
  induction frames as [| u frames IH]; intros g p v Hne Hp Hv Hnan; [congruence |].
  simpl. destruct (updateParticles _ _ u g) as [g1 |] eqn:Hg1; simpl; [| discriminate].
  assert (Hu : attractors_loaded ATTRACTOR_COUNT u)
    by (apply (updateParticles_Some_loaded PARTICLE_COUNT ATTRACTOR_COUNT u g g1);
        [lia | exact Hg1]).
  destruct (updateParticles_Some_particle _ _ _ _ _ i p v Hi Hp Hv Hg1)
    as (f & Hf & Hv1 & Hp1).
  rewrite forces_position_NaN in Hf;
    [| assumption | assumption | now rewrite (lookup3_read3 _ _ _ Hp)].
  injection Hf as <-.
  rewrite new_velocity_NaN in Hv1, Hp1. rewrite position_NaN in Hp1.
  destruct frames as [| u' frames].
  - simpl. intros [= <-]. auto.
  - apply (IH g1 (NaN, NaN, NaN) (NaN, NaN, NaN));
      [discriminate | exact Hp1 | exact Hv1 | left; reflexivity].
Qed.

Lemma lost_particle_stays_lost_witness :
  let g := {| position := Fin 1 :: NaN :: Fin (-2) :: replicate (999 * 3) (Fin 0);
              velocity := Fin 0.05 :: Fin 0 :: Fin 0 :: replicate (999 * 3) (Fin 0);
              particleMass := replicate 1000 (Fin 1e4) |} in
  exists g',
    (0 < 1000)%nat
    /\ (0 < 3)%nat
    /\ replicate 5 script_uniforms <> []
    /\ lookup3 (position g) (0 * 3) = Some (Fin 1, NaN, Fin (-2))
    /\ lookup3 (velocity g) (0 * 3) = Some (Fin 0.05, Fin 0, Fin 0)
    /\ has_NaN (Fin 1, NaN, Fin (-2))
    /\ animate 1000 3 (replicate 5 script_uniforms) g = Some g'
    /\ lookup3 (velocity g') (0 * 3) = Some (NaN, NaN, NaN)
    /\ lookup3 (position g') (0 * 3) = Some (NaN, NaN, NaN).
Proof.
  intros g.
  assert (H1 : (0 < 1000)%nat) by lia.
  assert (H2 : (0 < 3)%nat) by lia.
  assert (H3 : replicate 5 script_uniforms <> []) by discriminate.
  assert (H4 : lookup3 (position g) (0 * 3) = Some (Fin 1, NaN, Fin (-2))) by reflexivity.
  assert (H5 : lookup3 (velocity g) (0 * 3) = Some (Fin 0.05, Fin 0, Fin 0)) by reflexivity.
  assert (H6 : has_NaN (Fin 1, NaN, Fin (-2))) by (right; left; reflexivity).
  destruct (loaded_frames 1000 3 5 script_uniforms g script_attractors_loaded)
    as (g' & Hg').
  exists g'. repeat (split; [assumption |]).
  exact (lost_particle_stays_lost 1000 3 (replicate 5 script_uniforms) g g' 0 _ _
           H1 H2 H3 H4 H5 H6 Hg').
Defined.

(** ** The ends of the sliders *)




(** With a half-extent of [0] the remainder is taken by [0]. *)
Lemma wrap1_zero (a : number) : Step.wrap1 0 a = NaN.
Proof.
  unfold Step.wrap1. rewrite NumberFacts.mul_Fin.
  destruct a as [x | | |]; try reflexivity.
  rewrite NumberFacts.add_Fin. unfold Number.rem.
  destruct (Req_dec_T (2 * 0) 0) as [_ | Hne]; [reflexivity | lra].
Qed.

(** X14: [boundHalfExtent = 0], the lower end of its slider, loses every
    particle: a step that returns leaves the three position entries of
    each particle [NaN], whatever they were. *)
Theorem zero_extent_loses_positions (PARTICLE_COUNT ATTRACTOR_COUNT : nat)
    (u : Uniforms) (g g' : Geometry) (i : nat) (p v : vec) :
  (i < PARTICLE_COUNT)%nat ->
  lookup3 (position g) (i * 3) = Some p ->
  lookup3 (velocity g) (i * 3) = Some v ->
  boundHalfExtent u = 0%R ->
  updateParticles PARTICLE_COUNT ATTRACTOR_COUNT u g = Some g' ->
  lookup3 (position g') (i * 3) = Some (NaN, NaN, NaN).
Proof.
  intros Hi Hp Hv Hh Hg'.
  destruct (updateParticles_Some_particle _ _ _ _ _ i p v Hi Hp Hv Hg')
    as (f & _ & _ & Hp').
  rewrite Hp'. unfold Step.position, Step.wrap. rewrite Hh.
  destruct (Step.integrate_position _ _ _) as [[x y] z].
  now rewrite !wrap1_zero.
Qed.

Lemma zero_extent_loses_positions_witness :
  let u := set_boundHalfExtent 0 script_uniforms in
  let g := geometry_of 999 (1, 0.05, -2)%R (0.05, 0, 0)%R 1e4 in
  exists g',
    (0 < 1000)%nat
    /\ lookup3 (position g) (0 * 3) = Some (fin3 (1, 0.05, -2)%R)
    /\ lookup3 (velocity g) (0 * 3) = Some (fin3 (0.05, 0, 0)%R)
    /\ boundHalfExtent u = 0%R
    /\ updateParticles 1000 3 u g = Some g'
    /\ lookup3 (position g') (0 * 3) = Some (NaN, NaN, NaN).
Proof.
  intros u g.
  assert (H0 : attractors_loaded 3 u) by exact script_attractors_loaded.
  assert (H1 : (0 < 1000)%nat) by lia.
  assert (H2 : lookup3 (position g) (0 * 3) = Some (fin3 (1, 0.05, -2)%R)) by reflexivity.
  assert (H3 : lookup3 (velocity g) (0 * 3) = Some (fin3 (0.05, 0, 0)%R)) by reflexivity.
  assert (H4 : boundHalfExtent u = 0%R) by reflexivity.
  destruct (particles_loop 3 u 1000 H0 0 g) as (g' & Hg' & _).
  exists g'. repeat (split; [assumption |]).
  exact (zero_extent_loses_positions 1000 3 u g g' 0 _ _ H1 H2 H3 H4 Hg').
Defined.

(** ** The GUI and the masses *)

(** The uniforms that [updateParticles] reads: two records of uniforms
    that agree on them give the same step. *)
Section UniformsRead.

Variables u u' : Uniforms.
Hypothesis H_attractorMass : attractorMass u' = attractorMass u.
Hypothesis H_timeScale : timeScale u' = timeScale u.
Hypothesis H_spinningStrength : spinningStrength u' = spinningStrength u.
Hypothesis H_maxSpeed : maxSpeed u' = maxSpeed u.
Hypothesis H_gravityConstant : gravityConstant u' = gravityConstant u.
Hypothesis H_velocityDamping : velocityDamping u' = velocityDamping u.
Hypothesis H_boundHalfExtent : boundHalfExtent u' = boundHalfExtent u.
Hypothesis H_attractorPositions : attractorPositions u' = attractorPositions u.
Hypothesis H_attractorRotationAxes :
  attractorRotationAxes u' = attractorRotationAxes u.

Lemma attract_uniforms positions masses (i j : nat) f :
  attract u' positions masses i j f = attract u positions masses i j f.
Proof.
  unfold attract.
  rewrite H_attractorMass, H_spinningStrength, H_gravityConstant,
    H_attractorPositions, H_attractorRotationAxes.
  reflexivity.
Qed.

Lemma forces_uniforms (n : nat) positions masses (i : nat) :
  forces n u' positions masses i = forces n u positions masses i.
Proof.
  unfold forces. apply for_ext. intros j f _.
  destruct f as [f |]; [| reflexivity]. apply attract_uniforms.
Qed.

Lemma update_velocity_uniforms (i3 : nat) f a :
  update_velocity u' i3 f a = update_velocity u i3 f a.
Proof. unfold update_velocity. now rewrite H_timeScale. Qed.

Lemma apply_speed_limit_uniforms (i3 : nat) a :
  apply_speed_limit u' i3 a = apply_speed_limit u i3 a.
Proof. unfold apply_speed_limit. now rewrite H_maxSpeed. Qed.

Lemma apply_damping_uniforms (i3 : nat) a :
  apply_damping u' i3 a = apply_damping u i3 a.
Proof. unfold apply_damping. now rewrite H_velocityDamping. Qed.

Lemma update_position_uniforms (i3 : nat) v a :
  update_position u' i3 v a = update_position u i3 v a.
Proof. unfold update_position. now rewrite H_timeScale. Qed.

Lemma box_loop_uniforms (i3 : nat) a : box_loop u' i3 a = box_loop u i3 a.
Proof. unfold box_loop. now rewrite H_boundHalfExtent. Qed.

Lemma updateParticles_uniforms (N n : nat) (g : Geometry) :
  updateParticles N n u' g = updateParticles N n u g.
Proof.
  unfold updateParticles. apply for_ext. intros i s _.
  destruct s as [s |]; [| reflexivity].
  cbn [mbind option_bind]. unfold particle. rewrite forces_uniforms.
  destruct (forces _ _ _ _ _) as [f |]; [| reflexivity].
  cbn [mbind option_bind]. cbv zeta.
  now rewrite update_velocity_uniforms, apply_speed_limit_uniforms,
    apply_damping_uniforms, update_position_uniforms, box_loop_uniforms.
Qed.

End UniformsRead.

(** X15: the slider [particleGlobalMassExponent] does not act on the
    particles that exist.  [updateParticles] never reads
    [particleGlobalMass]: after the callback a step is the same as
    before it; only [createParticles] and [resetParticles] use the new
    value. *)
Theorem step_ignores_particleGlobalMass (PARTICLE_COUNT ATTRACTOR_COUNT : nat)
    (value : R) (u : Uniforms) (g : Geometry) :
  updateParticles PARTICLE_COUNT ATTRACTOR_COUNT
    (onChange_particleGlobalMassExponent value u) g
  = updateParticles PARTICLE_COUNT ATTRACTOR_COUNT u g.
Proof. apply updateParticles_uniforms; reflexivity. Qed.

(** ** [createParticles] and [resetParticles] *)

(** X16: [createParticles] calls [Math.random] six times for each
    particle and makes arrays of [3 * PARTICLE_COUNT],
    [3 * PARTICLE_COUNT] and [PARTICLE_COUNT] entries; [resetParticles]
    makes as many calls and keeps the sizes of the arrays it is given. *)
Theorem sampling_calls_and_sizes (PARTICLE_COUNT : nat) (random : nat -> R)
    (u : Uniforms) (g0 : Geometry) (calls : nat) :
  let created := createParticles PARTICLE_COUNT random u calls in
  let reset := resetParticles PARTICLE_COUNT random u g0 calls in
  created.2 = (6 * PARTICLE_COUNT + calls)%nat
  /\ length (position created.1) = (PARTICLE_COUNT * 3)%nat
  /\ length (velocity created.1) = (PARTICLE_COUNT * 3)%nat
  /\ length (particleMass created.1) = PARTICLE_COUNT
  /\ reset.2 = (6 * PARTICLE_COUNT + calls)%nat
  /\ length (position reset.1) = length (position g0)
  /\ length (velocity reset.1) = length (velocity g0)
  /\ length (particleMass reset.1) = length (particleMass g0).
Proof.
  intros created reset. unfold created, reset, createParticles, resetParticles.
  rewrite (for_ext (reset_particle random u) (create_particle random u) PARTICLE_COUNT
             0%nat (g0, calls)) by (intros; apply reset_particle_eq).
  destruct (create_loop random u PARTICLE_COUNT 0 g0 calls)
    as (g1 & -> & Hlp1 & Hlv1 & Hlm1 & _).
  destruct (create_loop random u PARTICLE_COUNT 0
              {| position := replicate (PARTICLE_COUNT * 3) (Fin 0);
                 velocity := replicate (PARTICLE_COUNT * 3) (Fin 0);
                 particleMass := replicate PARTICLE_COUNT (Fin 0) |} calls)
    as (g2 & -> & Hlp2 & Hlv2 & Hlm2 & _).
  cbn [position velocity particleMass fst snd] in *.
  rewrite length_replicate in Hlp2, Hlv2, Hlm2.
  auto 10.
Qed.

(** [resetParticles] on arrays of the sizes of [createParticles]. *)
Lemma resetParticles_createParticles (N : nat) (random : nat -> R) (u : Uniforms)
    (g0 : Geometry) (calls : nat) :
  length (position g0) = (N * 3)%nat ->
  length (velocity g0) = (N * 3)%nat ->
  length (particleMass g0) = N ->
  resetParticles N random u g0 calls = createParticles N random u calls.
Proof.
  intros Hlp Hlv Hlm. unfold resetParticles, createParticles.
  rewrite (for_ext (reset_particle random u) (create_particle random u))
    by (intros; apply reset_particle_eq).
  destruct (create_loop random u N 0 g0 calls)
    as (g1 & -> & Hlp1 & Hlv1 & Hlm1 & _ & _ & Hin1).
  destruct (create_loop random u N 0
              {| position := replicate (N * 3) (Fin 0);
                 velocity := replicate (N * 3) (Fin 0);
                 particleMass := replicate N (Fin 0) |} calls)
    as (g2 & -> & Hlp2 & Hlv2 & Hlm2 & _ & _ & Hin2).
  cbn [position velocity particleMass] in *.
  rewrite length_replicate in Hlp2, Hlv2, Hlm2.
  assert (H1 : forall i, (i < N)%nat ->
            lookup3 (position g1) (i * 3) = lookup3 (position g2) (i * 3)
            /\ lookup3 (velocity g1) (i * 3) = lookup3 (velocity g2) (i * 3)
            /\ particleMass g1 !! i = particleMass g2 !! i).
  { intros i Hi.
    destruct (Hin1 i ltac:(lia) ltac:(lia) ltac:(lia) ltac:(lia)) as (-> & -> & ->).
    destruct (Hin2 i ltac:(lia)) as (-> & -> & ->);
      rewrite ?length_replicate; try lia.
    auto. }
  f_equal.
  destruct g1 as [p1 v1 m1], g2 as [p2 v2 m2]; simpl in *. f_equal.
  - apply (buffers_eq N); [lia | lia |]. intros i Hi. now apply H1.
  - apply (buffers_eq N); [lia | lia |]. intros i Hi. now apply H1.
  - apply list_eq. intros i.
    destruct (decide (i < N)%nat) as [Hi | Hi].
    + now apply H1.
    + rewrite !lookup_ge_None_2 by lia. reflexivity.
Qed.

Lemma animate_lengths (N n : nat) (frames : list Uniforms) (g g' : Geometry) :
  animate N n frames g = Some g' ->
  length (position g') = length (position g)
  /\ length (velocity g') = length (velocity g)
  /\ length (particleMass g') = length (particleMass g).
Proof.
  revert g. induction frames as [| u frames IH]; intros g; simpl.
  - intros [= <-]. auto.
  - destruct (updateParticles _ _ u g) as [g1 |] eqn:Hg1; simpl; [| discriminate].
    intros H. destruct (IH g1 H) as (Hlp & Hlv & Hlm).
    destruct (updateParticles_loop_facts _ _ _ _ _ Hg1) as (Hm1 & Hlp1 & Hlv1 & _).
    rewrite Hlp, Hlv, Hlm, Hm1. auto.
Qed.

(** X17: [resetParticles] forgets the simulation.  After [createParticles]
    and any number of frames, with any changes of the uniforms in between,
    [resetParticles] leaves exactly what a fresh [createParticles] makes of
    the same draws of [Math.random]; particles with [NaN] entries are
    recovered by it. *)
Theorem reset_after_frames (PARTICLE_COUNT ATTRACTOR_COUNT : nat)
    (random0 random : nat -> R) (u0 u : Uniforms) (frames : list Uniforms)
    (calls0 calls : nat) (g : Geometry) :
  animate PARTICLE_COUNT ATTRACTOR_COUNT frames
    (createParticles PARTICLE_COUNT random0 u0 calls0).1 = Some g ->
  resetParticles PARTICLE_COUNT random u g calls
  = createParticles PARTICLE_COUNT random u calls.
Proof.
  intros Hg. apply animate_lengths in Hg as (Hlp & Hlv & Hlm).
  unfold createParticles in Hlp, Hlv, Hlm.
  destruct (create_loop random0 u0 PARTICLE_COUNT 0
              {| position := replicate (PARTICLE_COUNT * 3) (Fin 0);
                 velocity := replicate (PARTICLE_COUNT * 3) (Fin 0);
                 particleMass := replicate PARTICLE_COUNT (Fin 0) |} calls0)
    as (g2 & Heq & Hlp2 & Hlv2 & Hlm2 & _).
  rewrite Heq in Hlp, Hlv, Hlm.
  cbn [position velocity particleMass fst] in *.
  rewrite length_replicate in Hlp2, Hlv2, Hlm2.
  apply resetParticles_createParticles; congruence.
Qed.

Lemma reset_after_frames_witness :
  exists g,
    animate 1000 3 (replicate 5 script_uniforms)
      (createParticles 1000 draws_onto_attractor script_uniforms 0).1 = Some g
    /\ resetParticles 1000 (fun _ => 0.25%R) script_uniforms g 6
       = createParticles 1000 (fun _ => 0.25%R) script_uniforms 6.
Proof.
  destruct (loaded_frames 1000 3 5 script_uniforms
              (createParticles 1000 draws_onto_attractor script_uniforms 0).1
              script_attractors_loaded) as (g & Hg).
  exists g. split; [exact Hg |].
  exact (reset_after_frames 1000 3 draws_onto_attractor (fun _ => 0.25%R)
           script_uniforms script_uniforms (replicate 5 script_uniforms) 0 6 g Hg).
Defined.

(** ** The fragment shader *)

Lemma clamp_range (x : R) : (0 <= FragmentShader.clamp x 0 1 <= 1)%R.
Proof.
  unfold FragmentShader.clamp, Rmin, Rmax.
  repeat destruct (Rle_dec _ _); lra.
Qed.

(** X18: the colour of a particle.  For [maxSpeed > 0] the mixing factor
    [colorMix] lies in [[0, 1]]; it is [0] for a particle at rest and [1]
    as soon as the speed reaches [0.125 * maxSpeed], where the colour is
    [colorB]. *)
Theorem colorMix_range (maxSpeed : R) (colorA colorB vVelocity : V3.t) :
  (0 < maxSpeed)%R ->
  (0 <= FragmentShader.colorMix maxSpeed vVelocity <= 1)%R
  /\ (V3.norm vVelocity = 0%R -> FragmentShader.colorMix maxSpeed vVelocity = 0%R)
  /\ ((0.125 * maxSpeed <= V3.norm vVelocity)%R ->
        FragmentShader.colorMix maxSpeed vVelocity = 1%R
        /\ FragmentShader.color colorA colorB maxSpeed vVelocity = colorB).
Proof.
  intros HM. unfold FragmentShader.color, FragmentShader.colorMix,
    FragmentShader.smoothstep.
  set (s := V3.norm vVelocity).
  set (q := ((s / maxSpeed - 0) / (0.125 - 0))%R).
  pose proof (clamp_range q) as Hc.
  split; [| split].
  - set (t := FragmentShader.clamp q 0 1) in *.
    assert (H0 : (0 <= t * t)%R) by nra.
    assert (H1 : (0 <= (1 - t) * (1 - t))%R) by nra.
    assert (H2 : (0 <= t * t * (3 - 2 * t))%R) by (apply Rmult_le_pos; lra).
    assert (H3 : (0 <= (1 - t) * (1 - t) * (1 + 2 * t))%R) by (apply Rmult_le_pos; lra).
    assert (H4 : (1 - t * t * (3 - 2 * t) = (1 - t) * (1 - t) * (1 + 2 * t))%R) by ring.
    lra.
  - intros Hs. assert (Hq : q = 0%R) by (unfold q; rewrite Hs; unfold Rdiv; ring).
    rewrite Hq. unfold FragmentShader.clamp, Rmin, Rmax.
    repeat destruct (Rle_dec _ _); lra.
  - intros Hs.
    assert (Hq : (1 <= q)%R).
    { assert (Hinv : (0 < / maxSpeed)%R) by now apply Rinv_0_lt_compat.
      pose proof (Rmult_le_compat_r (/ maxSpeed) _ _ (Rlt_le _ _ Hinv) Hs) as Hx.
      replace (0.125 * maxSpeed * / maxSpeed)%R with 0.125%R in Hx by (field; lra).
      unfold q, Rdiv. replace (/ (0.125 - 0))%R with 8%R by lra. lra. }
    assert (Ht : FragmentShader.clamp q 0 1 = 1%R).
    { unfold FragmentShader.clamp, Rmin, Rmax.
      repeat destruct (Rle_dec _ _); lra. }
    rewrite Ht. split; [ring |].
    destruct colorA as [[ar ag] ab], colorB as [[br bg] bb].
    unfold FragmentShader.mix. f_equal; [f_equal |]; ring.
Qed.

Lemma colorMix_range_witness :
  (0 < 2)%R
  /\ (0 <= FragmentShader.colorMix 2 (0.6, 0, 0)%R <= 1)%R
  /\ (V3.norm (0.6, 0, 0)%R = 0%R -> FragmentShader.colorMix 2 (0.6, 0, 0)%R = 0%R)
  /\ ((0.125 * 2 <= V3.norm (0.6, 0, 0)%R)%R ->
        FragmentShader.colorMix 2 (0.6, 0, 0)%R = 1%R
        /\ FragmentShader.color (0.35, 0, 1)%R (1, 0.65, 0.46)%R 2 (0.6, 0, 0)%R
           = (1, 0.65, 0.46)%R).
Proof.
  assert (H : (0 < 2)%R) by lra.
  split; [exact H |].
  exact (colorMix_range 2 (0.35, 0, 1)%R (1, 0.65, 0.46)%R (0.6, 0, 0)%R H).
Defined.

(** * IEEE 754 arithmetic *)

(** ** Powers of two *)

Module Pow2.

Local Open Scope R_scope.

Lemma pos (k : Z) : 0 < powerRZ 2 k.
Proof. apply powerRZ_lt. lra. Qed.

Lemma succ (k : Z) : powerRZ 2 (k + 1) = 2 * powerRZ 2 k.
Proof. rewrite powerRZ_add by lra. rewrite powerRZ_1. ring. Qed.

Lemma add (j k : Z) : powerRZ 2 (j + k) = powerRZ 2 j * powerRZ 2 k.
Proof. apply powerRZ_add. lra. Qed.

Lemma pred (k : Z) : powerRZ 2 (k - 1) = powerRZ 2 k / 2.
Proof.
  replace k with ((k - 1) + 1)%Z at 2 by lia. rewrite succ. field.
Qed.

Lemma exp_ln (k : Z) : powerRZ 2 k = exp (IZR k * ln 2).
Proof. rewrite powerRZ_Rpower by lra. reflexivity. Qed.

Lemma le (j k : Z) : (j <= k)%Z -> powerRZ 2 j <= powerRZ 2 k.
Proof.
  intros Hjk. replace k with (j + (k - j))%Z by lia. rewrite add.
  pose proof (pos j) as Hj.
  assert (H1 : 1 <= powerRZ 2 (k - j)).
  { destruct (Z_of_nat_complete (k - j) ltac:(lia)) as [n ->].
    rewrite <- pow_powerRZ. apply pow_R1_Rle. lra. }
  nra.
Qed.

Lemma le_half (k : Z) : (k <= -1)%Z -> powerRZ 2 k <= / 2.
Proof.
  intros Hk. pose proof (le k (0 - 1) ltac:(lia)) as H.
  rewrite pred, powerRZ_O in H. lra.
Qed.

Lemma lt (j k : Z) : (j < k)%Z -> powerRZ 2 j < powerRZ 2 k.
Proof.
  intros Hjk. pose proof (le (j + 1) k ltac:(lia)) as H.
  rewrite succ in H. pose proof (pos j). lra.
Qed.

Lemma lt_inv (j k : Z) : powerRZ 2 j < powerRZ 2 k -> (j < k)%Z.
Proof.
  intros H. destruct (Z_lt_le_dec j k) as [Hlt | Hge]; [exact Hlt |].
  pose proof (le k j Hge). lra.
Qed.

End Pow2.

(** ** Rounding to nearest *)

Module Rounding.

Import IEEE.
Local Open Scope R_scope.

Lemma Rabs_le_inv (x b : R) : Rabs x <= b -> - b <= x <= b.
Proof. unfold Rabs. destruct (Rcase_abs x); lra. Qed.

Lemma ln2_pos : 0 < ln 2.
Proof. pose proof ln_lt_2. lra. Qed.

(** [mag x] is the binary exponent of [x]. *)
Lemma mag_spec (x : R) :
  x <> 0 -> powerRZ 2 (mag x) <= Rabs x < powerRZ 2 (mag x + 1).
Proof.
  intros Hx. assert (Ha : 0 < Rabs x) by now apply Rabs_pos_lt.
  unfold mag. set (L := ln (Rabs x) / ln 2).
  destruct (base_Int_part L) as [H1 H2].
  pose proof ln2_pos as Hl.
  assert (HL : L * ln 2 = ln (Rabs x)) by (unfold L; field; lra).
  rewrite !Pow2.exp_ln. rewrite <- (exp_ln (Rabs x) Ha) at 1 2.
  rewrite <- HL. rewrite plus_IZR. split.
  - destruct (Req_dec (IZR (Int_part L)) L) as [-> | Hne]; [lra |].
    left. apply exp_increasing. nra.
  - apply exp_increasing. nra.
Qed.

Lemma mag_unique (x : R) (k : Z) :
  powerRZ 2 k <= Rabs x < powerRZ 2 (k + 1) -> mag x = k.
Proof.
  intros [H1 H2].
  assert (Hx : x <> 0).
  { intros ->. rewrite Rabs_R0 in H1. pose proof (Pow2.pos k). lra. }
  destruct (mag_spec x Hx) as [H3 H4].
  assert (mag x < k + 1)%Z by (apply Pow2.lt_inv; lra).
  assert (k < mag x + 1)%Z by (apply Pow2.lt_inv; lra).
  lia.
Qed.

(** The nearest integer is at most one half away. *)
Lemma nearest_even_spec (t : R) : Rabs (IZR (nearest_even t) - t) <= 1 / 2.
Proof.
  unfold nearest_even. destruct (base_Int_part t) as [H1 H2].
  repeat destruct (Rlt_dec _ _); try destruct (Z.even _);
    rewrite ?plus_IZR; apply Rabs_le; lra.
Qed.

Lemma nearest_even_IZR (n : Z) : nearest_even (IZR n) = n.
Proof.
  unfold nearest_even.
  assert (H : Int_part (IZR n) = n) by (symmetry; apply Int_part_spec; lra).
  rewrite H. destruct (Rlt_dec _ _); [reflexivity | lra].
Qed.

(** An integer within less than one half is the nearest one. *)
Lemma nearest_even_unique (t : R) (n : Z) :
  Rabs (IZR n - t) < 1 / 2 -> nearest_even t = n.
Proof.
  intros H. apply Rabs_def2 in H as [H1 H2].
  pose proof (nearest_even_spec t) as Hs.
  apply Rabs_le_inv in Hs as [H3 H4].
  assert (Hlt : (- 1 < IZR (nearest_even t) - IZR n < 1)).
  { lra. }
  rewrite <- minus_IZR in Hlt. destruct Hlt as [Ha Hb].
  apply lt_IZR in Ha. apply lt_IZR in Hb. lia.
Qed.

Lemma nearest_even_monotone (s t : R) :
  s <= t -> (nearest_even s <= nearest_even t)%Z.
Proof.
  intros Hst.
  destruct (Z_le_gt_dec (nearest_even s) (nearest_even t)) as [H | H]; [exact H |].
  exfalso.
  pose proof (nearest_even_spec s) as Hs. apply Rabs_le_inv in Hs as [Hs1 Hs2].
  pose proof (nearest_even_spec t) as Ht. apply Rabs_le_inv in Ht as [Ht1 Ht2].
  assert (Hge : (nearest_even t + 1 <= nearest_even s)%Z) by lia.
  apply IZR_le in Hge. rewrite plus_IZR in Hge.
  (* both are ties between the same two integers *)
  assert (Hs3 : IZR (nearest_even s) - s = 1 / 2) by lra.
  assert (Ht3 : IZR (nearest_even t) - t = - (1 / 2)) by lra.
  assert (Heq : s = t) by lra.
  rewrite Heq in H. lia.
Qed.

(** A tie goes to the even integer. *)
Lemma nearest_even_tie (t : R) :
  Rabs (IZR (nearest_even t) - t) = 1 / 2 -> Z.even (nearest_even t) = true.
Proof.
  unfold nearest_even. destruct (base_Int_part t) as [H1 H2].
  set (n := Int_part t) in *.
  destruct (Rlt_dec (t - IZR n) (1 / 2)) as [Hlt | Hge].
  - intros H. rewrite Rabs_left1 in H by lra. lra.
  - destruct (Rlt_dec (1 / 2) (t - IZR n)) as [Hgt | Hle].
    + intros H. rewrite plus_IZR in H. rewrite Rabs_right in H by lra. lra.
    + destruct (Z.even n) eqn:En; intros _; [exact En |].
      rewrite Z.even_add, En. reflexivity.
Qed.

Lemma nearest_even_char (t : R) (n : Z) :
  Rabs (IZR n - t) <= 1 / 2 ->
  (Rabs (IZR n - t) = 1 / 2 -> Z.even n = true) ->
  nearest_even t = n.
Proof.
  intros Hn Htie.
  pose proof (nearest_even_spec t) as Hr.
  pose proof (nearest_even_tie t) as Hrtie.
  set (r := nearest_even t) in *.
  apply Rabs_le_inv in Hn as [Hn1 Hn2]. apply Rabs_le_inv in Hr as [Hr1 Hr2].
  assert (Hd : - 1 <= IZR (r - n) <= 1) by (rewrite minus_IZR; lra).
  destruct Hd as [Hd1 Hd2]. apply le_IZR in Hd1. apply le_IZR in Hd2.
  destruct (Z.eq_dec r n) as [-> | Hne]; [reflexivity |]. exfalso.
  assert (Hcase : r = (n + 1)%Z \/ n = (r + 1)%Z) by lia.
  destruct Hcase as [Hc | Hc]; pose proof (IZR_eq _ _ Hc) as Hc';
    rewrite plus_IZR in Hc'.
  - assert (En : Z.even n = true)
      by (apply Htie; rewrite Rabs_left1 by lra; lra).
    assert (Er : Z.even r = true)
      by (apply Hrtie; rewrite Rabs_right by lra; lra).
    rewrite Hc, Z.even_add, En in Er. discriminate.
  - assert (En : Z.even n = true)
      by (apply Htie; rewrite Rabs_right by lra; lra).
    assert (Er : Z.even r = true)
      by (apply Hrtie; rewrite Rabs_left1 by lra; lra).
    rewrite Hc, Z.even_add, Er in En. discriminate.
Qed.

Lemma nearest_even_opp (t : R) : nearest_even (- t) = (- nearest_even t)%Z.
Proof.
  apply nearest_even_char.
  - rewrite opp_IZR.
    replace (- IZR (nearest_even t) - - t) with (- (IZR (nearest_even t) - t)) by ring.
    rewrite Rabs_Ropp. apply nearest_even_spec.
  - rewrite opp_IZR.
    replace (- IZR (nearest_even t) - - t) with (- (IZR (nearest_even t) - t)) by ring.
    rewrite Rabs_Ropp, Z.even_opp. apply nearest_even_tie.
Qed.

Lemma nearest_even_nonneg (t : R) : 0 <= t -> (0 <= nearest_even t)%Z.
Proof.
  intros Ht. rewrite <- (nearest_even_IZR 0). now apply nearest_even_monotone.
Qed.

(** A power of two with a natural exponent is an integer. *)
Lemma pow2_IZR (j : Z) : (0 <= j)%Z -> powerRZ 2 j = IZR (2 ^ j).
Proof.
  intros Hj. destruct (Z_of_nat_complete j Hj) as [n ->].
  rewrite <- pow_powerRZ. rewrite <- pow_IZR. reflexivity.
Qed.

Section Format.

Variables precision emin emax : Z.
Hypothesis precision_ge_2 : (2 <= precision)%Z.
Hypothesis emin_lt_emax : (emin < emax)%Z.

Lemma ulp_pos (x : R) : 0 < ulp precision emin x.
Proof. apply Pow2.pos. Qed.

Lemma ulp_opp (x : R) : ulp precision emin (- x) = ulp precision emin x.
Proof. unfold IEEE.ulp, mag. now rewrite Rabs_Ropp. Qed.

Lemma ulp_ge (x : R) : powerRZ 2 (emin - precision + 1) <= ulp precision emin x.
Proof. apply Pow2.le. lia. Qed.

Lemma half_ulp_le (x : R) : x <> 0 -> ulp precision emin x / 2 <= powerRZ 2 (- precision) * Rabs x \/ ulp precision emin x / 2 = powerRZ 2 (emin - precision).
Proof.
  intros Hx. unfold IEEE.ulp.
  destruct (Z.max_spec (mag x) emin) as [[Hlt ->] | [Hle ->]].
  - right. replace (emin - precision + 1)%Z with ((emin - precision) + 1)%Z by lia.
    rewrite Pow2.succ. lra.
  - left. destruct (mag_spec x Hx) as [H1 _].
    replace (mag x - precision + 1)%Z with ((- precision + mag x) + 1)%Z by lia.
    rewrite Pow2.succ, Pow2.add. pose proof (Pow2.pos (- precision)). nra.
Qed.

Lemma half_ulp_normal (x : R) :
  powerRZ 2 emin <= Rabs x -> ulp precision emin x / 2 <= powerRZ 2 (- precision) * Rabs x.
Proof.
  intros Hn.
  assert (Hx : x <> 0).
  { intros ->. rewrite Rabs_R0 in Hn. pose proof (Pow2.pos emin). lra. }
  destruct (mag_spec x Hx) as [H1 H2].
  assert (Hm : (emin <= mag x)%Z).
  { assert (emin < mag x + 1)%Z by (apply Pow2.lt_inv; lra). lia. }
  unfold IEEE.ulp. rewrite Z.max_l by lia.
  replace (mag x - precision + 1)%Z with ((- precision + mag x) + 1)%Z by lia.
  rewrite Pow2.succ, Pow2.add. pose proof (Pow2.pos (- precision)). nra.
Qed.

(** The number of the grid around [x] that is nearest to [x]. *)
Lemma round_0 : round precision emin emax 0 = Fin 0.
Proof. unfold round. destruct (Req_dec_T 0 0); [reflexivity | lra]. Qed.

(** The result of rounding [x <> 0]: the nearest number [y] of the grid
    around [x], or an infinity when [y] is beyond the format. *)
Lemma round_cases (x : R) :
  x <> 0 ->
  let y := IZR (nearest_even (x / ulp precision emin x)) * ulp precision emin x in
  Rabs (y - x) <= ulp precision emin x / 2
  /\ ((round precision emin emax x = Fin y /\ Rabs y < powerRZ 2 emax)
      \/ (round precision emin emax x = PInf /\ 0 < x /\ powerRZ 2 emax <= Rabs y)
      \/ (round precision emin emax x = NInf /\ x < 0 /\ powerRZ 2 emax <= Rabs y)).
Proof.
  intros Hx y. pose proof (ulp_pos x) as Hu. split.
  - pose proof (nearest_even_spec (x / ulp precision emin x)) as Hn.
    replace (y - x)
      with ((IZR (nearest_even (x / ulp precision emin x)) - x / ulp precision emin x)
            * ulp precision emin x) by (unfold y; field; lra).
    rewrite Rabs_mult, (Rabs_right (ulp precision emin x)) by lra. nra.
  - unfold round. destruct (Req_dec_T x 0) as [| _]; [contradiction |].
    fold y. destruct (Rle_dec (powerRZ 2 emax) (Rabs y)) as [Hov | Hfin].
    + destruct (Rlt_dec 0 x); [right; left | right; right];
        repeat split; try assumption; lra.
    + left. split; [reflexivity | lra].
Qed.

Lemma round_not_NaN (x : R) : round precision emin emax x <> NaN.
Proof.
  destruct (Req_dec_T x 0) as [-> | Hx]; [rewrite round_0; discriminate |].
  destruct (round_cases x Hx) as (_ & [[-> _] | [[-> _] | [-> _]]]); discriminate.
Qed.

(** The error of a finite result. *)
Lemma round_error_ulp (x y : R) :
  round precision emin emax x = Fin y -> Rabs (y - x) <= ulp precision emin x / 2.
Proof.
  intros Hr. destruct (Req_dec_T x 0) as [-> | Hx].
  - rewrite round_0 in Hr. injection Hr as <-.
    rewrite Rminus_diag, Rabs_R0. pose proof (ulp_pos 0). lra.
  - destruct (round_cases x Hx) as (He & [[Hy _] | [[Hy _] | [Hy _]]]);
      rewrite Hy in Hr; [| discriminate | discriminate].
    injection Hr as <-. exact He.
Qed.

Lemma round_error (x y : R) :
  round precision emin emax x = Fin y ->
  Rabs (y - x) <= powerRZ 2 (- precision) * Rabs x + powerRZ 2 (emin - precision).
Proof.
  intros Hr. destruct (Req_dec_T x 0) as [-> | Hx].
  - rewrite round_0 in Hr. injection Hr as <-.
    rewrite Rminus_diag, Rabs_R0. pose proof (Pow2.pos (emin - precision)). lra.
  - pose proof (round_error_ulp x y Hr) as He.
    pose proof (Pow2.pos (- precision)). pose proof (Pow2.pos (emin - precision)).
    pose proof (Rabs_pos x).
    destruct (half_ulp_le x Hx); nra.
Qed.

Lemma round_error_normal (x y : R) :
  powerRZ 2 emin <= Rabs x ->
  round precision emin emax x = Fin y ->
  Rabs (y - x) <= powerRZ 2 (- precision) * Rabs x.
Proof.
  intros Hn Hr. pose proof (round_error_ulp x y Hr).
  pose proof (half_ulp_normal x Hn). lra.
Qed.

(** A finite result is below the overflow threshold. *)
Lemma round_lt (x y : R) :
  round precision emin emax x = Fin y -> Rabs y < powerRZ 2 emax.
Proof.
  intros Hr. destruct (Req_dec_T x 0) as [-> | Hx].
  - rewrite round_0 in Hr. injection Hr as <-. rewrite Rabs_R0. apply Pow2.pos.
  - destruct (round_cases x Hx) as (_ & [[Hy Hlt] | [[Hy _] | [Hy _]]]);
      rewrite Hy in Hr; [| discriminate | discriminate].
    injection Hr as <-. exact Hlt.
Qed.

Lemma small_constants :
  powerRZ 2 (- precision) <= / 4
  /\ powerRZ 2 (emin - precision) <= powerRZ 2 (emax - 1) / 4.
Proof.
  split.
  - pose proof (Pow2.le (- precision) (- 2) ltac:(lia)) as H.
    simpl in H. lra.
  - pose proof (Pow2.le (emin - precision) (emax - 1 + - 2) ltac:(lia)) as H.
    rewrite Pow2.add in H. simpl in H. lra.
Qed.

(** A result is infinite only beyond [2 ^ (emax - 1)]. *)
Lemma round_overflow (x : R) :
  round precision emin emax x = PInf \/ round precision emin emax x = NInf ->
  powerRZ 2 (emax - 1) < Rabs x.
Proof.
  intros Hr.
  assert (Hx : x <> 0).
  { intros ->. rewrite round_0 in Hr. destruct Hr; discriminate. }
  destruct (round_cases x Hx) as (He & Hc).
  set (y := IZR (nearest_even (x / ulp precision emin x)) * ulp precision emin x) in *.
  assert (Hy : powerRZ 2 emax <= Rabs y).
  { destruct Hc as [[Hy _] | [[_ [_ H]] | [_ [_ H]]]]; try exact H.
    rewrite Hy in Hr. destruct Hr; discriminate. }
  destruct small_constants as [Hu Heta].
  pose proof (Pow2.pos (- precision)). pose proof (Pow2.pos (emin - precision)).
  pose proof (Pow2.pos (emax - 1)). pose proof (Rabs_pos x).
  replace emax with ((emax - 1) + 1)%Z in Hy by lia. rewrite Pow2.succ in Hy.
  assert (Htri : Rabs y <= Rabs x + Rabs (y - x)).
  { replace y with (x + (y - x)) at 1 by ring. apply Rabs_triang. }
  destruct (half_ulp_le x Hx); nra.
Qed.

Lemma round_finite (x : R) :
  Rabs x <= powerRZ 2 (emax - 1) -> exists y : R, round precision emin emax x = Fin y.
Proof.
  intros Hx. destruct (round precision emin emax x) as [y | | |] eqn:Hr; [eauto | | |].
  - pose proof (round_overflow x (or_introl Hr)). lra.
  - pose proof (round_overflow x (or_intror Hr)). lra.
  - now apply round_not_NaN in Hr.
Qed.

(** A finite result other than zero is not below the least number of the
    format. *)
Lemma round_grid (x y : R) :
  round precision emin emax x = Fin y ->
  y = 0 \/ powerRZ 2 (emin - precision + 1) <= Rabs y.
Proof.
  intros Hr. destruct (Req_dec_T x 0) as [-> | Hx].
  - rewrite round_0 in Hr. injection Hr as <-. now left.
  - destruct (round_cases x Hx) as (_ & [[Hy _] | [[Hy _] | [Hy _]]]);
      rewrite Hy in Hr; [| discriminate | discriminate].
    injection Hr as <-.
    set (n := nearest_even (x / ulp precision emin x)).
    destruct (Z.eq_dec n 0%Z) as [Hn | Hn]; [left; rewrite Hn; ring |]. right.
    rewrite Rabs_mult, (Rabs_right (ulp precision emin x))
      by (pose proof (ulp_pos x); lra).
    assert (H1 : 1 <= Rabs (IZR n)).
    { rewrite <- abs_IZR. apply IZR_le. lia. }
    pose proof (ulp_ge x). pose proof (Pow2.pos (emin - precision + 1)). nra.
Qed.

(** Rounding keeps the sign and commutes with the opposite. *)
Lemma round_nonneg (x y : R) :
  0 <= x -> round precision emin emax x = Fin y -> 0 <= y.
Proof.
  intros Hx0 Hr. destruct (Req_dec_T x 0) as [-> | Hx].
  - rewrite round_0 in Hr. injection Hr as <-. lra.
  - destruct (round_cases x Hx) as (_ & [[Hy _] | [[Hy _] | [Hy _]]]);
      rewrite Hy in Hr; [| discriminate | discriminate].
    injection Hr as <-. pose proof (ulp_pos x) as Hu.
    assert (Ht : 0 <= x / ulp precision emin x).
    { apply Rmult_le_pos; [lra |]. left. now apply Rinv_0_lt_compat. }
    apply nearest_even_nonneg in Ht. apply IZR_le in Ht. nra.
Qed.

Lemma round_opp (x : R) :
  round precision emin emax (- x) = Number.neg (round precision emin emax x).
Proof.
  unfold round. rewrite ulp_opp.
  destruct (Req_dec_T x 0) as [-> | Hx].
  - rewrite Ropp_0. destruct (Req_dec_T 0 0); [simpl; f_equal; ring | lra].
  - destruct (Req_dec_T (- x) 0) as [H0 | _]; [lra |].
    replace (- x / ulp precision emin x) with (- (x / ulp precision emin x))
      by (field; pose proof (ulp_pos x); lra).
    rewrite nearest_even_opp, opp_IZR.
    replace (- IZR (nearest_even (x / ulp precision emin x)) * ulp precision emin x)
      with (- (IZR (nearest_even (x / ulp precision emin x)) * ulp precision emin x))
      by ring.
    rewrite Rabs_Ropp.
    destruct (Rle_dec _ _); simpl.
    + destruct (Rlt_dec 0 (- x)), (Rlt_dec 0 x); simpl; try reflexivity; lra.
    + reflexivity.
Qed.

(** The grid around a number of the normal or subnormal range. *)
Lemma ulp_eq (x : R) (k : Z) :
  (emin - precision + 1 <= k)%Z ->
  Rabs x < powerRZ 2 (k + precision) ->
  (k = emin - precision + 1)%Z \/ powerRZ 2 (k + precision - 1) <= Rabs x ->
  x <> 0 ->
  ulp precision emin x = powerRZ 2 k.
Proof.
  intros Hk Hlt Hge Hx. unfold IEEE.ulp. f_equal.
  destruct (mag_spec x Hx) as [H1 H2].
  assert (Hm : (mag x < k + precision)%Z) by (apply Pow2.lt_inv; lra).
  destruct Hge as [-> | Hge]; [lia |].
  assert (Hm' : (k + precision - 1 < mag x + 1)%Z) by (apply Pow2.lt_inv; lra).
  lia.
Qed.

(** Rounding by hand: an integer less than one half away from
    [x / 2 ^ k], where [2 ^ k] is the grid around [x]. *)
Lemma round_eq (x : R) (n k : Z) :
  (emin - precision + 1 <= k)%Z ->
  Rabs x < powerRZ 2 (k + precision) ->
  (k = emin - precision + 1)%Z \/ powerRZ 2 (k + precision - 1) <= Rabs x ->
  Rabs (IZR n * powerRZ 2 k - x) < powerRZ 2 k / 2 ->
  Rabs (IZR n * powerRZ 2 k) < powerRZ 2 emax ->
  round precision emin emax x = Fin (IZR n * powerRZ 2 k).
Proof.
  intros Hk Hlt Hge Hn Hfin. pose proof (Pow2.pos k) as Hpk.
  destruct (Req_dec_T x 0) as [-> | Hx].
  - rewrite round_0. f_equal.
    rewrite Rminus_0_r, Rabs_mult, (Rabs_right (powerRZ 2 k)) in Hn by lra.
    assert (Hz : Rabs (IZR n) < 1) by nra.
    rewrite <- abs_IZR in Hz. apply lt_IZR in Hz.
    assert (n = 0%Z) by lia. subst n. ring.
  - unfold round. destruct (Req_dec_T x 0) as [| _]; [contradiction |].
    rewrite (ulp_eq x k Hk Hlt Hge Hx).
    assert (Hne : nearest_even (x / powerRZ 2 k) = n).
    { apply nearest_even_unique.
      replace (IZR n - x / powerRZ 2 k)
        with ((IZR n * powerRZ 2 k - x) * / powerRZ 2 k) by (field; lra).
      rewrite Rabs_mult, (Rabs_right (/ powerRZ 2 k))
        by (left; apply Rinv_0_lt_compat; lra).
      apply Rmult_lt_reg_r with (powerRZ 2 k); [lra |].
      rewrite Rmult_assoc, Rinv_l by lra. lra. }
    rewrite Hne. destruct (Rle_dec _ _); [lra | reflexivity].
Qed.

(** A number of the format is its own rounding. *)
Lemma round_representable (n k : Z) :
  (Z.abs n < 2 ^ precision)%Z ->
  (emin - precision + 1 <= k)%Z ->
  Rabs (IZR n * powerRZ 2 k) < powerRZ 2 emax ->
  round precision emin emax (IZR n * powerRZ 2 k) = Fin (IZR n * powerRZ 2 k).
Proof.
  intros Hn Hk Hfin. set (y := IZR n * powerRZ 2 k) in *.
  pose proof (Pow2.pos k) as Hpk.
  destruct (Req_dec_T y 0) as [Hy | Hy]; [rewrite Hy; apply round_0 |].
  destruct (mag_spec y Hy) as [H1 H2].
  assert (Hay : Rabs y < powerRZ 2 (k + precision)).
  { unfold y. rewrite Rabs_mult, (Rabs_right (powerRZ 2 k)) by lra.
    rewrite <- abs_IZR. apply IZR_lt in Hn.
    rewrite <- pow2_IZR in Hn by lia. rewrite Z.add_comm, Pow2.add. nra. }
  assert (Hm : (mag y < k + precision)%Z) by (apply Pow2.lt_inv; lra).
  set (j := (Z.max (mag y) emin - precision + 1)%Z).
  assert (Hj : (j <= k)%Z) by (unfold j; lia).
  assert (Hu : ulp precision emin y = powerRZ 2 j) by reflexivity.
  assert (Hy' : y = IZR (n * 2 ^ (k - j)) * powerRZ 2 j).
  { rewrite mult_IZR, <- pow2_IZR by lia. unfold y.
    replace k with ((k - j) + j)%Z at 1 by lia. rewrite Pow2.add. ring. }
  unfold round. destruct (Req_dec_T y 0) as [| _]; [contradiction |].
  rewrite Hu. pose proof (Pow2.pos j) as Hpj.
  replace (y / powerRZ 2 j) with (IZR (n * 2 ^ (k - j)))
    by (rewrite Hy' at 1; field; lra).
  rewrite nearest_even_IZR, <- Hy'.
  destruct (Rle_dec _ _); [lra | reflexivity].
Qed.

(** Rounding is monotone. *)
Lemma mag_monotone (x x' : R) : 0 < x <= x' -> (mag x <= mag x')%Z.
Proof.
  intros [H0 Hle].
  destruct (mag_spec x ltac:(lra)) as [H1 _].
  destruct (mag_spec x' ltac:(lra)) as [_ H2].
  rewrite Rabs_right in H1, H2 by lra.
  assert (mag x < mag x' + 1)%Z by (apply Pow2.lt_inv; lra). lia.
Qed.

Lemma round_monotone_pos (x x' y y' : R) :
  0 < x <= x' ->
  round precision emin emax x = Fin y -> round precision emin emax x' = Fin y' ->
  y <= y'.
Proof.
  intros [H0 Hle] Hr Hr'.
  destruct (round_cases x ltac:(lra)) as (_ & [[Hy _] | [[Hy _] | [Hy _]]]);
    rewrite Hy in Hr; [| discriminate | discriminate].
  destruct (round_cases x' ltac:(lra)) as (_ & [[Hy' _] | [[Hy' _] | [Hy' _]]]);
    rewrite Hy' in Hr'; [| discriminate | discriminate].
  injection Hr as <-. injection Hr' as <-. clear Hy Hy'.
  pose proof (mag_monotone x x' (conj H0 Hle)) as Hm.
  destruct (mag_spec x ltac:(lra)) as [H1 H2].
  destruct (mag_spec x' ltac:(lra)) as [H1' H2'].
  rewrite Rabs_right in H1, H2, H1', H2' by lra.
  unfold IEEE.ulp.
  set (e := Z.max (mag x) emin). set (e' := Z.max (mag x') emin).
  assert (He : (e <= e')%Z) by (unfold e, e'; lia).
  pose proof (Pow2.pos (e - precision + 1)) as Hpe.
  pose proof (Pow2.pos (e' - precision + 1)) as Hpe'.
  destruct (Z.eq_dec e e') as [Heq | Hne].
  - rewrite <- Heq.
    assert (Ht : x / powerRZ 2 (e - precision + 1) <= x' / powerRZ 2 (e - precision + 1)).
    { unfold Rdiv. apply Rmult_le_compat_r; [| lra].
      left. now apply Rinv_0_lt_compat. }
    apply nearest_even_monotone, IZR_le in Ht. nra.
  - assert (He' : e' = mag x') by (unfold e, e' in *; lia).
    assert (Hee : (e + 1 <= e')%Z) by lia.
    (* [y <= 2 ^ (e + 1) <= 2 ^ e' <= y'] *)
    assert (Hy : IZR (nearest_even (x / powerRZ 2 (e - precision + 1)))
                 * powerRZ 2 (e - precision + 1) <= powerRZ 2 (e + 1)).
    { assert (Hx : x <= powerRZ 2 (e + 1)).
      { pose proof (Pow2.le (mag x + 1) (e + 1) ltac:(unfold e; lia)). lra. }
      assert (Ht : x / powerRZ 2 (e - precision + 1) <= IZR (2 ^ precision)).
      { rewrite <- pow2_IZR by lia.
        apply Rmult_le_reg_r with (powerRZ 2 (e - precision + 1)); [lra |].
        unfold Rdiv. rewrite Rmult_assoc, Rinv_l, Rmult_1_r by lra.
        rewrite <- (Pow2.add precision). replace (precision + (e - precision + 1))%Z
          with (e + 1)%Z by lia. exact Hx. }
      apply nearest_even_monotone in Ht. rewrite nearest_even_IZR in Ht.
      apply IZR_le in Ht. rewrite <- pow2_IZR in Ht by lia.
      replace (e + 1)%Z with (precision + (e - precision + 1))%Z by lia.
      rewrite (Pow2.add precision). apply Rmult_le_compat_r; lra. }
    assert (Hy' : powerRZ 2 e'
                  <= IZR (nearest_even (x' / powerRZ 2 (e' - precision + 1)))
                     * powerRZ 2 (e' - precision + 1)).
    { assert (Ht : IZR (2 ^ (precision - 1)) <= x' / powerRZ 2 (e' - precision + 1)).
      { rewrite <- pow2_IZR by lia.
        apply Rmult_le_reg_r with (powerRZ 2 (e' - precision + 1)); [lra |].
        unfold Rdiv. rewrite Rmult_assoc, Rinv_l, Rmult_1_r by lra.
        rewrite <- (Pow2.add (precision - 1)).
        replace (precision - 1 + (e' - precision + 1))%Z with e' by lia.
        rewrite He'. exact H1'. }
      apply nearest_even_monotone in Ht. rewrite nearest_even_IZR in Ht.
      apply IZR_le in Ht. rewrite <- pow2_IZR in Ht by lia.
      replace e' with (precision - 1 + (e' - precision + 1))%Z at 1 by lia.
      rewrite (Pow2.add (precision - 1)). apply Rmult_le_compat_r; lra. }
    pose proof (Pow2.le (e + 1) e' Hee). lra.
Qed.

Lemma round_nonpos (x y : R) :
  x <= 0 -> round precision emin emax x = Fin y -> y <= 0.
Proof.
  intros Hx Hr.
  assert (H : round precision emin emax (- x) = Fin (- y))
    by (rewrite round_opp, Hr; reflexivity).
  apply round_nonneg in H; lra.
Qed.

Lemma round_monotone (x x' y y' : R) :
  x <= x' ->
  round precision emin emax x = Fin y -> round precision emin emax x' = Fin y' ->
  y <= y'.
Proof.
  intros Hle Hr Hr'.
  destruct (Rlt_le_dec 0 x) as [Hx | Hx].
  - now apply (round_monotone_pos x x').
  - destruct (Rlt_le_dec x' 0) as [Hx' | Hx'].
    + assert (H : round precision emin emax (- x) = Fin (- y))
        by (rewrite round_opp, Hr; reflexivity).
      assert (H' : round precision emin emax (- x') = Fin (- y'))
        by (rewrite round_opp, Hr'; reflexivity).
      pose proof (round_monotone_pos (- x') (- x) (- y') (- y) ltac:(lra) H' H). lra.
    + pose proof (round_nonpos x y Hx Hr). pose proof (round_nonneg x' y' Hx' Hr'). lra.
Qed.

End Format.

End Rounding.

(** ** The two formats *)

Module Binary.

Import IEEE.
Local Open Scope R_scope.

Lemma rounded_Fin_inv (p emin emax : Z) (a : number) (y : R) :
  rounded p emin emax a = Fin y -> exists x : R, a = Fin x /\ round p emin emax x = Fin y.
Proof. destruct a as [x | | |]; simpl; [eauto | discriminate..]. Qed.

Lemma rounded_NaN (p emin emax : Z) (a : number) :
  (2 <= p)%Z -> (emin < emax)%Z -> rounded p emin emax a = NaN -> a = NaN.
Proof.
  intros Hp He. destruct a as [x | | |]; simpl; try discriminate; [| reflexivity].
  intros H. now apply Rounding.round_not_NaN in H.
Qed.

(** [binary64] *)

Lemma b64_Fin_inv (a : number) (y : R) :
  binary64 a = Fin y -> exists x : R, a = Fin x /\ binary64 (Fin x) = Fin y.
Proof. intros H. apply rounded_Fin_inv in H as (x & -> & H). eauto. Qed.

Lemma b64_NaN (a : number) : binary64 a = NaN <-> a = NaN.
Proof.
  split; [apply rounded_NaN; lia | intros ->; reflexivity].
Qed.

Lemma b64_0 : binary64 (Fin 0) = Fin 0.
Proof. apply Rounding.round_0. Qed.

Lemma b64_error (x y : R) :
  binary64 (Fin x) = Fin y ->
  Rabs (y - x) <= powerRZ 2 (-53) * Rabs x + powerRZ 2 (-1075).
Proof. apply (Rounding.round_error 53 (-1022) 1024). Qed.

Lemma b64_error_normal (x y : R) :
  x = 0 \/ powerRZ 2 (-1022) <= Rabs x ->
  binary64 (Fin x) = Fin y ->
  Rabs (y - x) <= powerRZ 2 (-53) * Rabs x.
Proof.
  intros [-> | Hx] H.
  - rewrite b64_0 in H. injection H as <-. rewrite Rminus_diag, Rabs_R0. lra.
  - now apply (Rounding.round_error_normal 53 (-1022) 1024).
Qed.

Lemma b64_lt (x y : R) : binary64 (Fin x) = Fin y -> Rabs y < powerRZ 2 1024.
Proof. apply (Rounding.round_lt 53 (-1022) 1024). Qed.

Lemma b64_finite (x : R) :
  Rabs x <= powerRZ 2 1023 -> exists y : R, binary64 (Fin x) = Fin y.
Proof. apply (Rounding.round_finite 53 (-1022) 1024); lia. Qed.

Lemma b64_overflow (x : R) :
  binary64 (Fin x) = PInf \/ binary64 (Fin x) = NInf -> powerRZ 2 1023 < Rabs x.
Proof. apply (Rounding.round_overflow 53 (-1022) 1024); lia. Qed.

Lemma b64_grid (x y : R) :
  binary64 (Fin x) = Fin y -> y = 0 \/ powerRZ 2 (-1074) <= Rabs y.
Proof. apply (Rounding.round_grid 53 (-1022) 1024). Qed.

Lemma b64_nonneg (x y : R) : 0 <= x -> binary64 (Fin x) = Fin y -> 0 <= y.
Proof. apply (Rounding.round_nonneg 53 (-1022) 1024). Qed.

Lemma b64_monotone (x x' y y' : R) :
  x <= x' -> binary64 (Fin x) = Fin y -> binary64 (Fin x') = Fin y' -> y <= y'.
Proof. apply (Rounding.round_monotone 53 (-1022) 1024); lia. Qed.

Lemma b64_representable (n k : Z) :
  (Z.abs n < 2 ^ 53)%Z -> (-1074 <= k)%Z ->
  Rabs (IZR n * powerRZ 2 k) < powerRZ 2 1024 ->
  binary64 (Fin (IZR n * powerRZ 2 k)) = Fin (IZR n * powerRZ 2 k).
Proof. intros Hn Hk. apply (Rounding.round_representable 53 (-1022) 1024); lia. Qed.

(** [binary32] *)

Lemma b32_Fin_inv (a : number) (y : R) :
  binary32 a = Fin y -> exists x : R, a = Fin x /\ binary32 (Fin x) = Fin y.
Proof. intros H. apply rounded_Fin_inv in H as (x & -> & H). eauto. Qed.

Lemma b32_NaN (a : number) : binary32 a = NaN <-> a = NaN.
Proof.
  split; [apply rounded_NaN; lia | intros ->; reflexivity].
Qed.

Lemma b32_0 : binary32 (Fin 0) = Fin 0.
Proof. apply Rounding.round_0. Qed.

Lemma b32_error (x y : R) :
  binary32 (Fin x) = Fin y ->
  Rabs (y - x) <= powerRZ 2 (-24) * Rabs x + powerRZ 2 (-150).
Proof. apply (Rounding.round_error 24 (-126) 128). Qed.

Lemma b32_lt (x y : R) : binary32 (Fin x) = Fin y -> Rabs y < powerRZ 2 128.
Proof. apply (Rounding.round_lt 24 (-126) 128). Qed.

Lemma b32_finite (x : R) :
  Rabs x <= powerRZ 2 127 -> exists y : R, binary32 (Fin x) = Fin y.
Proof. apply (Rounding.round_finite 24 (-126) 128); lia. Qed.

Lemma b32_grid (x y : R) :
  binary32 (Fin x) = Fin y -> y = 0 \/ powerRZ 2 (-149) <= Rabs y.
Proof. apply (Rounding.round_grid 24 (-126) 128). Qed.

Lemma b32_nonneg (x y : R) : 0 <= x -> binary32 (Fin x) = Fin y -> 0 <= y.
Proof. apply (Rounding.round_nonneg 24 (-126) 128). Qed.

Lemma b32_monotone (x x' y y' : R) :
  x <= x' -> binary32 (Fin x) = Fin y -> binary32 (Fin x') = Fin y' -> y <= y'.
Proof. apply (Rounding.round_monotone 24 (-126) 128); lia. Qed.

Lemma b32_representable (n k : Z) :
  (Z.abs n < 2 ^ 24)%Z -> (-149 <= k)%Z ->
  Rabs (IZR n * powerRZ 2 k) < powerRZ 2 128 ->
  binary32 (Fin (IZR n * powerRZ 2 k)) = Fin (IZR n * powerRZ 2 k).
Proof. intros Hn Hk. apply (Rounding.round_representable 24 (-126) 128); lia. Qed.

End Binary.

(** * The script in IEEE 754 arithmetic *)

(** ** The blocks and the loops *)

Section IeeeBlocks.

Variable u : Uniforms.
Implicit Types (a velocities positions : list number) (f : vec).

Lemma ieee_update_velocity_write3 (i3 : nat) f velocities :
  (i3 + 2 < length velocities)%nat ->
  Script.update_velocity u i3 f velocities
  = write3 i3 (Script.Step.integrate_velocity (timeScale u) f (read3 velocities i3))
      velocities.
Proof.
  intros Hi. destruct f as [[fx fy] fz].
  unfold Script.update_velocity, Script.Step.integrate_velocity, read3, write3; simpl.
  read_back. reflexivity.
Qed.

Lemma ieee_apply_speed_limit_write3 (i3 : nat) velocities :
  (i3 + 2 < length velocities)%nat ->
  Script.apply_speed_limit u i3 velocities
  = write3 i3 (Script.Step.speed_limit (maxSpeed u) (read3 velocities i3)) velocities.
Proof.
  intros Hi. unfold Script.apply_speed_limit, Script.Step.speed_limit, read3.
  destruct (IEEE.gt _ _).
  - unfold write3; simpl. read_back. reflexivity.
  - symmetry. apply write3_read3.
Qed.

Lemma ieee_apply_damping_write3 (i3 : nat) velocities :
  (i3 + 2 < length velocities)%nat ->
  Script.apply_damping u i3 velocities
  = write3 i3 (Script.Step.damp (velocityDamping u) (read3 velocities i3)) velocities.
Proof.
  intros Hi. unfold Script.apply_damping, Script.Step.damp, read3, write3; simpl.
  read_back. reflexivity.
Qed.

Lemma ieee_update_position_write3 (i3 : nat) velocities positions :
  (i3 + 2 < length positions)%nat ->
  Script.update_position u i3 velocities positions
  = write3 i3
      (Script.Step.integrate_position (timeScale u) (read3 velocities i3)
         (read3 positions i3))
      positions.
Proof.
  intros Hi.
  unfold Script.update_position, Script.Step.integrate_position, read3, write3; simpl.
  read_back. reflexivity.
Qed.

Lemma ieee_box_loop_write3 (i3 : nat) positions :
  (i3 + 2 < length positions)%nat ->
  Script.box_loop u i3 positions
  = write3 i3 (Script.Step.wrap (boundHalfExtent u) (read3 positions i3)) positions.
Proof.
  intros Hi.
  unfold Script.box_loop, Script.Step.wrap, Script.Step.wrap1, read3, write3; simpl.
  read_back. reflexivity.
Qed.

End IeeeBlocks.

Section IeeeLoops.

Variable PARTICLE_COUNT ATTRACTOR_COUNT : nat.
Variable u : Uniforms.

Lemma ieee_attract_ext positions positions' masses masses' (i j : nat) f :
  read3 positions (i * 3) = read3 positions' (i * 3) ->
  masses.[i] = masses'.[i] ->
  Script.attract u positions masses i j f = Script.attract u positions' masses' i j f.
Proof.
  unfold read3. intros [= H0 H1 H2] Hm. unfold Script.attract.
  rewrite H0, H1, H2, Hm. reflexivity.
Qed.

Lemma ieee_forces_ext positions positions' masses masses' (i : nat) :
  read3 positions (i * 3) = read3 positions' (i * 3) ->
  masses.[i] = masses'.[i] ->
  Script.forces ATTRACTOR_COUNT u positions masses i
  = Script.forces ATTRACTOR_COUNT u positions' masses' i.
Proof.
  intros Hp Hm. unfold Script.forces. apply for_ext. intros j f _.
  destruct f as [f |]; simpl; [| reflexivity]. now apply ieee_attract_ext.
Qed.

Lemma ieee_attract_is_Some positions masses (i j : nat) f :
  attractors_loaded ATTRACTOR_COUNT u -> (j < ATTRACTOR_COUNT)%nat ->
  is_Some (Script.attract u positions masses i j f).
Proof.
  intros [Hp Ha] Hj. unfold Script.attract. destruct f as [[fx fy] fz].
  destruct (lookup_lt_is_Some_2 (attractorPositions u) j ltac:(lia)) as [aP ->].
  destruct (lookup_lt_is_Some_2 (attractorRotationAxes u) j ltac:(lia)) as [aR ->].
  simpl. eauto.
Qed.

Lemma ieee_forces_is_Some positions masses (i : nat) :
  attractors_loaded ATTRACTOR_COUNT u ->
  is_Some (Script.forces ATTRACTOR_COUNT u positions masses i).
Proof.
  intros Hu. unfold Script.forces.
  assert (H : forall count start f, (start + count <= ATTRACTOR_COUNT)%nat ->
    is_Some (for_ start count
               (fun j f => f ≫= Script.attract u positions masses i j) (Some f))).
  { induction count as [| k IH]; intros start f Hk; simpl; [eauto |].
    destruct (ieee_attract_is_Some positions masses i start f Hu ltac:(lia)) as [f' ->].
    apply IH. lia. }
  apply H. lia.
Qed.

(** One iteration on a particle whose entries exist. *)
Lemma ieee_particle_write3 (i : nat) g :
  (i * 3 + 2 < length (position g))%nat ->
  (i * 3 + 2 < length (velocity g))%nat ->
  Script.particle ATTRACTOR_COUNT u i g
  = f ← Script.forces ATTRACTOR_COUNT u (position g) (particleMass g) i;
    let v' := Script.Step.velocity u f (read3 (velocity g) (i * 3)) in
    Some {| position :=
              write3 (i * 3) (Script.Step.position u v' (read3 (position g) (i * 3)))
                (position g);
            velocity := write3 (i * 3) v' (velocity g);
            particleMass := particleMass g |}.
Proof.
  intros Hp Hv. unfold Script.particle.
  destruct (Script.forces _ _ _ _ _) as [f |]; simpl; [| reflexivity].
  rewrite ieee_update_velocity_write3 by assumption.
  rewrite ieee_apply_speed_limit_write3 by (rewrite length_write3; assumption).
  rewrite ieee_apply_damping_write3 by (rewrite !length_write3; assumption).
  rewrite ieee_update_position_write3 by assumption.
  rewrite ieee_box_loop_write3 by (rewrite length_write3; assumption).
  rewrite !read3_write3 by (rewrite ?length_write3; assumption).
  rewrite !write3_write3. reflexivity.
Qed.

(** What one iteration leaves alone. *)
Ltac ieee_frame := intros; repeat (rewrite list_lookup_insert_ne by lia); reflexivity.

Lemma ieee_update_velocity_frame (i3 j : nat) f a :
  (j < i3 \/ i3 + 2 < j)%nat -> Script.update_velocity u i3 f a !! j = a !! j.
Proof. destruct f as [[fx fy] fz]. unfold Script.update_velocity. ieee_frame. Qed.

Lemma ieee_apply_speed_limit_frame (i3 j : nat) a :
  (j < i3 \/ i3 + 2 < j)%nat -> Script.apply_speed_limit u i3 a !! j = a !! j.
Proof. unfold Script.apply_speed_limit. destruct (IEEE.gt _ _); ieee_frame. Qed.

Lemma ieee_apply_damping_frame (i3 j : nat) a :
  (j < i3 \/ i3 + 2 < j)%nat -> Script.apply_damping u i3 a !! j = a !! j.
Proof. unfold Script.apply_damping. ieee_frame. Qed.

Lemma ieee_update_position_frame (i3 j : nat) v a :
  (j < i3 \/ i3 + 2 < j)%nat -> Script.update_position u i3 v a !! j = a !! j.
Proof. unfold Script.update_position. ieee_frame. Qed.

Lemma ieee_box_loop_frame (i3 j : nat) a :
  (j < i3 \/ i3 + 2 < j)%nat -> Script.box_loop u i3 a !! j = a !! j.
Proof. unfold Script.box_loop. ieee_frame. Qed.

Lemma ieee_length_update_velocity (i3 : nat) f a :
  length (Script.update_velocity u i3 f a) = length a.
Proof.
  destruct f as [[fx fy] fz]. unfold Script.update_velocity. now rewrite !length_insert.
Qed.

Lemma ieee_length_apply_speed_limit (i3 : nat) a :
  length (Script.apply_speed_limit u i3 a) = length a.
Proof.
  unfold Script.apply_speed_limit. destruct (IEEE.gt _ _); now rewrite ?length_insert.
Qed.

Lemma ieee_length_apply_damping (i3 : nat) a :
  length (Script.apply_damping u i3 a) = length a.
Proof. unfold Script.apply_damping. now rewrite !length_insert. Qed.

Lemma ieee_length_update_position (i3 : nat) v a :
  length (Script.update_position u i3 v a) = length a.
Proof. unfold Script.update_position. now rewrite !length_insert. Qed.

Lemma ieee_length_box_loop (i3 : nat) a : length (Script.box_loop u i3 a) = length a.
Proof. unfold Script.box_loop. now rewrite !length_insert. Qed.

Lemma ieee_particle_frame (i : nat) g g' :
  Script.particle ATTRACTOR_COUNT u i g = Some g' -> same_outside i g g'.
Proof.
  unfold Script.particle.
  destruct (Script.forces _ _ _ _ _) as [f |]; simpl; [| discriminate].
  intros [= <-]. unfold same_outside; simpl. repeat split.
  - now rewrite ieee_length_box_loop, ieee_length_update_position.
  - now rewrite ieee_length_apply_damping, ieee_length_apply_speed_limit,
      ieee_length_update_velocity.
  - now rewrite ieee_box_loop_frame, ieee_update_position_frame.
  - now rewrite ieee_apply_damping_frame, ieee_apply_speed_limit_frame,
      ieee_update_velocity_frame.
Qed.

(** The loop over the particles. *)
Lemma ieee_particles_loop count :
  attractors_loaded ATTRACTOR_COUNT u ->
  forall start g,
  exists g',
    for_ start count (fun i g => g ≫= Script.particle ATTRACTOR_COUNT u i) (Some g)
    = Some g'
    /\ particleMass g' = particleMass g
    /\ length (position g') = length (position g)
    /\ length (velocity g') = length (velocity g)
    /\ (forall j, (j < start * 3 \/ (start + count) * 3 <= j)%nat ->
          position g' !! j = position g !! j /\ velocity g' !! j = velocity g !! j)
    /\ (forall i f, (start <= i < start + count)%nat ->
          (i * 3 + 2 < length (position g))%nat ->
          (i * 3 + 2 < length (velocity g))%nat ->
          Script.forces ATTRACTOR_COUNT u (position g) (particleMass g) i = Some f ->
          let v' := Script.Step.velocity u f (read3 (velocity g) (i * 3)) in
          lookup3 (velocity g') (i * 3) = Some v'
          /\ lookup3 (position g') (i * 3)
             = Some (Script.Step.position u v' (read3 (position g) (i * 3)))).
Proof.
  intros Hu. induction count as [| k IH]; intros start g; simpl.
  { exists g. split_and!; try reflexivity.
    - intros j _. split; reflexivity.
    - intros i f Hi. lia. }
  destruct (ieee_forces_is_Some (position g) (particleMass g) start Hu) as [f0 Hf0].
  assert (H1 : exists g1, Script.particle ATTRACTOR_COUNT u start g = Some g1).
  { unfold Script.particle. rewrite Hf0. simpl. eauto. }
  destruct H1 as [g1 Hg1]. rewrite Hg1.
  destruct (ieee_particle_frame _ _ _ Hg1) as (Hm1 & Hlp1 & Hlv1 & Hout1).
  destruct (IH (S start) g1) as (g' & Hg' & Hm & Hlp & Hlv & Hout & Hin).
  exists g'. split; [exact Hg' |].
  split; [congruence |]. split; [congruence |]. split; [congruence |]. split.
  - intros j Hj.
    destruct (Hout j ltac:(lia)) as [-> ->]. apply Hout1. lia.
  - intros i f Hi Hp Hv Hf.
    destruct (decide (i = start)) as [-> | Hne].
    + rewrite ieee_particle_write3 in Hg1 by assumption.
      rewrite Hf in Hg1. simpl in Hg1. injection Hg1 as <-. simpl in *.
      set (v' := Script.Step.velocity u f (read3 (velocity g) (start * 3))).
      destruct (read3_lookup_eq (write3 (start * 3) v' (velocity g)) (velocity g')
                  (start * 3)) as [_ ->].
      { intros j Hj. apply Hout. lia. }
      destruct (read3_lookup_eq
                  (write3 (start * 3)
                     (Script.Step.position u v' (read3 (position g) (start * 3)))
                     (position g))
                  (position g') (start * 3)) as [_ ->].
      { intros j Hj. apply Hout. lia. }
      split; apply lookup3_write3; assumption.
    + destruct (read3_lookup_eq (position g) (position g1) (i * 3)) as [Hrp _].
      { intros j Hj. apply Hout1. lia. }
      destruct (read3_lookup_eq (velocity g) (velocity g1) (i * 3)) as [Hrv _].
      { intros j Hj. apply Hout1. lia. }
      destruct (Hin i f ltac:(lia) ltac:(lia) ltac:(lia)) as [H1 H2].
      { rewrite <- Hf. apply ieee_forces_ext; [exact Hrp | now rewrite Hm1]. }
      rewrite Hrv in H1, H2. rewrite Hrp in H2. auto.
Qed.

(** [updateParticles] on a particle whose entries exist: it returns, and
    the particle gets the velocity and the position of its own
    iteration. *)
Lemma ieee_updateParticles_particle (i : nat) g p v :
  attractors_loaded ATTRACTOR_COUNT u ->
  (i < PARTICLE_COUNT)%nat ->
  lookup3 (position g) (i * 3) = Some p ->
  lookup3 (velocity g) (i * 3) = Some v ->
  exists g' f,
    Script.updateParticles PARTICLE_COUNT ATTRACTOR_COUNT u g = Some g'
    /\ Script.forces ATTRACTOR_COUNT u (position g) (particleMass g) i = Some f
    /\ particleMass g' = particleMass g
    /\ lookup3 (velocity g') (i * 3) = Some (Script.Step.velocity u f v)
    /\ lookup3 (position g') (i * 3)
       = Some (Script.Step.position u (Script.Step.velocity u f v) p).
Proof.
  intros Hu Hi Hp Hv.
  destruct (ieee_forces_is_Some (position g) (particleMass g) i Hu) as [f Hf].
  destruct (ieee_particles_loop PARTICLE_COUNT Hu 0 g)
    as (g' & Hg' & Hm & _ & _ & _ & Hin).
  exists g', f. split; [exact Hg' |]. split; [exact Hf |]. split; [exact Hm |].
  destruct (Hin i f ltac:(lia) (lookup3_length _ _ _ Hp) (lookup3_length _ _ _ Hv) Hf)
    as [H1 H2].
  rewrite (lookup3_read3 _ _ _ Hv) in H1, H2.
  rewrite (lookup3_read3 _ _ _ Hp) in H2. auto.
Qed.

End IeeeLoops.

(** ** Finite results *)

Lemma ieee_add_Fin_inv (a b : number) (y : R) :
  IEEE.add a b = Fin y -> exists x c : R, a = Fin x /\ b = Fin c.
Proof.
  unfold IEEE.add. intros H. apply Binary.b64_Fin_inv in H as (s & H & _).
  now apply add_Fin_inv in H.
Qed.

Lemma ieee_mul_Fin_inv (a b : number) (y : R) :
  IEEE.mul a b = Fin y -> exists x c : R, a = Fin x /\ b = Fin c.
Proof.
  unfold IEEE.mul. intros H. apply Binary.b64_Fin_inv in H as (s & H & _).
  now apply mul_Fin_inv in H.
Qed.

Lemma b32_finite_inv (a : number) (y : R) :
  IEEE.binary32 a = Fin y -> exists x : R, a = Fin x.
Proof. intros H. apply Binary.b32_Fin_inv in H as (x & -> & _). eauto. Qed.

(** A stored product is finite only if both factors are. *)
Lemma stored_mul_Fin_inv (a b : number) (y : R) :
  IEEE.binary32 (IEEE.mul a b) = Fin y -> exists x c : R, a = Fin x /\ b = Fin c.
Proof.
  intros H. apply b32_finite_inv in H as (s & H). now apply ieee_mul_Fin_inv in H.
Qed.

Lemma ieee_damp_Fin_inv (d : R) (v : vec) (w : V3.t) :
  Script.Step.damp d v = fin3 w -> exists w0 : V3.t, v = fin3 w0.
Proof.
  destruct v as [[x y] z], w as [[w1 w2] w3]. unfold Script.Step.damp, fin3.
  intros [= H1 H2 H3].
  apply stored_mul_Fin_inv in H1 as (x1 & _ & -> & _).
  apply stored_mul_Fin_inv in H2 as (x2 & _ & -> & _).
  apply stored_mul_Fin_inv in H3 as (x3 & _ & -> & _).
  now exists (x1, x2, x3).
Qed.

Lemma ieee_speed_limit_Fin_inv (M : R) (v : vec) (w : V3.t) :
  Script.Step.speed_limit M v = fin3 w -> exists w0 : V3.t, v = fin3 w0.
Proof.
  destruct v as [[x y] z], w as [[w1 w2] w3]. unfold Script.Step.speed_limit, fin3.
  destruct (IEEE.gt _ _).
  - intros [= H1 H2 H3].
    apply stored_mul_Fin_inv in H1 as (x1 & _ & -> & _).
    apply stored_mul_Fin_inv in H2 as (x2 & _ & -> & _).
    apply stored_mul_Fin_inv in H3 as (x3 & _ & -> & _).
    now exists (x1, x2, x3).
  - intros [= -> -> ->]. now exists (w1, w2, w3).
Qed.

Lemma ieee_integrate_velocity_Fin_inv (dt : R) (f v : vec) (w : V3.t) :
  Script.Step.integrate_velocity dt f v = fin3 w ->
  exists f0 v0 : V3.t, f = fin3 f0 /\ v = fin3 v0.
Proof.
  destruct f as [[fx fy] fz], v as [[x y] z], w as [[w1 w2] w3].
  unfold Script.Step.integrate_velocity, fin3. intros [= H1 H2 H3].
  apply b32_finite_inv in H1 as (s1 & H1). apply ieee_add_Fin_inv in H1 as (x1 & t1 & -> & H1).
  apply b32_finite_inv in H2 as (s2 & H2). apply ieee_add_Fin_inv in H2 as (x2 & t2 & -> & H2).
  apply b32_finite_inv in H3 as (s3 & H3). apply ieee_add_Fin_inv in H3 as (x3 & t3 & -> & H3).
  apply ieee_mul_Fin_inv in H1 as (f1 & _ & -> & _).
  apply ieee_mul_Fin_inv in H2 as (f2 & _ & -> & _).
  apply ieee_mul_Fin_inv in H3 as (f3 & _ & -> & _).
  now exists (f1, f2, f3), (x1, x2, x3).
Qed.

(** A finite velocity after the loop body comes from a finite force and a
    finite velocity, over finite intermediate velocities. *)
Lemma ieee_velocity_Fin_inv (u : Uniforms) (f v : vec) (w : V3.t) :
  Script.Step.velocity u f v = fin3 w ->
  exists f0 v0 w1 w2 : V3.t,
    f = fin3 f0 /\ v = fin3 v0
    /\ Script.Step.integrate_velocity (timeScale u) f v = fin3 w1
    /\ Script.Step.speed_limit (maxSpeed u) (fin3 w1) = fin3 w2
    /\ Script.Step.damp (velocityDamping u) (fin3 w2) = fin3 w.
Proof.
  unfold Script.Step.velocity. intros H.
  destruct (ieee_damp_Fin_inv _ _ _ H) as (w2 & H2). rewrite H2 in H.
  destruct (ieee_speed_limit_Fin_inv _ _ _ H2) as (w1 & H1). rewrite H1 in H2.
  destruct (ieee_integrate_velocity_Fin_inv _ _ _ _ H1) as (f0 & v0 & -> & ->).
  exists f0, v0, w1, w2. auto.
Qed.

(** ** No gravity *)

Lemma b64_NaN_eq : IEEE.binary64 NaN = NaN.
Proof. reflexivity. Qed.

Lemma zn_mul_zero (a : number) : zero_or_NaN (IEEE.mul a (Fin 0)).
Proof.
  unfold IEEE.mul. destruct a as [x | | |]; unfold Number.mul, Number.signed_inf.
  - left. replace (x * 0)%R with 0%R by ring. apply Binary.b64_0.
  - right. destruct (Req_dec_T 0 0); [reflexivity | lra].
  - right. destruct (Req_dec_T 0 0); [reflexivity | lra].
  - now right.
Qed.

Lemma zn_mul_l (a b : number) : zero_or_NaN a -> zero_or_NaN (IEEE.mul a b).
Proof.
  unfold IEEE.mul. intros [-> | ->]; [| now right].
  destruct b as [y | | |]; unfold Number.mul, Number.signed_inf.
  - left. replace (0 * y)%R with 0%R by ring. apply Binary.b64_0.
  - right. destruct (Req_dec_T 0 0); [reflexivity | lra].
  - right. destruct (Req_dec_T 0 0); [reflexivity | lra].
  - now right.
Qed.

Lemma zn_div_l (a b : number) : zero_or_NaN a -> zero_or_NaN (IEEE.div a b).
Proof.
  unfold IEEE.div. intros [-> | ->]; [| now right].
  destruct b as [y | | |]; unfold Number.div.
  - destruct (Req_dec_T y 0) as [_ | Hy].
    + right. destruct (Req_dec_T 0 0); [reflexivity | lra].
    + left. replace (0 / y)%R with 0%R by (field; exact Hy). apply Binary.b64_0.
  - left. apply Binary.b64_0.
  - left. apply Binary.b64_0.
  - now right.
Qed.

Lemma zn_add (a b : number) :
  zero_or_NaN a -> zero_or_NaN b -> zero_or_NaN (IEEE.add a b).
Proof.
  unfold IEEE.add. intros [-> | ->] [-> | ->]; try (now right).
  left. rewrite NumberFacts.add_Fin. replace (0 + 0)%R with 0%R by ring.
  apply Binary.b64_0.
Qed.

(** Without gravity every accumulator of the loop over the attractors stays
    zero or becomes [NaN]. *)
Lemma ieee_attract_zero_gravity (u : Uniforms) positions masses (i j : nat)
    (fx fy fz fx' fy' fz' : number) :
  gravityConstant u = 0%R ->
  zero_or_NaN fx -> zero_or_NaN fy -> zero_or_NaN fz ->
  Script.attract u positions masses i j (fx, fy, fz) = Some (fx', fy', fz') ->
  zero_or_NaN fx' /\ zero_or_NaN fy' /\ zero_or_NaN fz'.
Proof.
  intros HG Hx Hy Hz. unfold Script.attract. rewrite HG.
  destruct (attractorPositions u !! j) as [aP |]; [| discriminate].
  destruct (attractorRotationAxes u !! j) as [aR |]; [| discriminate].
  cbn [mbind option_bind]. cbv zeta. intros [= <- <- <-].
  repeat split; repeat first
    [ assumption | apply zn_add | apply zn_mul_zero | apply zn_mul_l | apply zn_div_l ].
Qed.

Lemma ieee_forces_zero_gravity (n : nat) (u : Uniforms) positions masses (i : nat)
    (fx fy fz : number) :
  gravityConstant u = 0%R ->
  Script.forces n u positions masses i = Some (fx, fy, fz) ->
  zero_or_NaN fx /\ zero_or_NaN fy /\ zero_or_NaN fz.
Proof.
  intros HG. unfold Script.forces.
  assert (H : forall count start f0 f1 f2,
            zero_or_NaN f0 -> zero_or_NaN f1 -> zero_or_NaN f2 ->
            for_ start count (fun j f => f ≫= Script.attract u positions masses i j)
              (Some (f0, f1, f2)) = Some (fx, fy, fz) ->
            zero_or_NaN fx /\ zero_or_NaN fy /\ zero_or_NaN fz).
  { induction count as [| k IH]; intros start f0 f1 f2 H0 H1 H2;
      cbn [for_ mbind option_bind].
    - intros [= <- <- <-]. auto.
    - destruct (Script.attract u positions masses i start (f0, f1, f2))
        as [[[g0 g1] g2] |] eqn:Ha.
      + destruct (ieee_attract_zero_gravity _ _ _ _ _ _ _ _ _ _ _ HG H0 H1 H2 Ha)
          as (Hg0 & Hg1 & Hg2).
        now apply IH.
      + rewrite for_thrown. discriminate. }
  apply H; now left.
Qed.

(** A finite force without gravity is no force. *)
Lemma ieee_forces_zero_gravity_finite (n : nat) (u : Uniforms) positions masses
    (i : nat) (f0 : V3.t) :
  gravityConstant u = 0%R ->
  Script.forces n u positions masses i = Some (fin3 f0) ->
  fin3 f0 = (Fin 0, Fin 0, Fin 0).
Proof.
  intros HG Hf. destruct f0 as [[a b] c]. unfold fin3 in *.
  destruct (ieee_forces_zero_gravity _ _ _ _ _ _ _ _ HG Hf)
    as ([Ha | Ha] & [Hb | Hb] & [Hc | Hc]); try discriminate.
  now rewrite Ha, Hb, Hc.
Qed.

(** The velocity blocks read the uniforms [timeScale], [maxSpeed] and
    [velocityDamping] only; the position blocks [timeScale] and
    [boundHalfExtent]. *)
Lemma ieee_velocity_uniforms (u1 u2 : Uniforms) (f v : vec) :
  timeScale u2 = timeScale u1 -> maxSpeed u2 = maxSpeed u1 ->
  velocityDamping u2 = velocityDamping u1 ->
  Script.Step.velocity u2 f v = Script.Step.velocity u1 f v.
Proof. unfold Script.Step.velocity. now intros -> -> ->. Qed.

Lemma ieee_position_uniforms (u1 u2 : Uniforms) (v' p : vec) :
  timeScale u2 = timeScale u1 -> boundHalfExtent u2 = boundHalfExtent u1 ->
  Script.Step.position u2 v' p = Script.Step.position u1 v' p.
Proof. unfold Script.Step.position. now intros -> ->. Qed.

(** C7, as amended: with [gravityConstant = 0], for every particle whose
    velocity after the step is finite (neither [NaN] nor infinite), one step
    does not depend on the attractor configuration.  For two
    configurations that differ in the positions and the rotation axes of
    the attractors, in [attractorMass] and in [spinningStrength], the step
    returns, and the particle gets the same velocity and the same position
    under both; the velocity is that of the loop body without any force:
    the speed limit, then the factor [1 - velocityDamping]. *)
Theorem zero_gravity_independent (PARTICLE_COUNT ATTRACTOR_COUNT : nat)
    (u1 u2 : Uniforms) (g : Geometry) (i : nat) (p v : vec) :
  gravityConstant u1 = 0%R ->
  gravityConstant u2 = 0%R ->
  timeScale u2 = timeScale u1 ->
  maxSpeed u2 = maxSpeed u1 ->
  velocityDamping u2 = velocityDamping u1 ->
  boundHalfExtent u2 = boundHalfExtent u1 ->
  attractors_loaded ATTRACTOR_COUNT u1 ->
  attractors_loaded ATTRACTOR_COUNT u2 ->
  (i < PARTICLE_COUNT)%nat ->
  lookup3 (position g) (i * 3) = Some p ->
  lookup3 (velocity g) (i * 3) = Some v ->
  exists g1 g2,
    Script.updateParticles PARTICLE_COUNT ATTRACTOR_COUNT u1 g = Some g1
    /\ Script.updateParticles PARTICLE_COUNT ATTRACTOR_COUNT u2 g = Some g2
    /\ forall w1 w2 : V3.t,
         lookup3 (velocity g1) (i * 3) = Some (fin3 w1) ->
         lookup3 (velocity g2) (i * 3) = Some (fin3 w2) ->
         w2 = w1
         /\ lookup3 (position g2) (i * 3) = lookup3 (position g1) (i * 3)
         /\ fin3 w1 = Script.Step.velocity u1 (Fin 0, Fin 0, Fin 0) v.
Proof.
  intros HG1 HG2 Hts HM Hd Hh Hu1 Hu2 Hi Hp Hv.
  destruct (ieee_updateParticles_particle PARTICLE_COUNT ATTRACTOR_COUNT u1 i g p v
              Hu1 Hi Hp Hv) as (g1 & f1 & Hg1 & Hf1 & _ & Hv1 & Hp1).
  destruct (ieee_updateParticles_particle PARTICLE_COUNT ATTRACTOR_COUNT u2 i g p v
              Hu2 Hi Hp Hv) as (g2 & f2 & Hg2 & Hf2 & _ & Hv2 & Hp2).
  exists g1, g2. split; [exact Hg1 |]. split; [exact Hg2 |].
  intros w1 w2 Hw1 Hw2.
  rewrite Hv1 in Hw1. injection Hw1 as Hw1.
  rewrite Hv2 in Hw2. injection Hw2 as Hw2.
  destruct (ieee_velocity_Fin_inv _ _ _ _ Hw1) as (f10 & _ & _ & _ & Hf10 & _).
  destruct (ieee_velocity_Fin_inv _ _ _ _ Hw2) as (f20 & _ & _ & _ & Hf20 & _).
  subst f1 f2.
  rewrite (ieee_forces_zero_gravity_finite _ _ _ _ _ _ HG1 Hf1) in *.
  rewrite (ieee_forces_zero_gravity_finite _ _ _ _ _ _ HG2 Hf2) in *.
  rewrite (ieee_velocity_uniforms u1 u2) in Hw2, Hp2, Hv2 by assumption.
  rewrite (ieee_position_uniforms u1 u2) in Hp2 by assumption.
  split; [apply fin3_inj; congruence |]. split; [congruence |]. now symmetry.
Qed.

(** ** A particle on an attractor *)

Lemma ieee_div_zero (a : number) :
  IEEE.div a (Fin 0) = PInf \/ IEEE.div a (Fin 0) = NInf \/ IEEE.div a (Fin 0) = NaN.
Proof.
  unfold IEEE.div.
  destruct (div_zero_not_finite a) as [-> | [-> | ->]]; auto.
Qed.

Lemma ieee_div_zero_twice_mul_zero (a : number) :
  IEEE.mul (IEEE.div (IEEE.div a (Fin 0)) (Fin 0)) (Fin 0) = NaN.
Proof.
  destruct (ieee_div_zero a) as [-> | [-> | ->]];
    unfold IEEE.div, IEEE.mul, Number.div, Number.mul, Number.signed_inf;
    repeat destruct (Rlt_dec _ _); repeat destruct (Req_dec_T _ _);
    try reflexivity; try lra.
Qed.

Lemma ieee_sub_diag (x : R) : IEEE.sub (Fin x) (Fin x) = Fin 0.
Proof.
  unfold IEEE.sub. rewrite NumberFacts.sub_Fin.
  replace (x - x)%R with 0%R by ring. apply Binary.b64_0.
Qed.

Lemma ieee_mul_0_0 : IEEE.mul (Fin 0) (Fin 0) = Fin 0.
Proof.
  unfold IEEE.mul. rewrite NumberFacts.mul_Fin.
  replace (0 * 0)%R with 0%R by ring. apply Binary.b64_0.
Qed.

Lemma ieee_add_0_0 : IEEE.add (Fin 0) (Fin 0) = Fin 0.
Proof.
  unfold IEEE.add. rewrite NumberFacts.add_Fin.
  replace (0 + 0)%R with 0%R by ring. apply Binary.b64_0.
Qed.

Lemma ieee_sqrt_0 : IEEE.sqrt (Fin 0) = Fin 0.
Proof.
  unfold IEEE.sqrt. rewrite NumberFacts.sqrt_Fin by lra. rewrite sqrt_0.
  apply Binary.b64_0.
Qed.

Lemma ieee_add_NaN_r (a : number) : IEEE.add a NaN = NaN.
Proof. unfold IEEE.add. now rewrite NumberFacts.add_NaN_r. Qed.

Lemma ieee_add_NaN_l (a : number) : IEEE.add NaN a = NaN.
Proof. reflexivity. Qed.

Lemma ieee_mul_NaN_l (a : number) : IEEE.mul NaN a = NaN.
Proof. reflexivity. Qed.

(** The iteration for an attractor at the position of the particle turns
    the three accumulators into [NaN]. *)
Lemma ieee_attract_coincident (u : Uniforms) positions masses (i j : nat) aP aR
    (p : V3.t) f :
  attractorPositions u !! j = Some aP ->
  attractorRotationAxes u !! j = Some aR ->
  read3 positions (i * 3) = fin3 p ->
  V3.of_Vector3 aP = p ->
  Script.attract u positions masses i j f = Some (NaN, NaN, NaN).
Proof.
  intros HaP HaR Hp Heq. destruct p as [[px py] pz], f as [[fx fy] fz].
  unfold read3 in Hp. injection Hp as Hx Hy Hz.
  unfold V3.of_Vector3 in Heq. injection Heq as Hax Hay Haz.
  unfold Script.attract. rewrite HaP, HaR. cbn [mbind option_bind]. cbv zeta.
  rewrite Hx, Hy, Hz, Hax, Hay, Haz.
  rewrite !ieee_sub_diag, !ieee_mul_0_0, !ieee_add_0_0, ieee_sqrt_0.
  rewrite !ieee_div_zero_twice_mul_zero.
  rewrite !ieee_add_NaN_r, !ieee_add_NaN_l. reflexivity.
Qed.

Lemma ieee_attract_NaN (n : nat) (u : Uniforms) positions masses (i j : nat) :
  attractors_loaded n u -> (j < n)%nat ->
  Script.attract u positions masses i j (NaN, NaN, NaN) = Some (NaN, NaN, NaN).
Proof.
  intros [Hp Ha] Hj. unfold Script.attract.
  destruct (lookup_lt_is_Some_2 (attractorPositions u) j ltac:(lia)) as [aP ->].
  destruct (lookup_lt_is_Some_2 (attractorRotationAxes u) j ltac:(lia)) as [aR ->].
  reflexivity.
Qed.

Lemma ieee_forces_coincident (n : nat) (u : Uniforms) positions masses (i j : nat) aP
    (p : V3.t) :
  attractors_loaded n u ->
  (j < n)%nat ->
  attractorPositions u !! j = Some aP ->
  V3.of_Vector3 aP = p ->
  read3 positions (i * 3) = fin3 p ->
  Script.forces n u positions masses i = Some (NaN, NaN, NaN).
Proof.
  intros Hu Hj HaP Heq Hp. unfold Script.forces.
  assert (Hnan : forall count start, (start + count <= n)%nat ->
    for_ start count (fun j f => f ≫= Script.attract u positions masses i j)
      (Some (NaN, NaN, NaN)) = Some (NaN, NaN, NaN)).
  { induction count as [| k IH]; intros start Hk; cbn [for_ mbind option_bind];
      [reflexivity |].
    rewrite (ieee_attract_NaN n) by (assumption || lia). apply IH. lia. }
  assert (H : forall count start f,
    (start <= j < start + count)%nat -> (start + count <= n)%nat ->
    for_ start count (fun j f => f ≫= Script.attract u positions masses i j) (Some f)
    = Some (NaN, NaN, NaN)).
  { induction count as [| k IH]; intros start f Hin Hk; cbn [for_ mbind option_bind];
      [lia |].
    destruct (decide (start = j)) as [-> | Hne].
    - destruct Hu as [Hlp Hla].
      destruct (lookup_lt_is_Some_2 (attractorRotationAxes u) j ltac:(lia)) as [aR HaR].
      rewrite (ieee_attract_coincident u positions masses i j aP aR p f HaP HaR Hp Heq).
      apply Hnan. lia.
    - destruct (ieee_attract_is_Some n u positions masses i start f Hu ltac:(lia))
        as [f' ->].
      apply IH; lia. }
  apply H; lia.
Qed.

(** A [NaN] force makes the velocity and the position [NaN]. *)
Lemma ieee_velocity_NaN (u : Uniforms) (v : vec) :
  Script.Step.velocity u (NaN, NaN, NaN) v = (NaN, NaN, NaN).
Proof.
  destruct v as [[vx vy] vz].
  unfold Script.Step.velocity, Script.Step.integrate_velocity.
  rewrite !ieee_mul_NaN_l, !ieee_add_NaN_r. reflexivity.
Qed.

Lemma ieee_position_NaN (u : Uniforms) (p : vec) :
  Script.Step.position u (NaN, NaN, NaN) p = (NaN, NaN, NaN).
Proof.
  destruct p as [[px py] pz].
  unfold Script.Step.position, Script.Step.integrate_position.
  rewrite !ieee_mul_NaN_l, !ieee_add_NaN_r. reflexivity.
Qed.

(** The step on a particle at the position of an attractor. *)
Lemma ieee_step_coincident (N n : nat) (u : Uniforms) (g : Geometry) (i j : nat) aP
    (v : vec) :
  attractors_loaded n u ->
  (i < N)%nat -> (j < n)%nat ->
  attractorPositions u !! j = Some aP ->
  lookup3 (position g) (i * 3) = Some (fin3 (V3.of_Vector3 aP)) ->
  lookup3 (velocity g) (i * 3) = Some v ->
  exists g',
    Script.updateParticles N n u g = Some g'
    /\ lookup3 (velocity g') (i * 3) = Some (NaN, NaN, NaN)
    /\ lookup3 (position g') (i * 3) = Some (NaN, NaN, NaN).
Proof.
  intros Hu Hi Hj HaP Hp Hv.
  destruct (ieee_updateParticles_particle N n u i g _ v Hu Hi Hp Hv)
    as (g' & f & Hg' & Hf & _ & Hv' & Hp').
  rewrite (ieee_forces_coincident n u _ _ i j aP (V3.of_Vector3 aP)) in Hf;
    auto; [| now apply lookup3_read3].
  injection Hf as <-.
  rewrite ieee_velocity_NaN in Hv', Hp'. rewrite ieee_position_NaN in Hp'.
  exists g'. auto.
Qed.

(** ** Results within bounds *)

Module Bounds.

Import IEEE.
Local Open Scope R_scope.

(** A number of at most [2 ^ k] in magnitude has a finite rounding of at
    most [2 ^ (k + 1)]. *)
Lemma b64_upper (x : R) (k : Z) :
  (-1074 <= k <= 1022)%Z -> Rabs x <= powerRZ 2 k ->
  exists y : R, binary64 (Fin x) = Fin y /\ Rabs y <= powerRZ 2 (k + 1).
Proof.
  intros Hk Hx.
  destruct (Binary.b64_finite x) as [y Hy].
  { pose proof (Pow2.le k 1023 ltac:(lia)). lra. }
  exists y. split; [exact Hy |].
  pose proof (Binary.b64_error x y Hy) as He.
  assert (Htri : Rabs y <= Rabs x + Rabs (y - x)).
  { replace y with (x + (y - x)) at 1 by ring. apply Rabs_triang. }
  pose proof (Pow2.le_half (-53) ltac:(lia)) as Hu.
  pose proof (Pow2.le (-1075) (k - 1) ltac:(lia)) as Heta.
  rewrite Pow2.pred in Heta.
  rewrite Pow2.succ. pose proof (Pow2.pos k). pose proof (Rabs_pos x).
  pose proof (Pow2.pos (-53)). nra.
Qed.

(** A number of at least [2 ^ k] in magnitude, in the normal range, is
    rounded to one of at least [2 ^ (k - 1)]. *)
Lemma b64_lower (x y : R) (k : Z) :
  (-1022 <= k)%Z -> powerRZ 2 k <= Rabs x ->
  binary64 (Fin x) = Fin y -> powerRZ 2 (k - 1) <= Rabs y.
Proof.
  intros Hk Hx Hy.
  assert (Hn : powerRZ 2 (-1022) <= Rabs x).
  { pose proof (Pow2.le (-1022) k Hk). lra. }
  pose proof (Binary.b64_error_normal x y (or_intror Hn) Hy) as He.
  assert (Htri : Rabs x <= Rabs y + Rabs (y - x)).
  { replace x with (y - (y - x)) at 1 by ring.
    unfold Rminus at 1. rewrite <- (Rabs_Ropp (y - x)). apply Rabs_triang. }
  pose proof (Pow2.le_half (-53) ltac:(lia)) as Hu.
  rewrite Pow2.pred. pose proof (Pow2.pos k). pose proof (Pow2.pos (-53)).
  pose proof (Rabs_pos x). nra.
Qed.

(** The operations on finite operands within bounds. *)
Lemma sub_upper (x y : R) (k : Z) :
  (-1074 <= k <= 1020)%Z -> Rabs x <= powerRZ 2 k -> Rabs y <= powerRZ 2 k ->
  exists z : R, sub (Fin x) (Fin y) = Fin z /\ Rabs z <= powerRZ 2 (k + 2).
Proof.
  intros Hk Hx Hy. unfold sub. rewrite NumberFacts.sub_Fin.
  replace (k + 2)%Z with ((k + 1) + 1)%Z by lia.
  apply b64_upper; [lia |]. rewrite Pow2.succ.
  unfold Rminus. pose proof (Rabs_triang x (- y)) as H.
  rewrite Rabs_Ropp in H. lra.
Qed.

Lemma add_upper (x y : R) (k : Z) :
  (-1074 <= k <= 1020)%Z -> Rabs x <= powerRZ 2 k -> Rabs y <= powerRZ 2 k ->
  exists z : R, add (Fin x) (Fin y) = Fin z /\ Rabs z <= powerRZ 2 (k + 2).
Proof.
  intros Hk Hx Hy. unfold add. rewrite NumberFacts.add_Fin.
  replace (k + 2)%Z with ((k + 1) + 1)%Z by lia.
  apply b64_upper; [lia |]. rewrite Pow2.succ.
  pose proof (Rabs_triang x y). lra.
Qed.

Lemma mul_upper (x y : R) (j k : Z) :
  (-1074 <= j + k <= 1022)%Z -> Rabs x <= powerRZ 2 j -> Rabs y <= powerRZ 2 k ->
  exists z : R, mul (Fin x) (Fin y) = Fin z /\ Rabs z <= powerRZ 2 (j + k + 1).
Proof.
  intros Hk Hx Hy. unfold mul. rewrite NumberFacts.mul_Fin.
  apply b64_upper; [lia |]. rewrite Rabs_mult, Pow2.add.
  pose proof (Rabs_pos x). pose proof (Rabs_pos y).
  apply Rmult_le_compat; assumption.
Qed.

Lemma mul_0_l (x : R) : mul (Fin 0) (Fin x) = Fin 0.
Proof.
  unfold mul. rewrite NumberFacts.mul_Fin.
  replace (0 * x) with 0 by ring. apply Binary.b64_0.
Qed.

Lemma mul_0_r (x : R) : mul (Fin x) (Fin 0) = Fin 0.
Proof.
  unfold mul. rewrite NumberFacts.mul_Fin.
  replace (x * 0) with 0 by ring. apply Binary.b64_0.
Qed.

Lemma div_0_l (x : R) : x <> 0 -> div (Fin 0) (Fin x) = Fin 0.
Proof.
  intros Hx. unfold div. rewrite NumberFacts.div_Fin by exact Hx.
  replace (0 / x) with 0 by (field; exact Hx). apply Binary.b64_0.
Qed.

Lemma add_0_l (x : R) : binary64 (Fin x) = Fin x -> add (Fin 0) (Fin x) = Fin x.
Proof.
  intros Hx. unfold add. rewrite NumberFacts.add_Fin.
  replace (0 + x) with x by ring. exact Hx.
Qed.

(** The square of a finite number. *)
Lemma square (x : R) (k : Z) :
  (-500 <= k <= 500)%Z -> Rabs x <= powerRZ 2 k ->
  exists q : R,
    mul (Fin x) (Fin x) = Fin q /\ 0 <= q <= powerRZ 2 (k + k + 1)
    /\ forall j : Z, (-500 <= j)%Z -> powerRZ 2 j <= Rabs x -> powerRZ 2 (j + j - 1) <= q.
Proof.
  intros Hk Hx.
  destruct (mul_upper x x k k ltac:(lia) Hx Hx) as (q & Hq & Hqu).
  assert (Hq0 : 0 <= q).
  { unfold mul in Hq. rewrite NumberFacts.mul_Fin in Hq.
    apply (Binary.b64_nonneg (x * x)); [nra | exact Hq]. }
  exists q. split; [exact Hq |]. rewrite Rabs_right in Hqu by lra.
  split; [lra |]. intros j Hj Hxj.
  unfold mul in Hq. rewrite NumberFacts.mul_Fin in Hq.
  pose proof (b64_lower (x * x) q (j + j) ltac:(lia)) as Hl.
  rewrite (Rabs_right q) in Hl by lra. apply Hl; [| exact Hq].
  rewrite Rabs_mult, Pow2.add. pose proof (Pow2.pos j).
  apply Rmult_le_compat; lra.
Qed.

(** The sum of two finite numbers that are not negative. *)
Lemma sum_nonneg (x y : R) (k : Z) :
  (-1000 <= k <= 1020)%Z -> 0 <= x <= powerRZ 2 k -> 0 <= y <= powerRZ 2 k ->
  exists s : R,
    add (Fin x) (Fin y) = Fin s /\ 0 <= s <= powerRZ 2 (k + 2)
    /\ forall j : Z, (-1000 <= j)%Z -> powerRZ 2 j <= x \/ powerRZ 2 j <= y ->
         powerRZ 2 (j - 1) <= s.
Proof.
  intros Hk Hx Hy.
  destruct (add_upper x y k ltac:(lia)) as (s & Hs & Hsu);
    [rewrite Rabs_right; lra | rewrite Rabs_right; lra |].
  assert (Hs0 : 0 <= s).
  { unfold add in Hs. rewrite NumberFacts.add_Fin in Hs.
    apply (Binary.b64_nonneg (x + y)); [lra | exact Hs]. }
  exists s. split; [exact Hs |]. rewrite Rabs_right in Hsu by lra.
  split; [lra |]. intros j Hj Hxy.
  unfold add in Hs. rewrite NumberFacts.add_Fin in Hs.
  pose proof (b64_lower (x + y) s j ltac:(lia)) as Hl.
  rewrite (Rabs_right s) in Hl by lra. apply Hl; [| exact Hs].
  rewrite Rabs_right by lra. destruct Hxy; lra.
Qed.


End Bounds.
